(** * Sóng: colour extraction and wave gradients

    A shallow embedding of the TypeScript sources of the library:

      - the utilities of [src/utils/index.ts]           (module [Utils])
      - the interfaces of [src/types/index.ts]          ([ColorRGB],
        [ExtractorOptions], [WaveConfig], [WaveResult])
      - class [ColorExtractor] of the core, with its sampling stages
        [buildColorFrequencyMap] and [getDominantColors]
                                                        (module [ColorExtractor])
      - class [WaveGenerator], [src/core/wave-extractor.ts]
                                                        (module [WaveGenerator])
      - class [Song] of the core                        (module [Song])
      - the entry point [createWave] of the library index
                                                        (module [Index])

    followed by the properties established about them.

    Modelling conventions.
      - A JavaScript [number] that the code only adds, subtracts and
        compares (a colour channel, a pixel read, a colour distance) is a
        [Num.t]: an integer or [NaN].  Counts, indices, array lengths and
        the numeric options are integers ([Z]).
      - A [number] that the code multiplies by a fraction or divides
        (luminance, saturation, harmony) is an IEEE 754 double ([F64.t]):
        a rational value, an infinity or [NaN], every operation giving
        the exact result rounded to the nearest double, ties to even.
        The sign of zero is not kept; no operation of the library
        observes it.
      - A JavaScript string is a [string]; a character is one 8-bit code
        unit.
      - An array is a [list]; [push] appends at the end.
      - A [Map<string, _>] and an object used as a dictionary are
        insertion-ordered association lists.
      - An optional field is an [option], [None] for a property that is
        absent.  An options object is taken to hold no property that is
        set to [undefined] explicitly (spreading such an object would
        put [undefined] in the place of a default).
      - A default argument is supplied by the caller.
      - The browser is a record [Env.t] of what it answers (is there a
        [window], does an image load, which pixels does the canvas hold)
        and a [DOM.World] of what the code writes to.
      - A call of an [async] method is taken together with the settling of
        its promise: resolved is [Ok], rejected is [Throw]; a call whose
        loop never ends is [Diverges]. *)

From Stdlib Require Import ZArith QArith Qabs Qround Qpower Qminmax.
From Stdlib Require Import List String Ascii.
From Stdlib Require Import Bool Lia Lqa.
From Stdlib Require Import DecimalString.
From Stdlib Require Import Permutation.
From Stdlib Require Import DecimalNat.
From Stdlib Require Import DecimalPos DecimalZ Sorted.
From Stdlib Require Floats.
From Equations Require Import Equations.
Import ListNotations.

Open Scope string_scope.
Open Scope list_scope.
Open Scope Z_scope.

(** ** Small JavaScript prelude *)

Module JS.

(** The value of an optional property, or [dflt] when it is absent. *)
Definition orElse {A} (o : option A) (dflt : A) : A :=
  match o with Some v => v | None => dflt end.

(** Truthiness of an optional string: absent and [""] are falsy. *)
Definition truthy (o : option string) : bool :=
  match o with
  | Some v => negb (String.eqb v "")
  | None => false
  end.

(** [!o] for an optional array or object: only absence is falsy. *)
Definition absent {A} (o : option A) : bool :=
  match o with Some _ => false | None => true end.

(** [arr.length] as a number. *)
Definition len {A} (arr : list A) : Z := Z.of_nat (List.length arr).

(** [arr.push(x)] *)
Definition push {A} (arr : list A) (x : A) : list A := arr ++ [x].

(** Relative index resolution of [Array.prototype.slice]: a negative
    index counts from the end, and the result is clamped to [0, length]. *)
Definition relIndex (n k : Z) : Z :=
  if k <? 0 then Z.max (n + k) 0 else Z.min k n.

(** [arr.slice(start, end)] *)
Definition slice {A} (arr : list A) (start stop : Z) : list A :=
  let n := len arr in
  let from := relIndex n start in
  let to := relIndex n stop in
  firstn (Z.to_nat (Z.max (to - from) 0)) (skipn (Z.to_nat from) arr).

(** [String(n)] for a non-negative integer. *)
Definition numToString (n : nat) : string :=
  NilZero.string_of_uint (Nat.to_uint n).

(** Property assignment [obj[k] = v] on an object used as a record of
    strings, and [map.set(k, v)] on a [Map]: an existing key keeps its
    place and gets the new value, a new key goes to the end. *)
Fixpoint assocSet {V} (k : string) (v : V) (m : list (string * V))
    : list (string * V) :=
  match m with
  | [] => [(k, v)]
  | (k', v') :: rest =>
      if String.eqb k k' then (k, v) :: rest
      else (k', v') :: assocSet k v rest
  end.

(** [map.get(k)] *)
Fixpoint assocGet {V} (k : string) (m : list (string * V)) : option V :=
  match m with
  | [] => None
  | (k', v') :: rest => if String.eqb k k' then Some v' else assocGet k rest
  end.

(** [map.has(k)] *)
Definition assocHas {V} (k : string) (m : list (string * V)) : bool :=
  match assocGet k m with Some _ => true | None => false end.

(** [Array.from(map.keys())] *)
Definition assocKeys {V} (m : list (string * V)) : list string := map fst m.

End JS.

(** ** Numbers that hold integers *)

(** A [number] that is an integer or [NaN].  On integers addition,
    subtraction, [Math.abs], [Math.max], [Math.min] and the comparisons
    are exact (as they are on doubles up to 2^53); [NaN] spreads through
    the arithmetic and makes every comparison false. *)
Module Num.

Inductive t : Type :=
| Int (z : Z)
| NaN.

Definition add (x y : t) : t :=
  match x, y with
  | Int a, Int b => Int (a + b)
  | _, _ => NaN
  end.

Definition sub (x y : t) : t :=
  match x, y with
  | Int a, Int b => Int (a - b)
  | _, _ => NaN
  end.

(** [Math.abs(x)] *)
Definition abs (x : t) : t :=
  match x with
  | Int a => Int (Z.abs a)
  | NaN => NaN
  end.

(** [Math.max(x, y)] *)
Definition max (x y : t) : t :=
  match x, y with
  | Int a, Int b => Int (Z.max a b)
  | _, _ => NaN
  end.

(** [Math.min(x, y)] *)
Definition min (x y : t) : t :=
  match x, y with
  | Int a, Int b => Int (Z.min a b)
  | _, _ => NaN
  end.

(** [x < y] *)
Definition ltb (x y : t) : bool :=
  match x, y with
  | Int a, Int b => a <? b
  | _, _ => false
  end.

(** [x === y] *)
Definition eqb (x y : t) : bool :=
  match x, y with
  | Int a, Int b => a =? b
  | _, _ => false
  end.

End Num.

Coercion Num.Int : Z >-> Num.t.

Declare Scope num_scope.
Delimit Scope num_scope with num.
Bind Scope num_scope with Num.t.
Notation "x + y" := (Num.add x y) : num_scope.
Notation "x - y" := (Num.sub x y) : num_scope.

(** ** Doubles *)

(** IEEE 754 binary64 numbers by their values.  A finite double is the
    rational it stands for; an operation computes the exact rational
    result and rounds it to the nearest double, ties to even, an
    overflow giving an infinity. *)
Module F64.

Inductive t : Type :=
| Finite (q : Q)
| Infinite (negative : bool)
| NaN.

(** [2^k] for any integer [k]. *)
Definition pow2 (k : Z) : Q := (2 ^ k)%Q.

(** The exponent of the binade of a positive [q]:
    [2^(ilog2 q) <= q < 2^(ilog2 q + 1)]. *)
Definition ilog2 (q : Q) : Z :=
  let k := Z.log2 (Qnum q) - Z.log2 (Z.pos (Qden q)) in
  if Qle_bool (pow2 k) q then k else k - 1.

(** The integer nearest to [q], the even one of two that are equally
    near. *)
Definition rne (q : Q) : Z :=
  let f := Qfloor q in
  match (q - inject_Z f ?= 1 # 2)%Q with
  | Lt => f
  | Gt => f + 1
  | Eq => if Z.even f then f else f + 1
  end.

(** The exponent of the spacing of the doubles around a positive [q]:
    53 significant bits, and never finer than [2^-1074]. *)
Definition quantum (q : Q) : Z := Z.max (ilog2 q - 52) (-1074).

(** The multiple of that spacing nearest to [q]. *)
Definition nearest (q : Q) : Q :=
  (inject_Z (rne (q / pow2 (quantum q))) * pow2 (quantum q))%Q.

(** The double nearest to a [q] that is not negative. *)
Definition roundPos (q : Q) : t :=
  if Qeq_bool q 0 then Finite 0
  else if Qle_bool (pow2 1024) (nearest q) then Infinite false
  else Finite (Qred (nearest q)).

(** [-x] *)
Definition opp (x : t) : t :=
  match x with
  | Finite q => Finite (- q)
  | Infinite s => Infinite (negb s)
  | NaN => NaN
  end.

(** The double nearest to [q]: the magnitude is rounded, the sign
    kept. *)
Definition round (q : Q) : t :=
  if Qle_bool 0 q then roundPos q else opp (roundPos (- q)).

(** A decimal literal of the source. *)
Definition lit (q : Q) : t := round q.

(** The double for an integer, and for a number that holds one. *)
Definition ofZ (z : Z) : t := round (inject_Z z).

Definition ofNum (x : Num.t) : t :=
  match x with
  | Num.Int z => ofZ z
  | Num.NaN => NaN
  end.

Definition zero : t := Finite 0.
Definition one : t := Finite 1.

Definition negative (q : Q) : bool := negb (Qle_bool 0 q).

(** [x + y] *)
Definition add (x y : t) : t :=
  match x, y with
  | NaN, _ | _, NaN => NaN
  | Finite p, Finite q => round (p + q)
  | Infinite s, Finite _ | Finite _, Infinite s => Infinite s
  | Infinite s1, Infinite s2 => if Bool.eqb s1 s2 then Infinite s1 else NaN
  end.

(** [x - y] *)
Definition sub (x y : t) : t := add x (opp y).

(** [x * y] *)
Definition mul (x y : t) : t :=
  match x, y with
  | NaN, _ | _, NaN => NaN
  | Finite p, Finite q => round (p * q)
  | Infinite s, Finite q | Finite q, Infinite s =>
      if Qeq_bool q 0 then NaN else Infinite (xorb s (negative q))
  | Infinite s1, Infinite s2 => Infinite (xorb s1 s2)
  end.

(** [x / y]; a zero divisor counts as [+0]. *)
Definition div (x y : t) : t :=
  match x, y with
  | NaN, _ | _, NaN => NaN
  | Finite p, Finite q =>
      if Qeq_bool q 0
      then if Qeq_bool p 0 then NaN else Infinite (negative p)
      else round (p / q)
  | Finite _, Infinite _ => Finite 0
  | Infinite s, Finite q => Infinite (xorb s (negative q))
  | Infinite _, Infinite _ => NaN
  end.

(** [x < y] and [x > y]: false when either side is [NaN]. *)
Definition ltb (x y : t) : bool :=
  match x, y with
  | NaN, _ | _, NaN => false
  | Finite p, Finite q => negb (Qle_bool q p)
  | Finite _, Infinite s => negb s
  | Infinite s, Finite _ => s
  | Infinite s1, Infinite s2 => s1 && negb s2
  end.

Definition gtb (x y : t) : bool := ltb y x.

(** [Math.max(x, y)] *)
Definition max (x y : t) : t :=
  match x, y with
  | NaN, _ | _, NaN => NaN
  | _, _ => if ltb x y then y else x
  end.

(** The same number among the doubles of the kernel, for comparing the
    two: a finite value is [n / 2^k] with [n] of at most 53 bits once
    its trailing zeros are taken off. *)
Definition trailingZeros (n : Z) : Z :=
  if n =? 0 then 0 else Z.log2 (Z.land n (- n)).

Definition toPrim (x : t) : PrimFloat.float :=
  match x with
  | NaN => PrimFloat.nan
  | Infinite s => if s then PrimFloat.neg_infinity else PrimFloat.infinity
  | Finite q =>
      let n := Z.abs (Qnum q) in
      let k := Z.log2 (Z.pos (Qden q)) in
      let j := trailingZeros n in
      let f :=
        FloatOps.Z.ldexp (PrimFloat.of_uint63 (Uint63.of_Z (n / 2 ^ j)))
                         (j - k) in
      if Qnum q <? 0 then PrimFloat.opp f else f
  end.

End F64.

Declare Scope f64_scope.
Delimit Scope f64_scope with f64.
Bind Scope f64_scope with F64.t.
Notation "x + y" := (F64.add x y) : f64_scope.
Notation "x - y" := (F64.sub x y) : f64_scope.
Notation "x * y" := (F64.mul x y) : f64_scope.
Notation "x / y" := (F64.div x y) : f64_scope.

Arguments F64.lit q%_Q : simpl never.
Arguments F64.round : simpl never.
Arguments F64.ofZ : simpl never.
Arguments F64.add : simpl never.
Arguments F64.mul : simpl never.
Arguments F64.div : simpl never.
Arguments F64.ltb : simpl never.
Arguments F64.max : simpl never.

(** ** [src/types/index.ts] *)

(** [{ r: number; g: number; b: number }]; an integer channel is written
    as the integer itself, through the coercion from [Z]. *)
Record ColorRGB : Type := mkRGB { r : Num.t; g : Num.t; b : Num.t }.

(** An interface with optional fields is a record over a field wrapper:
    [Partial] wraps every field in [option] (the field may be absent),
    [Required] leaves it bare, as TypeScript's [Required<_>] does. *)
Definition Partial (X : Type) : Type := option X.
Definition Required (X : Type) : Type := X.

Module ExtractorOptions.
Record t (F : Type -> Type) : Type := mk {
  canvasSize : F Z;
  sampleRate : F Z;
  precision : F Z;
  maxColors : F Z
}.
Arguments mk {F}.
Arguments canvasSize {F}.
Arguments sampleRate {F}.
Arguments precision {F}.
Arguments maxColors {F}.

Definition empty : t Partial := mk None None None None.

(** [{ ...base, ...overrides }] *)
Definition spread (base : t Required) (overrides : t Partial) : t Required :=
  mk (F := Required)
     (JS.orElse (canvasSize overrides) (canvasSize base))
     (JS.orElse (sampleRate overrides) (sampleRate base))
     (JS.orElse (precision overrides) (precision base))
     (JS.orElse (maxColors overrides) (maxColors base)).
End ExtractorOptions.

Module WaveConfig.
Record t (F : Type -> Type) : Type := mk {
  direction : F string;
  transition : F string;
  fallbackColors : F (list string);
  colorCount : F Z;
  flowSpeed : F string;      (* "slow" | "medium" | "fast" *)
  intensity : F string;      (* "gentle" | "medium" | "energetic" *)
  waveType : F string        (* "linear" | "radial" | "conic" *)
}.
Arguments mk {F}.
Arguments direction {F}.
Arguments transition {F}.
Arguments fallbackColors {F}.
Arguments colorCount {F}.
Arguments flowSpeed {F}.
Arguments intensity {F}.
Arguments waveType {F}.

Definition empty : t Partial := mk None None None None None None None.

(** [{ ...base, ...overrides }] *)
Definition spread (base : t Required) (overrides : t Partial) : t Required :=
  mk (F := Required)
     (JS.orElse (direction overrides) (direction base))
     (JS.orElse (transition overrides) (transition base))
     (JS.orElse (fallbackColors overrides) (fallbackColors base))
     (JS.orElse (colorCount overrides) (colorCount base))
     (JS.orElse (flowSpeed overrides) (flowSpeed base))
     (JS.orElse (intensity overrides) (intensity base))
     (JS.orElse (waveType overrides) (waveType base)).

Definition with_transition (c : t Required) (v : string) : t Required :=
  mk (F := Required) (direction c) v (fallbackColors c) (colorCount c)
     (flowSpeed c) (intensity c) (waveType c).

Definition with_fallbackColors (c : t Required) (v : list string) : t Required :=
  mk (F := Required) (direction c) (transition c) v (colorCount c)
     (flowSpeed c) (intensity c) (waveType c).
End WaveConfig.

Module WaveResult.
Record t : Type := mk {
  colors : list string;
  css : string;
  rgb : list ColorRGB;
  intensity : string;
  harmony : F64.t;
  mood : string;
  isFlowing : bool;
  error : option string
}.
End WaveResult.

(** ** The hosting environment *)

(** A value caught by [catch (error)]: an [Error] carrying a message, or
    any other thrown value. *)
Inductive Thrown : Type :=
| ErrorObj (message : string)
| NonError.

(** The outcome of a call: a returned value (a resolved promise), a
    thrown one (a rejected promise), or no outcome at all, when a loop
    of the call never ends. *)
Inductive Outcome (A : Type) : Type :=
| Ok (value : A)
| Throw (error : Thrown)
| Diverges.
Arguments Ok {A}.
Arguments Throw {A}.
Arguments Diverges {A}.

(** [string | HTMLImageElement]; of an image element only its [src] is
    read by the code. *)
Inductive ImageSource : Type :=
| ImageUrl (url : string)
| ImageElement (src : string).

(** What the canvas yields for an image drawn at a given size, through
    [drawImage] and [getImageData]: either one of the two calls throws,
    or the [data] of the image come out, a [Uint8ClampedArray] of bytes,
    four per pixel. *)
Inductive CanvasOutcome : Type :=
| CanvasThrows (error : Thrown)
| ImageData (data : list Z).

Module Env.
Record t : Type := mk {
  (** [typeof window !== "undefined" && typeof document !== "undefined"] *)
  isBrowser : bool;
  (** whether [canvas.getContext("2d")] yields a context *)
  context2d : bool;
  (** whether the image at a URL loads ([onload]) or not ([onerror]) *)
  imageLoads : string -> bool;
  (** the canvas calls for an image and a canvas size *)
  getImageData : ImageSource -> Z -> CanvasOutcome
}.
End Env.

Module DOM.

Definition Element : Type := nat.

(** The inline style properties the library writes. *)
Module Style.
Record t : Type := mk {
  background : option string;
  transition : option string;
  opacity : option string;
  filter : option string;
  backgroundSize : option string;
  animation : option string
}.
Definition initial : t := mk None None None None None None.
Definition set_background v s :=
  mk (Some v) (transition s) (opacity s) (filter s) (backgroundSize s) (animation s).
Definition set_transition v s :=
  mk (background s) (Some v) (opacity s) (filter s) (backgroundSize s) (animation s).
Definition set_opacity v s :=
  mk (background s) (transition s) (Some v) (filter s) (backgroundSize s) (animation s).
Definition set_filter v s :=
  mk (background s) (transition s) (opacity s) (Some v) (backgroundSize s) (animation s).
Definition set_backgroundSize v s :=
  mk (background s) (transition s) (opacity s) (filter s) (Some v) (animation s).
Definition set_animation v s :=
  mk (background s) (transition s) (opacity s) (filter s) (backgroundSize s) (Some v).
End Style.

(** The mutable surroundings of a [Song]: element styles, the custom
    properties of the document root, the injected keyframes style sheet,
    the console, and the record of the calls made to [extractColors]. *)
Record World : Type := mkWorld {
  styles : Element -> Style.t;
  rootProperties : list (string * string);
  waveAnimationSheet : option string;
  console : list string;
  extractions : list ImageSource
}.

Definition initial : World :=
  mkWorld (fun _ => Style.initial) [] None [] [].

(** [element.style.<property> = value], through a setter of [Style]. *)
Definition restyle (element : Element) (f : Style.t -> Style.t) (w : World)
    : World :=
  mkWorld (fun e => if Nat.eqb e element then f (styles w e) else styles w e)
          (rootProperties w) (waveAnimationSheet w) (console w) (extractions w).

(** [document.documentElement.style.setProperty(property, value)] *)
Definition setRootProperty (property value : string) (w : World) : World :=
  mkWorld (styles w) (JS.assocSet property value (rootProperties w))
          (waveAnimationSheet w) (console w) (extractions w).

Definition setWaveAnimationSheet (text : string) (w : World) : World :=
  mkWorld (styles w) (rootProperties w) (Some text) (console w) (extractions w).

(** [console.warn(message)] *)
Definition warn (message : string) (w : World) : World :=
  mkWorld (styles w) (rootProperties w) (waveAnimationSheet w)
          (JS.push (console w) message) (extractions w).

Definition recordExtraction (source : ImageSource) (w : World) : World :=
  mkWorld (styles w) (rootProperties w) (waveAnimationSheet w) (console w)
          (JS.push (extractions w) source).

End DOM.
(** ** [src/utils/index.ts] *)

Module Utils.
Import JS.

(** *** [rgbToHex] *)

Definition hexDigit (d : Z) : ascii :=
  match String.get (Z.to_nat d) "0123456789abcdef" with
  | Some c => c
  | None => "0"%char
  end.

(** [v.toString(16)] for an integer [0 <= v <= 255], the only values that
    the clamp in [toHex] lets through: one digit below 16, two digits
    from 16 on. *)
Definition toString16 (v : Z) : string :=
  if v <? 16 then String (hexDigit v) ""
  else String (hexDigit (v / 16)) (String (hexDigit (v mod 16)) "").

(** [s.padStart(2, "0")] *)
Definition padStart2 (s : string) : string :=
  match String.length s with
  | O => "00"
  | S O => ("0" ++ s)%string
  | _ => s
  end.

(** [Math.round(Math.max(0, Math.min(255, n))).toString(16).padStart(2, "0")];
    [Math.round] is the identity on an integer, and a [NaN] goes through
    [Math.min], [Math.max] and [Math.round] to be written as ["NaN"]. *)
Definition toHex (n : Num.t) : string :=
  match n with
  | Num.Int n => padStart2 (toString16 (Z.max 0 (Z.min 255 n)))
  | Num.NaN => padStart2 "NaN"
  end.

Definition rgbToHex (rgb : ColorRGB) : string :=
  ("#" ++ toHex (r rgb) ++ toHex (g rgb) ++ toHex (b rgb))%string.

(** *** [hexToRgb] *)

Definition code (c : ascii) : Z := Z.of_N (N_of_ascii c).

(** Case folding of the [i] flag (the specification's [Canonicalize]
    without the [u] flag): a character is compared by its upper-case
    form.  Only the ASCII letters are folded here; no other character
    folds into the ASCII range. *)
Definition canonicalize (c : ascii) : Z :=
  let n := code c in
  if (97 <=? n) && (n <=? 122) then n - 32 else n.

(** The character class [[a-f\d]] under the [i] flag. *)
Definition isHexClass (c : ascii) : bool :=
  let u := canonicalize c in
  ((65 <=? u) && (u <=? 70))        (* a-f, case folded: A-F *)
  || ((48 <=? u) && (u <=? 57)).    (* \d: 0-9 *)

(** The three capture groups [([a-f\d]{2})([a-f\d]{2})([a-f\d]{2})$]
    matched at the start of [s]. *)
Definition matchGroups (s : string) : option (string * string * string) :=
  match s with
  | String c1 (String c2 (String c3 (String c4 (String c5 (String c6 EmptyString))))) =>
      if forallb isHexClass [c1; c2; c3; c4; c5; c6]
      then Some (String c1 (String c2 ""),
                 String c3 (String c4 ""),
                 String c5 (String c6 ""))
      else None
  | _ => None
  end.

(** [/^#?([a-f\d]{2})([a-f\d]{2})([a-f\d]{2})$/i.exec(hex)]: the greedy
    [#?] first consumes a leading [#]; when the rest then fails to match,
    the matcher backtracks and tries the groups on the whole string. *)
Definition hexRegexExec (hex : string) : option (string * string * string) :=
  match hex with
  | String "#" rest =>
      match matchGroups rest with
      | Some m => Some m
      | None => matchGroups hex
      end
  | _ => matchGroups hex
  end.

(** Value of one hexadecimal digit as read by [parseInt(_, 16)]. *)
Definition hexValue (c : ascii) : Z :=
  let n := code c in
  if (48 <=? n) && (n <=? 57) then n - 48
  else if (97 <=? n) && (n <=? 102) then n - 87
  else if (65 <=? n) && (n <=? 70) then n - 55
  else 0.

(** [parseInt(s, 16)], used only on a captured group, that is on two
    characters of the class [[a-f\d]]. *)
Definition parseInt16 (s : string) : Z :=
  fold_left (fun acc c => acc * 16 + hexValue c) (list_ascii_of_string s) 0.

Definition hexToRgb (hex : string) : option ColorRGB :=
  match hexRegexExec hex with
  | Some (g1, g2, g3) =>
      Some (mkRGB (parseInt16 g1) (parseInt16 g2) (parseInt16 g3))
  | None => None
  end.
(** *** Brightness, difference, uniqueness *)

(** [0.299 * color.r + 0.587 * color.g + 0.114 * color.b] *)
Definition calculateBrightness (color : ColorRGB) : F64.t :=
  (F64.lit 0.299 * F64.ofNum (r color)
   + F64.lit 0.587 * F64.ofNum (g color)
   + F64.lit 0.114 * F64.ofNum (b color))%f64.

Definition calculateColorDifference (color1 color2 : ColorRGB) : Num.t :=
  (Num.abs (r color1 - r color2)
   + Num.abs (g color1 - g color2)
   + Num.abs (b color1 - b color2))%num.

(** [!existingColors.some(existing => diff(color, existing) < threshold)] *)
Definition isColorUnique
    (color : ColorRGB) (existingColors : list ColorRGB) (threshold : Z) : bool :=
  negb (existsb
          (fun existing =>
             Num.ltb (calculateColorDifference color existing) threshold)
          existingColors).

(** *** [analyzeColorMood] *)

(** [max === 0 ? 0 : (max - min) / max] with
    [max = Math.max(r, g, b)] and [min = Math.min(r, g, b)]. *)
Definition saturationOf (color : ColorRGB) : F64.t :=
  let max := Num.max (Num.max (r color) (g color)) (b color) in
  let min := Num.min (Num.min (r color) (g color)) (b color) in
  if Num.eqb max 0 then F64.zero
  else (F64.ofNum (max - min) / F64.ofNum max)%f64.

(** The body of the [colors.forEach] callback, acting on the pair
    [(totalSaturation, totalBrightness)]. *)
Definition moodStep (totals : F64.t * F64.t) (color : ColorRGB)
    : F64.t * F64.t :=
  let brightness := calculateBrightness color in
  let saturation := saturationOf color in
  ((fst totals + saturation)%f64, (snd totals + brightness)%f64).

Definition analyzeColorMood (colors : list ColorRGB) : string :=
  if len colors =? 0 then "neutral"
  else
    let totals := fold_left moodStep colors (F64.zero, F64.zero) in
    let avgSaturation := (fst totals / F64.ofZ (len colors))%f64 in
    let avgBrightness := (snd totals / F64.ofZ (len colors))%f64 in
    if F64.gtb avgBrightness (F64.lit 180) && F64.gtb avgSaturation (F64.lit 0.5)
    then "energetic"
    else if F64.ltb avgBrightness (F64.lit 80)
            && F64.ltb avgSaturation (F64.lit 0.3)
    then "calm"
    else if F64.gtb avgSaturation (F64.lit 0.7) then "vibrant"
    else if F64.gtb avgBrightness (F64.lit 150) then "bright"
    else if F64.ltb avgBrightness (F64.lit 100) then "dark"
    else "balanced".

(** *** [calculateHarmony] *)

(** [colors[i]]; the loops below never index out of range. *)
Definition at_ (colors : list ColorRGB) (i : nat) : ColorRGB :=
  nth i colors (mkRGB 0 0 0).

(** [1 - Math.abs(diff - idealDiff) / idealDiff] with [idealDiff = 150]. *)
Definition pairScore (color1 color2 : ColorRGB) : F64.t :=
  let diff := calculateColorDifference color1 color2 in
  let idealDiff : Num.t := 150 in
  (F64.one - F64.ofNum (Num.abs (diff - idealDiff)) / F64.ofNum idealDiff)%f64.

(** The body of the inner loop, acting on [(harmonyScore, comparisons)]. *)
Definition harmonyStep (colors : list ColorRGB) (i : nat)
    (acc : F64.t * Z) (j : nat) : F64.t * Z :=
  let score := pairScore (at_ colors i) (at_ colors j) in
  ((fst acc + F64.max F64.zero score)%f64, snd acc + 1).

(** [for (let j = i + 1; j < colors.length; j++)] *)
Definition harmonyInner (colors : list ColorRGB) (acc : F64.t * Z) (i : nat)
    : F64.t * Z :=
  fold_left (harmonyStep colors i)
            (seq (i + 1) (List.length colors - (i + 1))) acc.

(** [for (let i = 0; i < colors.length; i++)] *)
Definition harmonyOuter (colors : list ColorRGB) : F64.t * Z :=
  fold_left (harmonyInner colors) (seq 0 (List.length colors)) (F64.zero, 0).

Definition calculateHarmony (colors : list ColorRGB) : F64.t :=
  if len colors <? 2 then F64.one
  else
    let '(harmonyScore, comparisons) := harmonyOuter colors in
    if comparisons >? 0 then (harmonyScore / F64.ofZ comparisons)%f64
    else F64.one.

(** *** [generateWaveCSS], [getFallbackColors], [getTransitionTiming] *)

(** [colors.join(", ")] *)
Definition join (colors : list string) : string := String.concat ", " colors.

Definition generateWaveCSS
    (colors : list string) (direction waveType : string) : string :=
  let colors :=
    if len colors <? 2
    then slice (colors ++ ["#6B46C1"; "#EC4899"]) 0 2
    else colors in
  if String.eqb waveType "radial" then
    ("radial-gradient(circle, " ++ join colors ++ ")")%string
  else if String.eqb waveType "conic" then
    ("conic-gradient(" ++ join colors ++ ")")%string
  else
    ("linear-gradient(" ++ direction ++ ", " ++ join colors ++ ")")%string.

Definition getFallbackColors (intensity : string) : list string :=
  if String.eqb intensity "gentle" then ["#E8E3F3"; "#F3E8FF"]
  else if String.eqb intensity "energetic" then ["#FF6B6B"; "#4ECDC4"]
  else ["#6B46C1"; "#EC4899"].

Definition getTransitionTiming (flowSpeed : string) : string :=
  if String.eqb flowSpeed "slow" then "all 3s cubic-bezier(0.4, 0, 0.2, 1)"
  else if String.eqb flowSpeed "fast" then "all 0.8s cubic-bezier(0.4, 0, 0.2, 1)"
  else "all 1.5s cubic-bezier(0.4, 0, 0.2, 1)".

End Utils.
(** ** [src/core/color-extractor.ts] *)

Module ColorExtractor.
Import JS Utils.

(** The fields of a [ColorExtractor]; [canvas] and [ctx] tell whether
    the field holds an object ([true]) or [null] ([false]). *)
Record t : Type := mk {
  canvas : bool;
  ctx : bool;
  options : ExtractorOptions.t Required
}.

Definition defaults : ExtractorOptions.t Required :=
  ExtractorOptions.mk (F := Required) 150 32 25 8.

(** [new ColorExtractor(options)] *)
Definition new (env : Env.t) (opts : ExtractorOptions.t Partial)
    (w : DOM.World) : t * DOM.World :=
  let options := ExtractorOptions.spread defaults opts in
  if Env.isBrowser env then
    let ctx := Env.context2d env in
    let w := if negb ctx
             then DOM.warn "Sóng: Canvas 2D context not supported" w
             else w in
    (mk true ctx options, w)
  else
    (mk false false options, w).

(** *** [buildColorFrequencyMap] *)

(** [pixels[i]] for an index that is not negative: [undefined] ([None])
    past the end of the array. *)
Definition read (pixels : list Z) (i : Z) : option Z :=
  nth_error pixels (Z.to_nat i).

(** [Math.floor(v / precision) * precision]: [NaN] for an undefined [v]
    and for a precision of zero. *)
Definition group (v : option Z) (precision : Z) : Num.t :=
  match v with
  | Some v =>
      if precision =? 0 then Num.NaN
      else Num.Int (v / precision * precision)
  | None => Num.NaN
  end.

(** [String(n)] for an integer below 10^21 in size, or [NaN]. *)
Definition showNum (n : Num.t) : string :=
  match n with
  | Num.Int z => NilZero.string_of_int (Z.to_int z)
  | Num.NaN => "NaN"
  end.

(** [`${rGroup},${gGroup},${bGroup}`] *)
Definition colorKeyOf (rGroup gGroup bGroup : Num.t) : string :=
  (showNum rGroup ++ "," ++ showNum gGroup ++ "," ++ showNum bGroup)%string.

(** [alpha < 100], which is false for an undefined [alpha]. *)
Definition transparent (alpha : option Z) : bool :=
  match alpha with
  | Some a => a <? 100
  | None => false
  end.

(** The body of the sampling loop at index [i]. *)
Definition sample (pixels : list Z) (precision : Z) (i : Z)
    (colorMap : list (string * Z)) : list (string * Z) :=
  let r := read pixels i in
  let g := read pixels (i + 1) in
  let b := read pixels (i + 2) in
  let alpha := read pixels (i + 3) in
  if transparent alpha then colorMap
  else
    let rGroup := group r precision in
    let gGroup := group g precision in
    let bGroup := group b precision in
    let colorKey := colorKeyOf rGroup gGroup bGroup in
    assocSet colorKey (orElse (assocGet colorKey colorMap) 0 + 1) colorMap.

(** [for (let i = ...; i < pixels.length; i += sampleRate)], entered with
    [i] not negative.  With a sample rate of zero or less the index never
    gets past the end and the loop does not stop: there is no result
    ([None]). *)
Equations? sampleLoop (pixels : list Z) (sampleRate precision : Z) (i : Z)
    (colorMap : list (string * Z)) : option (list (string * Z))
    by wf (Z.to_nat (len pixels - i)) lt :=
  sampleLoop pixels sampleRate precision i colorMap
    with Z_lt_dec i (len pixels) := {
    | right _ => Some colorMap
    | left _ with Z_lt_dec 0 sampleRate := {
        | left _ =>
            sampleLoop pixels sampleRate precision (i + sampleRate)
              (sample pixels precision i colorMap)
        | right _ => None } }.
Proof. lia. Qed.

Definition buildColorFrequencyMap (this : t) (pixels : list Z)
    : option (list (string * Z)) :=
  sampleLoop pixels
    (ExtractorOptions.sampleRate (options this))
    (ExtractorOptions.precision (options this))
    0 [].

(** *** [getDominantColors] *)

(** One step of a stable sort by decreasing frequency: [entry], which
    comes before all of [sorted] in the input, goes in front of the first
    entry that is not more frequent than it. *)
Fixpoint insertByFrequency (entry : string * Z) (sorted : list (string * Z))
    : list (string * Z) :=
  match sorted with
  | [] => [entry]
  | first :: rest =>
      if snd first >? snd entry
      then first :: insertByFrequency entry rest
      else entry :: first :: rest
  end.

(** [entries.sort(([, frequencyA], [, frequencyB]) => frequencyB - frequencyA)],
    the sort being stable. *)
Definition sortByFrequency (entries : list (string * Z)) : list (string * Z) :=
  fold_right insertByFrequency [] entries.

(** [s.split(",")] *)
Fixpoint splitComma (s : string) : list string :=
  match s with
  | EmptyString => [""]
  | String c rest =>
      if Ascii.eqb c "," then "" :: splitComma rest
      else
        match splitComma rest with
        | piece :: pieces => String c piece :: pieces
        | [] => [String c ""]
        end
  end.

(** [Number(s)] on the pieces of a key that [colorKeyOf] wrote: a decimal
    integer or [NaN]. *)
Definition toNumber (s : string) : Num.t :=
  match NilZero.int_of_string s with
  | Some d => Num.Int (Z.of_int d)
  | None => Num.NaN
  end.

(** [const [r, g, b] = colorKey.split(",").map(Number); return { r, g, b }];
    a key of fewer than three pieces, which [colorKeyOf] never writes,
    would leave a channel [undefined], which every use turns into
    [NaN]. *)
Definition colorOfKey (colorKey : string) : ColorRGB :=
  match map toNumber (splitComma colorKey) with
  | r :: g :: b :: _ => mkRGB r g b
  | [r; g] => mkRGB r g Num.NaN
  | [r] => mkRGB r Num.NaN Num.NaN
  | [] => mkRGB Num.NaN Num.NaN Num.NaN
  end.

Definition getDominantColors (this : t) (colorMap : list (string * Z))
    : list ColorRGB :=
  map (fun entry => colorOfKey (fst entry))
      (slice (sortByFrequency colorMap) 0
             (ExtractorOptions.maxColors (options this))).

(** *** [filterColors] *)

Definition purple : ColorRGB := mkRGB 107 70 193.  (* #6B46C1 *)
Definition pink : ColorRGB := mkRGB 236 72 153.    (* #EC4899 *)

(** The [for (const color of colors)] loop of [filterColors]; [filtered]
    is the array under construction.  The first branch is the
    [continue], the return of [filtered'] without recursion is the
    [break]. *)
Fixpoint filterLoop
    (colors : list ColorRGB) (targetCount : Z) (filtered : list ColorRGB)
    : list ColorRGB :=
  match colors with
  | [] => filtered
  | color :: rest =>
      let brightness := calculateBrightness color in
      if F64.ltb brightness (F64.lit 40) || F64.gtb brightness (F64.lit 200)
      then filterLoop rest targetCount filtered
      else
        let filtered' :=
          if isColorUnique color filtered 80 then push filtered color
          else filtered in
        if len filtered' >=? targetCount then filtered'
        else filterLoop rest targetCount filtered'
  end.

(** The colour pushed by one round of the padding loop. *)
Definition padColor (filtered : list ColorRGB) : ColorRGB :=
  if len filtered =? 0 then purple else pink.

(** The [while (filtered.length < targetCount)] loop of [filterColors]. *)
Equations? padLoop (filtered : list ColorRGB) (targetCount : Z)
    : list ColorRGB
    by wf (Z.to_nat (targetCount - len filtered)) lt :=
  padLoop filtered targetCount with Z_lt_dec (len filtered) targetCount := {
    | left _ => padLoop (push filtered (padColor filtered)) targetCount
    | right _ => filtered }.
Proof.
  unfold push, len in *. rewrite length_app. simpl. lia.
Qed.

Definition filterColors (colors : list ColorRGB) (targetCount : Z)
    : list ColorRGB :=
  let filtered := filterLoop colors targetCount [] in
  let filtered := padLoop filtered targetCount in
  slice filtered 0 targetCount.

(** *** [extractColors] *)

(** [processImage] inside [extractColors]: the canvas is sized and drawn
    on, its pixels are read, sampled and counted, and the most frequent
    colours filtered.  The [catch] of [processImage] turns what the
    canvas throws into a rejection; a sampling loop that never ends
    leaves the promise unsettled. *)
Definition processImage (env : Env.t) (this : t)
    (imageSource : ImageSource) (count : Z) : Outcome (list ColorRGB) :=
  if negb (canvas this) || negb (ctx this) then
    Throw (ErrorObj "Canvas not available")
  else
    match Env.getImageData env imageSource
            (ExtractorOptions.canvasSize (options this)) with
    | CanvasThrows error => Throw error
    | ImageData pixels =>
        match buildColorFrequencyMap this pixels with
        | None => Diverges
        | Some colorMap =>
            let dominantColors := getDominantColors this colorMap in
            Ok (filterColors dominantColors count)
        end
    end.

Definition extractColors (env : Env.t) (this : t)
    (imageSource : ImageSource) (count : Z) (w : DOM.World)
    : Outcome (list ColorRGB) * DOM.World :=
  let w := DOM.recordExtraction imageSource w in
  if negb (Env.isBrowser env) || negb (canvas this) || negb (ctx this) then
    (Throw (ErrorObj
       "Sóng: ColorExtractor requires browser environment with Canvas support"),
     w)
  else
    match imageSource with
    | ImageUrl url =>
        if Env.imageLoads env url
        then (processImage env this imageSource count, w)
        else (Throw (ErrorObj ("Failed to load image: " ++ url)%string), w)
    | ImageElement _ => (processImage env this imageSource count, w)
    end.

Definition getOptions (this : t) : ExtractorOptions.t Required := options this.

Definition updateOptions (this : t) (newOptions : ExtractorOptions.t Partial)
    : t :=
  mk (canvas this) (ctx this) (ExtractorOptions.spread (options this) newOptions).

(** [destroy()]; removing the hidden canvas from the document leaves no
    trace in the modelled world. *)
Definition destroy (this : t) : t :=
  if canvas this then mk false false (options this) else this.

End ColorExtractor.

(** ** [src/core/wave-extractor.ts] *)

Module WaveGenerator.
Import JS Utils.

(** A [WaveGenerator] has the single field [config]. *)
Definition t : Type := WaveConfig.t Required.

Definition defaults : WaveConfig.t Required :=
  WaveConfig.mk (F := Required)
    "to bottom right" "all 1.5s ease-out" ["#6B46C1"; "#EC4899"] 2
    "medium" "medium" "linear".

(** [new WaveGenerator(config)] *)
Definition new (config : WaveConfig.t Partial) : t :=
  let this := WaveConfig.spread defaults config in
  let this :=
    if negb (truthy (WaveConfig.transition config))
    then WaveConfig.with_transition this
           (getTransitionTiming (WaveConfig.flowSpeed this))
    else this in
  let this :=
    if absent (WaveConfig.fallbackColors config)
    then WaveConfig.with_fallbackColors this
           (getFallbackColors (WaveConfig.intensity this))
    else this in
  this.

Definition getConfig (this : t) : WaveConfig.t Required := this.

(** [updateConfig(newConfig)] *)
Definition updateConfig (this : t) (newConfig : WaveConfig.t Partial) : t :=
  let this := WaveConfig.spread this newConfig in
  let this :=
    if truthy (WaveConfig.flowSpeed newConfig)
       && negb (truthy (WaveConfig.transition newConfig))
    then WaveConfig.with_transition this
           (getTransitionTiming (orElse (WaveConfig.flowSpeed newConfig) "medium"))
    else this in
  let this :=
    if truthy (WaveConfig.intensity newConfig)
       && absent (WaveConfig.fallbackColors newConfig)
    then WaveConfig.with_fallbackColors this
           (getFallbackColors (orElse (WaveConfig.intensity newConfig) "medium"))
    else this in
  this.

(** The loop
    [while (result.length < colorCount && fallbacks.length > 0)
       result.push(fallbacks.shift())]. *)
Fixpoint fillLoop (result fallbacks : list string) (colorCount : Z)
    : list string :=
  match fallbacks with
  | [] => result
  | first :: rest =>
      if len result <? colorCount
      then fillLoop (push result first) rest colorCount
      else result
  end.

Definition ensureMinimumColors (this : t) (colors : list string) : list string :=
  let colorCount := WaveConfig.colorCount this in
  if len colors >=? colorCount then slice colors 0 colorCount
  else
    let result := fillLoop colors (WaveConfig.fallbackColors this) colorCount in
    slice result 0 colorCount.

Definition generateCSS (this : t) (colors : list string) : string :=
  let waveColors := ensureMinimumColors this colors in
  generateWaveCSS waveColors (WaveConfig.direction this) (WaveConfig.waveType this).

Definition addWaveEffects (this : t) (element : DOM.Element) (w : DOM.World)
    : DOM.World :=
  let w :=
    if String.eqb (WaveConfig.intensity this) "gentle"
    then DOM.restyle element (DOM.Style.set_opacity "0.8") w
    else if String.eqb (WaveConfig.intensity this) "energetic"
    then DOM.restyle element (DOM.Style.set_filter "saturate(1.2)") w
    else w in
  if String.eqb (WaveConfig.waveType this) "radial"
  then DOM.restyle element (DOM.Style.set_backgroundSize "150% 150%") w
  else w.

Definition applyToElement (env : Env.t) (this : t)
    (element : DOM.Element) (colors : list string) (w : DOM.World)
    : DOM.World :=
  if negb (Env.isBrowser env) then
    DOM.warn "Sóng: Cannot apply waves in non-browser environment" w
  else
    let gradient := generateCSS this colors in
    let w := DOM.restyle element (DOM.Style.set_background gradient) w in
    let w := DOM.restyle element
               (DOM.Style.set_transition (WaveConfig.transition this)) w in
    addWaveEffects this element w.

Definition applyToElements (env : Env.t) (this : t)
    (elements : list DOM.Element) (colors : list string) (w : DOM.World)
    : DOM.World :=
  if negb (Env.isBrowser env) then
    DOM.warn "Sóng: Cannot apply waves in non-browser environment" w
  else
    fold_left (fun w element => applyToElement env this element colors w)
              elements w.

(** The colour entries added by [waveColors.forEach((color, index) => ...)];
    [index] is the position of the head of [waveColors]. *)
Fixpoint colorVariables (prefix : string) (waveColors : list string)
    (index : nat) (variables : list (string * string))
    : list (string * string) :=
  match waveColors with
  | [] => variables
  | color :: rest =>
      colorVariables prefix rest (index + 1)
        (assocSet ("--" ++ prefix ++ "-color-" ++ numToString (index + 1))%string
                  color variables)
  end.

Definition generateCSSVariables (this : t) (colors : list string)
    (prefix : string) : list (string * string) :=
  let waveColors := ensureMinimumColors this colors in
  let css := generateCSS this waveColors in
  let variables :=
    assocSet ("--" ++ prefix ++ "-type")%string (WaveConfig.waveType this)
      (assocSet ("--" ++ prefix ++ "-direction")%string (WaveConfig.direction this)
        (assocSet ("--" ++ prefix ++ "-transition")%string (WaveConfig.transition this)
          (assocSet ("--" ++ prefix ++ "-css")%string css []))) in
  colorVariables prefix waveColors 0 variables.

Definition applyCSSVariables (env : Env.t) (this : t)
    (colors : list string) (prefix : string) (w : DOM.World) : DOM.World :=
  if negb (Env.isBrowser env) then w
  else
    let variables := generateCSSVariables this colors prefix in
    fold_left (fun w entry => DOM.setRootProperty (fst entry) (snd entry) w)
              variables w.

Definition newline : string := String (ascii_of_nat 10) "".

Definition createWaveAnimation (name : string) : string :=
  (newline
   ++ "      @keyframes " ++ name ++ " {" ++ newline
   ++ "        0% { background-position: 0% 50%; }" ++ newline
   ++ "        50% { background-position: 100% 50%; }" ++ newline
   ++ "        100% { background-position: 0% 50%; }" ++ newline
   ++ "      }" ++ newline
   ++ "    ")%string.

Definition enableWaveAnimation (env : Env.t) (this : t)
    (element : DOM.Element) (duration : string) (w : DOM.World) : DOM.World :=
  if negb (Env.isBrowser env) then w
  else
    let w :=
      match DOM.waveAnimationSheet w with
      | None => DOM.setWaveAnimationSheet (createWaveAnimation "songWave") w
      | Some _ => w
      end in
    let w := DOM.restyle element (DOM.Style.set_backgroundSize "200% 200%") w in
    DOM.restyle element
      (DOM.Style.set_animation
         ("songWave " ++ duration ++ " ease-in-out infinite")%string) w.

Definition disableWaveAnimation (env : Env.t) (this : t)
    (element : DOM.Element) (w : DOM.World) : DOM.World :=
  if negb (Env.isBrowser env) then w
  else
    let w := DOM.restyle element (DOM.Style.set_animation "") w in
    DOM.restyle element (DOM.Style.set_backgroundSize "") w.

End WaveGenerator.

(** ** [src/core/song.ts] *)

Module Song.
Import JS Utils.

(** The fields of a [Song], together with the world it acts on. *)
Record State : Type := mkState {
  extractor : ColorExtractor.t;
  generator : WaveGenerator.t;
  cache : list (string * list string);
  world : DOM.World
}.

Definition with_extractor (v : ColorExtractor.t) (st : State) : State :=
  mkState v (generator st) (cache st) (world st).
Definition with_generator (v : WaveGenerator.t) (st : State) : State :=
  mkState (extractor st) v (cache st) (world st).
Definition with_cache (v : list (string * list string)) (st : State) : State :=
  mkState (extractor st) (generator st) v (world st).
Definition with_world (v : DOM.World) (st : State) : State :=
  mkState (extractor st) (generator st) (cache st) v.

(** *** Methods as state transformers that may throw *)

Definition M (A : Type) : Type := State -> Outcome A * State.

Definition ret {A} (a : A) : M A := fun st => (Ok a, st).

Definition bind {A B} (m : M A) (k : A -> M B) : M B :=
  fun st =>
    match m st with
    | (Ok a, st') => k a st'
    | (Throw e, st') => (Throw e, st')
    | (Diverges, st') => (Diverges, st')
    end.

(** [try { body } catch (error) { handler }]: what [body] did to the
    state before it threw stays done; a [body] that never ends is not
    caught. *)
Definition tryCatch {A} (body : M A) (handler : Thrown -> M A) : M A :=
  fun st =>
    match body st with
    | (Ok a, st') => (Ok a, st')
    | (Throw e, st') => handler e st'
    | (Diverges, st') => (Diverges, st')
    end.

Definition get : M State := fun st => (Ok st, st).
Definition modify (f : State -> State) : M unit := fun st => (Ok tt, f st).
Definition when (c : bool) (m : M unit) : M unit := if c then m else ret tt.

Notation "x <- m ;; k" := (bind m (fun x => k))
  (at level 61, m at next level, right associativity).
Notation "m ;;; k" := (bind m (fun _ => k))
  (at level 61, right associativity).

(** [new Song(extractorOptions, waveConfig)] *)
Definition new (env : Env.t) (extractorOptions : ExtractorOptions.t Partial)
    (waveConfig : WaveConfig.t Partial) (w : DOM.World) : State :=
  let '(extractor, w) := ColorExtractor.new env extractorOptions w in
  mkState extractor (WaveGenerator.new waveConfig) [] w.

(** The colour a hex string stands for inside [buildWaveResult], with the
    fixed purple for a string the pattern rejects. *)
Definition parseHex (hex : string) : ColorRGB :=
  match hexRegexExec hex with
  | Some (g1, g2, g3) => mkRGB (parseInt16 g1) (parseInt16 g2) (parseInt16 g3)
  | None => mkRGB 107 70 193
  end.

(** The intensity label of [buildWaveResult]:
    [rgbColors.reduce((sum, color) => sum + (0.299 * color.r
       + 0.587 * color.g + 0.114 * color.b), 0) / rgbColors.length]
    against the two thresholds.  For an empty array the average is
    [0 / 0], which is [NaN], neither [> 180] nor [< 100]. *)
Definition detectIntensity (rgbColors : list ColorRGB) : string :=
  let avgBrightness :=
    (fold_left
       (fun sum color =>
          sum + (F64.lit 0.299 * F64.ofNum (r color)
                 + F64.lit 0.587 * F64.ofNum (g color)
                 + F64.lit 0.114 * F64.ofNum (b color)))
       rgbColors F64.zero
     / F64.ofZ (len rgbColors))%f64 in
  if F64.gtb avgBrightness (F64.lit 180) then "energetic"
  else if F64.ltb avgBrightness (F64.lit 100) then "gentle"
  else "medium".

Definition buildWaveResult (this : State) (colors : list string)
    (isFlowing : bool) (rgb : option (list ColorRGB)) (error : option string)
    : WaveResult.t :=
  let rgbColors :=
    match rgb with
    | Some rgb => rgb
    | None => map parseHex colors
    end in
  let mood := analyzeColorMood rgbColors in
  let harmony := calculateHarmony rgbColors in
  let css := WaveGenerator.generateCSS (generator this) colors in
  let detectedIntensity := detectIntensity rgbColors in
  WaveResult.mk colors css rgbColors detectedIntensity harmony mood
                isFlowing error.

Section Methods.
Variable env : Env.t.

(** [typeof imageSource === "string" ? imageSource : imageSource.src] *)
Definition cacheKeyOf (imageSource : ImageSource) : string :=
  match imageSource with
  | ImageUrl url => url
  | ImageElement src => src
  end.

(** [if (element) this.generator.applyToElement(element, colors)] *)
Definition applyIfGiven (element : option DOM.Element)
    (colors : list string) : M unit :=
  match element with
  | Some element =>
      modify (fun st =>
        with_world
          (WaveGenerator.applyToElement env (generator st) element colors
             (world st)) st)
  | None => ret tt
  end.

(** [await this.extractor.extractColors(imageSource, count)] *)
Definition extractColors (imageSource : ImageSource) (count : Z)
    : M (list ColorRGB) :=
  fun st =>
    let '(outcome, w) :=
      ColorExtractor.extractColors env (extractor st) imageSource count
        (world st) in
    (outcome, with_world w st).

(** [error instanceof Error ? error.message : "Unknown error"] *)
Definition messageOf (error : Thrown) : string :=
  match error with
  | ErrorObj message => message
  | NonError => "Unknown error"
  end.

Definition createWaves (imageSource : ImageSource)
    (element : option DOM.Element) : M WaveResult.t :=
  tryCatch
    (let cacheKey := cacheKeyOf imageSource in
     this <- get ;;
     match assocGet cacheKey (cache this) with
     | Some cachedColors =>
         let result := buildWaveResult this cachedColors true None None in
         applyIfGiven element cachedColors ;;;
         ret result
     | None =>
         rgbColors <- extractColors imageSource 2 ;;
         let hexColors := map rgbToHex rgbColors in
         modify (fun st => with_cache (assocSet cacheKey hexColors (cache st)) st) ;;;
         applyIfGiven element hexColors ;;;
         this <- get ;;
         ret (buildWaveResult this hexColors true (Some rgbColors) None)
     end)
    (fun error =>
       this <- get ;;
       let fallbackColors :=
         WaveConfig.fallbackColors (WaveGenerator.getConfig (generator this)) in
       applyIfGiven element fallbackColors ;;;
       this <- get ;;
       ret (buildWaveResult this fallbackColors false None
              (Some (messageOf error)))).

Definition flowToElements (imageSource : ImageSource)
    (elements : list DOM.Element) : M WaveResult.t :=
  result <- createWaves imageSource None ;;
  when (Env.isBrowser env)
    (modify (fun st =>
       with_world
         (WaveGenerator.applyToElements env (generator st) elements
            (WaveResult.colors result) (world st)) st)) ;;;
  ret result.

Definition generateWaveCSS (imageSource : ImageSource) (prefix : string)
    : M (list (string * string)) :=
  result <- createWaves imageSource None ;;
  this <- get ;;
  ret (WaveGenerator.generateCSSVariables (generator this)
         (WaveResult.colors result) prefix).

Definition applyGlobalWaves (imageSource : ImageSource) (prefix : string)
    : M WaveResult.t :=
  result <- createWaves imageSource None ;;
  when (Env.isBrowser env)
    (modify (fun st =>
       with_world
         (WaveGenerator.applyCSSVariables env (generator st)
            (WaveResult.colors result) prefix (world st)) st)) ;;;
  ret result.

Definition enableFlowAnimation (element : DOM.Element) (duration : string)
    : M unit :=
  when (Env.isBrowser env)
    (modify (fun st =>
       with_world
         (WaveGenerator.enableWaveAnimation env (generator st) element
            duration (world st)) st)).

Definition disableFlowAnimation (element : DOM.Element) : M unit :=
  when (Env.isBrowser env)
    (modify (fun st =>
       with_world
         (WaveGenerator.disableWaveAnimation env (generator st) element
            (world st)) st)).

Definition clearCache : M unit := modify (with_cache []).

Definition updateExtractorOptions (options : ExtractorOptions.t Partial)
    : M unit :=
  modify (fun st =>
    with_extractor (ColorExtractor.updateOptions (extractor st) options) st) ;;;
  clearCache.

Definition updateWaveConfig (config : WaveConfig.t Partial) : M unit :=
  modify (fun st =>
    with_generator (WaveGenerator.updateConfig (generator st) config) st).

Definition getExtractorOptions : M (ExtractorOptions.t Required) :=
  this <- get ;; ret (ColorExtractor.getOptions (extractor this)).

Definition getWaveConfig : M (WaveConfig.t Required) :=
  this <- get ;; ret (WaveGenerator.getConfig (generator this)).

Definition getCacheStats : M (Z * list string) :=
  this <- get ;; ret (len (cache this), assocKeys (cache this)).

Definition preloadColors (imageSource : ImageSource) : M (list string) :=
  result <- createWaves imageSource None ;;
  ret (WaveResult.colors result).

Definition destroy : M unit :=
  modify (fun st =>
    with_extractor (ColorExtractor.destroy (extractor st)) st) ;;;
  clearCache.

(** *** The public interface as a transition system *)

(** One call of a public method of [Song], with its arguments; a call
    of an asynchronous method is taken together with the settling of
    its promise. *)
Inductive Call : Type :=
| CreateWaves (imageSource : ImageSource) (element : option DOM.Element)
| FlowToElements (imageSource : ImageSource) (elements : list DOM.Element)
| GenerateWaveCSS (imageSource : ImageSource) (prefix : string)
| ApplyGlobalWaves (imageSource : ImageSource) (prefix : string)
| EnableFlowAnimation (element : DOM.Element) (duration : string)
| DisableFlowAnimation (element : DOM.Element)
| UpdateExtractorOptions (options : ExtractorOptions.t Partial)
| UpdateWaveConfig (config : WaveConfig.t Partial)
| GetExtractorOptions
| GetWaveConfig
| ClearCache
| GetCacheStats
| PreloadColors (imageSource : ImageSource)
| Destroy.

(** The state a call leaves behind; for a call that never ends, the
    state it had reached. *)
Definition step (call : Call) (st : State) : State :=
  match call with
  | CreateWaves imageSource element => snd (createWaves imageSource element st)
  | FlowToElements imageSource elements => snd (flowToElements imageSource elements st)
  | GenerateWaveCSS imageSource prefix => snd (generateWaveCSS imageSource prefix st)
  | ApplyGlobalWaves imageSource prefix => snd (applyGlobalWaves imageSource prefix st)
  | EnableFlowAnimation element duration => snd (enableFlowAnimation element duration st)
  | DisableFlowAnimation element => snd (disableFlowAnimation element st)
  | UpdateExtractorOptions options => snd (updateExtractorOptions options st)
  | UpdateWaveConfig config => snd (updateWaveConfig config st)
  | GetExtractorOptions => snd (getExtractorOptions st)
  | GetWaveConfig => snd (getWaveConfig st)
  | ClearCache => snd (clearCache st)
  | GetCacheStats => snd (getCacheStats st)
  | PreloadColors imageSource => snd (preloadColors imageSource st)
  | Destroy => snd (destroy st)
  end.

(** The calls that empty the cache. *)
Definition clearsCache (call : Call) : bool :=
  match call with
  | ClearCache | Destroy | UpdateExtractorOptions _ => true
  | _ => false
  end.

(** The states a [Song] can be in: freshly constructed, or after any
    sequence of calls. *)
Inductive reachable : State -> Prop :=
| reachable_new extractorOptions waveConfig w :
    reachable (new env extractorOptions waveConfig w)
| reachable_step call st :
    reachable st -> reachable (step call st).

End Methods.

End Song.

(** * Vocabulary of the properties *)

Module Spec.
Import JS Utils ColorExtractor.

(** The padding that [padLoop] appends to [filtered]: nothing when the
    target is met, pink only behind accepted colours, and purple followed
    by pink when no colour was accepted. *)
Definition padding (filtered : list ColorRGB) (targetCount : Z)
    : list ColorRGB :=
  if len filtered <? targetCount then
    match filtered with
    | [] => purple :: repeat pink (Z.to_nat (targetCount - 1))
    | _ :: _ => repeat pink (Z.to_nat (targetCount - len filtered))
    end
  else [].

(** A colour whose three channels are numbers, none of them [NaN]. *)
Definition numeric (color : ColorRGB) : Prop :=
  exists r g b : Z, color = mkRGB r g b.

(** The three channels of such a colour. *)
Definition channels (color : ColorRGB) : option (Z * Z * Z) :=
  match color with
  | mkRGB (Num.Int r) (Num.Int g) (Num.Int b) => Some (r, g, b)
  | _ => None
  end.

(** The Manhattan distance in RGB space,
    [|r1 - r2| + |g1 - g2| + |b1 - b2|]. *)
Definition manhattan (p q : Z * Z * Z) : Z :=
  let '(r1, g1, b1) := p in
  let '(r2, g2, b2) := q in
  Z.abs (r1 - r2) + Z.abs (g1 - g2) + Z.abs (b1 - b2).


(** A hexadecimal digit: [0-9], [a-f] or [A-F]. *)
Definition isHexDigit (c : ascii) : Prop :=
  48 <= code c <= 57 \/ 97 <= code c <= 102 \/ 65 <= code c <= 70.

(** A colour written as six hexadecimal digits, with or without a
    leading [#]. *)
Definition isHexColor (s : string) : Prop :=
  exists digits : string,
    (s = digits \/ s = String "#" digits)
    /\ String.length digits = 6%nat
    /\ Forall isHexDigit (list_ascii_of_string digits).

(** Every channel value from 0 to 255 is written as two characters of the
    class the pattern accepts, and read back as itself. *)
Definition roundTrips (n : Z) : bool :=
  match toHex n with
  | String c1 (String c2 EmptyString) =>
      isHexClass c1 && isHexClass c2 && negb (Ascii.eqb c1 "#")
      && (parseInt16 (String c1 (String c2 "")) =? n)
  | _ => false
  end.

(** All unordered pairs of entries of a list, each taken once, in the
    order of the first and then of the second entry. *)
Fixpoint allPairs {A} (l : list A) : list (A * A) :=
  match l with
  | [] => []
  | x :: rest => map (pair x) rest ++ allPairs rest
  end.

(** [max(0, 1 - |distance - 150| / 150)] for a distance [d], in
    doubles. *)
Definition harmonyAt (d : Z) : F64.t :=
  F64.max F64.zero (F64.one - F64.ofZ (Z.abs (d - 150)) / F64.ofZ 150)%f64.

(** The harmony of a pair of colours at their Manhattan distance; there
    is none for a colour with a channel that is [NaN]. *)
Definition pairHarmony (pair : ColorRGB * ColorRGB) : F64.t :=
  match channels (fst pair), channels (snd pair) with
  | Some p, Some q => harmonyAt (manhattan p q)
  | _, _ => F64.NaN
  end.


(** The sum of a list of doubles, added up from the left, and their
    average. *)
Definition sum (l : list F64.t) : F64.t := fold_left F64.add l F64.zero.

Definition average (l : list F64.t) : F64.t := (sum l / F64.ofZ (len l))%f64.


(** One round of the inner harmony loop with the colour at [i] fixed to
    [x], on [(harmonyScore, comparisons)]. *)
Definition against (x : ColorRGB) (acc : F64.t * Z) (c : ColorRGB)
    : F64.t * Z :=
  ((fst acc + pairHarmony (x, c))%f64, snd acc + 1).

(** The luminance [0.299 r + 0.587 g + 0.114 b] of a colour, in
    doubles. *)
Definition luminance (color : ColorRGB) : F64.t :=
  match channels color with
  | Some (r, g, b) =>
      (F64.lit 0.299 * F64.ofZ r + F64.lit 0.587 * F64.ofZ g
       + F64.lit 0.114 * F64.ofZ b)%f64
  | None => F64.NaN
  end.

(** The approximate saturation [(max - min) / max] of a colour, taken as
    0 where [max] is 0. *)
Definition saturation (color : ColorRGB) : F64.t :=
  match channels color with
  | Some (r, g, b) =>
      let hi := Z.max (Z.max r g) b in
      let lo := Z.min (Z.min r g) b in
      if hi =? 0 then F64.zero else (F64.ofZ (hi - lo) / F64.ofZ hi)%f64
  | None => F64.NaN
  end.

(** The threshold table of the mood classification, read top to bottom:
    brightness > 180 and saturation > 0.5 is energetic; brightness < 80 and
    saturation < 0.3 is calm; saturation > 0.7 is vibrant; brightness > 150
    is bright; brightness < 100 is dark; anything else is balanced. *)
Definition moodTable (brightness saturation : F64.t) : string :=
  if F64.gtb brightness (F64.lit 180) && F64.gtb saturation (F64.lit 0.5)
  then "energetic"
  else if F64.ltb brightness (F64.lit 80) && F64.ltb saturation (F64.lit 0.3)
  then "calm"
  else if F64.gtb saturation (F64.lit 0.7) then "vibrant"
  else if F64.gtb brightness (F64.lit 150) then "bright"
  else if F64.ltb brightness (F64.lit 100) then "dark"
  else "balanced".

(** The state after [if (element) applyToElement(element, colors)]. *)
Definition styled (env : Env.t) (element : option DOM.Element)
    (colors : list string) (st : Song.State) : Song.State :=
  match element with
  | Some element =>
      Song.with_world
        (WaveGenerator.applyToElement env (Song.generator st) element colors
           (Song.world st)) st
  | None => st
  end.

End Spec.

(** * Sample environments *)

Module Sample.

(** The pixels of a cover image: a grey pixel at index 0, a red one at
    index 32, transparent black between them. *)
Definition cover : list Z :=
  [100; 100; 100; 255] ++ repeat 0 28 ++ [200; 50; 50; 255].

(** An image that is white all over, at the size of the canvas. *)
Definition whiteImage (canvasSize : Z) : list Z :=
  repeat 255 (Z.to_nat (4 * canvasSize * canvasSize)).

(** A browser with a working canvas in which no image loads. *)
Definition offline : Env.t :=
  Env.mk true true (fun _ => false) (fun _ _ => ImageData []).

(** A browser with a working canvas in which every image loads and shows
    the cover. *)
Definition online : Env.t :=
  Env.mk true true (fun _ => true) (fun _ _ => ImageData cover).

(** No [window], no [document]. *)
Definition headless : Env.t :=
  Env.mk false false (fun _ => false) (fun _ _ => ImageData []).


(** A browser in which every image loads and is white. *)
Definition white : Env.t :=
  Env.mk true true (fun _ => true)
         (fun _ canvasSize => ImageData (whiteImage canvasSize)).

Definition fresh (env : Env.t) : Song.State :=
  Song.new env ExtractorOptions.empty WaveConfig.empty DOM.initial.


End Sample.

(** * Further vocabulary *)

Module More.
Import JS Utils ColorExtractor.

(** [Math.max(0, Math.min(255, n))] *)
Definition clamp255 (n : Z) : Z := Z.max 0 (Z.min 255 n).

(** A colour of three 8-bit channels. *)
Definition eightBit (color : ColorRGB) : Prop :=
  exists r g b : Z,
    color = mkRGB r g b
    /\ 0 <= r <= 255 /\ 0 <= g <= 255 /\ 0 <= b <= 255.

(** A colour with a channel that is [NaN]. *)
Definition hasNaN (color : ColorRGB) : Prop :=
  r color = Num.NaN \/ g color = Num.NaN \/ b color = Num.NaN.

(** The exact luminance of a colour, times 1000. *)
Definition luminance1000 (r g b : Z) : Z := 299 * r + 587 * g + 114 * b.

End More.

Module MoreFilter.
Import JS Utils ColorExtractor.

(** [xs] is [ys] with some entries left out, the others in their order. *)
Inductive Subseq {A : Type} : list A -> list A -> Prop :=
| Subseq_nil : Subseq [] []
| Subseq_skip x xs ys : Subseq xs ys -> Subseq xs (x :: ys)
| Subseq_take x xs ys : Subseq xs ys -> Subseq (x :: xs) (x :: ys).

(** The brightness test of the filter lets the colour through. *)
Definition passesBand (color : ColorRGB) : bool :=
  negb (F64.ltb (calculateBrightness color) (F64.lit 40)
        || F64.gtb (calculateBrightness color) (F64.lit 200)).

(** The scan takes every colour of [l], in turn, into an array that
    holds [pre]: each passes the brightness test and is unique against
    what the array holds by then. *)
Fixpoint taken (pre l : list ColorRGB) : bool :=
  match l with
  | [] => true
  | color :: rest =>
      passesBand color && isColorUnique color pre 80
      && taken (push pre color) rest
  end.

(** Neither too dark nor too light: an exact luminance between 40 and
    200. *)
Definition inBand (color : ColorRGB) : Prop :=
  exists r g b : Z,
    color = mkRGB r g b
    /\ 40000 <= More.luminance1000 r g b <= 200000.

End MoreFilter.

Module MoreMood.
Import JS Utils.

(** The thresholds of the intensity label in [buildWaveResult]. *)
Definition intensityTable (brightness : F64.t) : string :=
  if F64.gtb brightness (F64.lit 180) then "energetic"
  else if F64.ltb brightness (F64.lit 100) then "gentle"
  else "medium".

Definition moodLabels : list string :=
  ["energetic"; "calm"; "vibrant"; "bright"; "dark"; "balanced"; "neutral"].

Definition intensityLabels : list string := ["energetic"; "gentle"; "medium"].

End MoreMood.

Module MoreVariables.
Import JS Utils.

(** The name of the custom property for the [index]-th colour, counted
    from zero: [`--${prefix}-color-${index + 1}`]. *)
Definition colorKey (prefix : string) (index : nat) : string :=
  ("--" ++ prefix ++ "-color-" ++ numToString (index + 1))%string.

(** The colour entries for [waveColors], the first of which has position
    [index]. *)
Fixpoint colorEntries (prefix : string) (waveColors : list string)
    (index : nat) : list (string * string) :=
  match waveColors with
  | [] => []
  | color :: rest =>
      (colorKey prefix index, color) :: colorEntries prefix rest (index + 1)
  end.

End MoreVariables.

Module MoreWorld.

(** Two worlds with the same element styles, the same custom properties
    on the document root and the same keyframes sheet. *)
Definition sameDOM (w w' : DOM.World) : Prop :=
  DOM.styles w' = DOM.styles w
  /\ DOM.rootProperties w' = DOM.rootProperties w
  /\ DOM.waveAnimationSheet w' = DOM.waveAnimationSheet w.

End MoreWorld.

(** ** The library entry point [createWave] *)

Module Index.
Import JS.

Module QuickWaveOptions.
Record t : Type := mk {
  direction : option string;
  transition : option string;
  intensity : option string      (* "gentle" | "medium" | "energetic" *)
}.
End QuickWaveOptions.






End Index.

Module MorePipeline.
Import JS ColorExtractor.

(** How many indices [i], [i + s], [i + 2s], ... lie below [n]. *)
Definition sampleCount (n s i : Z) : nat := Z.to_nat ((n - i + s - 1) / s).

(** The first [k] indices sampled from [i] on at rate [s]. *)
Definition positionsFrom (s i : Z) (k : nat) : list Z :=
  map (fun j => i + Z.of_nat j * s) (seq 0 k).

(** The indices at which an array of [n] entries is sampled at rate [s]:
    the multiples of [s] below [n]. *)
Definition positions (n s : Z) : list Z :=
  positionsFrom s 0 (sampleCount n s 0).

(** The sum of the frequencies of a map. *)
Definition total (colorMap : list (string * Z)) : Z :=
  fold_right Z.add 0 (map snd colorMap).

(** The sampled index [i] holds a pixel that is counted. *)
Definition counted (pixels : list Z) (i : Z) : bool :=
  negb (transparent (read pixels (i + 3))).

(** Every channel of the colour is a multiple of [precision] between 0
    and 255. *)
Definition quantized (precision : Z) (color : ColorRGB) : Prop :=
  exists r g b : Z,
    color = mkRGB r g b
    /\ (0 <= r <= 255 /\ r mod precision = 0)
    /\ (0 <= g <= 255 /\ g mod precision = 0)
    /\ (0 <= b <= 255 /\ b mod precision = 0).

(** The key of a colour. *)
Definition keyOfColor (color : ColorRGB) : string :=
  colorKeyOf (r color) (g color) (b color).

End MorePipeline.

Module MoreKeys.

(** The string holds no comma. *)
Fixpoint commaFree (s : string) : bool :=
  match s with
  | EmptyString => true
  | String c rest => negb (Ascii.eqb c ",") && commaFree rest
  end.

(** Entries in order of frequency, the most frequent first. *)
Definition byFrequency (a b : string * Z) : Prop := snd b <= snd a.

End MoreKeys.

(** * Properties *)

(** ** Doubles *)

Section Rounding.
Import F64.
Open Scope Q_scope.

Lemma two_neq_0 : ~ 2 == 0.
Proof. discriminate. Qed.

Lemma pow2_pos (k : Z) : 0 < pow2 k.
Proof. apply Qpower_0_lt. reflexivity. Qed.

Lemma pow2_add (a b : Z) : pow2 (a + b) == pow2 a * pow2 b.
Proof. apply Qpower_plus, two_neq_0. Qed.

Lemma pow2_sub (a b : Z) : pow2 (a - b) == pow2 a / pow2 b.
Proof. apply Qpower_minus, two_neq_0. Qed.

Lemma pow2_le (a b : Z) : (a <= b)%Z -> pow2 a <= pow2 b.
Proof. intros H. apply Qpower_le_compat_l; [exact H | discriminate]. Qed.

Lemma pow2_lt (a b : Z) : (a < b)%Z -> pow2 a < pow2 b.
Proof. intros H. apply Qpower_lt_compat_l; [exact H | reflexivity]. Qed.

Lemma pow2_lt_inv (a b : Z) : pow2 a < pow2 b -> (a < b)%Z.
Proof. intros H. apply (Qpower_lt_compat_l_inv 2); [exact H | reflexivity]. Qed.

Lemma pow2_Z (k : Z) : (0 <= k)%Z -> pow2 k == inject_Z (2 ^ k).
Proof. intros H. unfold pow2. now rewrite Zpower_Qpower. Qed.

Lemma pow2_frac (x y : Z) :
  (0 <= x)%Z -> (0 <= y)%Z ->
  pow2 (x - y) == inject_Z (2 ^ x) / inject_Z (2 ^ y).
Proof.
  intros Hx Hy. rewrite pow2_sub, (pow2_Z x Hx), (pow2_Z y Hy). reflexivity.
Qed.

Lemma inject_Z_pos (z : Z) : (0 < z)%Z -> 0 < inject_Z z.
Proof. intros H. change 0 with (inject_Z 0). now rewrite <- Zlt_Qlt. Qed.

(** [ilog2 q] is the exponent of the binade of a positive [q]. *)
Lemma ilog2_spec (q : Q) :
  0 < q -> pow2 (ilog2 q) <= q /\ q < pow2 (ilog2 q + 1).
Proof.
  intros Hq. destruct q as [n d].
  assert (Hn : (0 < n)%Z) by (unfold Qlt in Hq; cbn in Hq; lia).
  unfold ilog2. cbn [Qnum Qden].
  set (a := Z.log2 n). set (b := Z.log2 (Z.pos d)).
  destruct (Z.log2_spec n Hn) as [Ha1 Ha2]. fold a in Ha1, Ha2.
  destruct (Z.log2_spec (Z.pos d) ltac:(lia)) as [Hb1 Hb2]. fold b in Hb1, Hb2.
  assert (Ha0 : (0 <= a)%Z) by apply Z.log2_nonneg.
  assert (Hb0 : (0 <= b)%Z) by apply Z.log2_nonneg.
  assert (HA : (0 < 2 ^ a)%Z) by (apply Z.pow_pos_nonneg; lia).
  assert (HB : (0 < 2 ^ b)%Z) by (apply Z.pow_pos_nonneg; lia).
  assert (Hup : n # d < pow2 (a - b + 1)).
  { replace (a - b + 1)%Z with (Z.succ a - b)%Z by lia.
    rewrite pow2_frac by lia.
    apply Qlt_shift_div_l; [now apply inject_Z_pos |].
    unfold Qlt, Qmult, inject_Z. cbn [Qnum Qden]. nia. }
  assert (Hlow : pow2 (a - b - 1) <= n # d).
  { replace (a - b - 1)%Z with (a - Z.succ b)%Z by lia.
    rewrite pow2_frac by lia.
    apply Qle_shift_div_r;
      [apply inject_Z_pos, Z.pow_pos_nonneg; lia |].
    unfold Qle, Qmult, inject_Z. cbn [Qnum Qden]. nia. }
  destruct (Qle_bool (pow2 (a - b)) (n # d)) eqn:Hk.
  - apply Qle_bool_iff in Hk. split; assumption.
  - split; [exact Hlow |].
    replace (a - b - 1 + 1)%Z with (a - b)%Z by lia.
    apply Qnot_le_lt. intros Hle. apply Qle_bool_iff in Hle. congruence.
Qed.

Lemma ilog2_unique (q : Q) (k : Z) :
  pow2 k <= q -> q < pow2 (k + 1) -> ilog2 q = k.
Proof.
  intros Hlow Hup.
  assert (Hq : 0 < q) by (eapply Qlt_le_trans; [apply (pow2_pos k) | exact Hlow]).
  destruct (ilog2_spec q Hq) as [Hl Hu].
  assert (H1 : (k < ilog2 q + 1)%Z)
    by (apply pow2_lt_inv; eapply Qle_lt_trans; eassumption).
  assert (H2 : (ilog2 q < k + 1)%Z)
    by (apply pow2_lt_inv; eapply Qle_lt_trans; eassumption).
  lia.
Qed.

Lemma ilog2_mono (p q : Q) : 0 < p -> p <= q -> (ilog2 p <= ilog2 q)%Z.
Proof.
  intros Hp Hpq.
  assert (Hq : 0 < q) by (eapply Qlt_le_trans; eassumption).
  destruct (ilog2_spec p Hp) as [Hl _], (ilog2_spec q Hq) as [_ Hu].
  assert (H : (ilog2 p < ilog2 q + 1)%Z); [| lia].
  apply pow2_lt_inv. eapply Qle_lt_trans; [exact Hl |].
  eapply Qle_lt_trans; eassumption.
Qed.

Lemma ilog2_Z (z : Z) : (0 < z)%Z -> ilog2 (inject_Z z) = Z.log2 z.
Proof.
  intros Hz. destruct (Z.log2_spec z Hz) as [H1 H2].
  pose proof (Z.log2_nonneg z) as H0.
  apply ilog2_unique.
  - rewrite pow2_Z by lia. now rewrite <- Zle_Qle.
  - rewrite pow2_Z by lia. rewrite <- Zlt_Qlt.
    now replace (Z.log2 z + 1)%Z with (Z.succ (Z.log2 z)) by lia.
Qed.

(** *** Rounding to the nearest integer, ties to even *)

Lemma rne_cases (q : Q) :
  let f := Qfloor q in
  (rne q = f /\ q - inject_Z f <= 1 # 2)
  \/ (rne q = (f + 1)%Z /\ 1 # 2 <= q - inject_Z f).
Proof.
  intros f. unfold rne. fold f.
  destruct (Qcompare_spec (q - inject_Z f) (1 # 2)) as [He | Hl | Hg].
  - destruct (Z.even f).
    + left. split; [reflexivity | rewrite He; apply Qle_refl].
    + right. split; [reflexivity | rewrite He; apply Qle_refl].
  - left. split; [reflexivity | now apply Qlt_le_weak].
  - right. split; [reflexivity | now apply Qlt_le_weak].
Qed.

Lemma rne_comp (p q : Q) : p == q -> rne p = rne q.
Proof.
  intros H. unfold rne. rewrite (Qfloor_comp p q H).
  assert (E : (p - inject_Z (Qfloor q) ?= 1 # 2)
              = (q - inject_Z (Qfloor q) ?= 1 # 2))
    by (now rewrite H).
  now rewrite E.
Qed.

Lemma rne_Z (z : Z) : rne (inject_Z z) = z.
Proof.
  unfold rne. rewrite Qfloor_Z.
  assert (E : (inject_Z z - inject_Z z ?= 1 # 2) = Lt).
  { apply Qlt_alt. setoid_replace (inject_Z z - inject_Z z) with 0 by ring.
    reflexivity. }
  now rewrite E.
Qed.

Lemma rne_err (q : Q) :
  q - (1 # 2) <= inject_Z (rne q) /\ inject_Z (rne q) <= q + (1 # 2).
Proof.
  pose proof (Qfloor_le q) as Hf. pose proof (Qlt_floor q) as Hc.
  rewrite inject_Z_plus in Hc. change (inject_Z 1) with 1 in Hc.
  destruct (rne_cases q) as [[-> H] | [-> H]].
  - split; lra.
  - rewrite inject_Z_plus. change (inject_Z 1) with 1. split; lra.
Qed.

Lemma rne_mono (p q : Q) : p <= q -> (rne p <= rne q)%Z.
Proof.
  intros Hpq. pose proof (Qfloor_resp_le p q Hpq) as Hf.
  pose proof (Qfloor_le p) as Hp1. pose proof (Qlt_floor p) as Hp2.
  pose proof (Qfloor_le q) as Hq1. pose proof (Qlt_floor q) as Hq2.
  destruct (Z_lt_le_dec (Qfloor p) (Qfloor q)) as [Hlt | Hge].
  - destruct (rne_cases p) as [[-> _] | [-> _]];
      destruct (rne_cases q) as [[-> _] | [-> _]]; lia.
  - assert (E : Qfloor p = Qfloor q) by lia.
    unfold rne. rewrite E.
    destruct (Qcompare_spec (p - inject_Z (Qfloor q)) (1 # 2)) as [He | Hl | Hg];
      destruct (Qcompare_spec (q - inject_Z (Qfloor q)) (1 # 2)) as [He' | Hl' | Hg'];
      try destruct (Z.even (Qfloor q)); try lia; exfalso; lra.
Qed.

Lemma rne_nonneg (q : Q) : 0 <= q -> (0 <= rne q)%Z.
Proof.
  intros H. change 0%Z with (rne (inject_Z 0)) at 1.
  rewrite <- (rne_Z 0) at 1. now apply rne_mono.
Qed.

(** *** The nearest point of the grid *)

Lemma quantum_mono (p q : Q) : 0 < p -> p <= q -> (quantum p <= quantum q)%Z.
Proof.
  intros Hp Hpq. pose proof (ilog2_mono p q Hp Hpq). unfold quantum. lia.
Qed.

Lemma nearest_scaled (q : Q) (e : Z) :
  quantum q = e -> nearest q == inject_Z (rne (q / pow2 e)) * pow2 e.
Proof. intros <-. reflexivity. Qed.

Lemma div_pow2_le (p q : Q) (e : Z) : p <= q -> p / pow2 e <= q / pow2 e.
Proof.
  intros H. pose proof (pow2_pos e) as He.
  apply Qle_shift_div_l; [exact He |].
  unfold Qdiv. rewrite <- Qmult_assoc, (Qmult_comm (/ pow2 e)).
  rewrite Qmult_inv_r by (intros E; rewrite E in He; discriminate He).
  now rewrite Qmult_1_r.
Qed.

Lemma mul_pow2_le (m n : Z) (e : Z) :
  (m <= n)%Z -> inject_Z m * pow2 e <= inject_Z n * pow2 e.
Proof.
  intros H. apply Qmult_le_compat_r.
  - now rewrite <- Zle_Qle.
  - apply Qlt_le_weak, pow2_pos.
Qed.

Lemma nearest_mono (p q : Q) : 0 < p -> p <= q -> nearest p <= nearest q.
Proof.
  intros Hp Hpq.
  assert (Hq : 0 < q) by (eapply Qlt_le_trans; eassumption).
  pose proof (quantum_mono p q Hp Hpq) as He.
  destruct (Z_lt_le_dec (quantum p) (quantum q)) as [Hlt | Hge].
  - set (L := ilog2 q).
    assert (HeqL : quantum q = (L - 52)%Z) by (unfold quantum in *; fold L; lia).
    assert (HpL : (ilog2 p + 1 <= L)%Z) by (unfold quantum in *; fold L in Hlt; lia).
    destruct (ilog2_spec p Hp) as [_ Hpu]. destruct (ilog2_spec q Hq) as [Hql _].
    fold L in Hql.
    assert (Hp2 : p <= pow2 L).
    { apply Qlt_le_weak. eapply Qlt_le_trans; [exact Hpu | now apply pow2_le]. }
    apply (Qle_trans _ (pow2 L)).
    + unfold nearest. set (e := quantum p) in *.
      assert (HLe : (0 <= L - e)%Z) by lia.
      assert (Hs : p / pow2 e <= inject_Z (2 ^ (L - e))).
      { rewrite <- pow2_Z by lia. rewrite pow2_sub. now apply div_pow2_le. }
      apply rne_mono in Hs. rewrite rne_Z in Hs.
      eapply Qle_trans; [apply mul_pow2_le; exact Hs |].
      rewrite <- pow2_Z by lia. rewrite <- pow2_add.
      replace (L - e + e)%Z with L by lia. apply Qle_refl.
    + unfold nearest. rewrite HeqL.
      assert (Hs : inject_Z (2 ^ 52) <= q / pow2 (L - 52)).
      { rewrite <- pow2_Z by lia.
        setoid_replace (pow2 52) with (pow2 L / pow2 (L - 52)).
        - now apply div_pow2_le.
        - rewrite <- pow2_sub. now replace (L - (L - 52))%Z with 52%Z by lia. }
      apply rne_mono in Hs. rewrite rne_Z in Hs.
      eapply Qle_trans; [| apply mul_pow2_le; exact Hs].
      rewrite <- pow2_Z by lia. rewrite <- pow2_add.
      replace (52 + (L - 52))%Z with L by lia. apply Qle_refl.
  - assert (E : quantum p = quantum q) by lia.
    unfold nearest. rewrite E.
    apply mul_pow2_le, rne_mono. now apply div_pow2_le.
Qed.

Lemma nearest_nonneg (q : Q) : 0 <= q -> 0 <= nearest q.
Proof.
  intros Hq. unfold nearest.
  apply Qmult_le_0_compat; [| apply Qlt_le_weak, pow2_pos].
  change 0 with (inject_Z 0). rewrite <- Zle_Qle. apply rne_nonneg.
  apply Qle_shift_div_l; [apply pow2_pos | now rewrite Qmult_0_l].
Qed.

Lemma nearest_err (q : Q) :
  q - pow2 (quantum q - 1) <= nearest q
  /\ nearest q <= q + pow2 (quantum q - 1).
Proof.
  unfold nearest. set (e := quantum q).
  pose proof (pow2_pos e) as He.
  destruct (rne_err (q / pow2 e)) as [H1 H2].
  assert (Hhalf : pow2 (e - 1) == (1 # 2) * pow2 e).
  { rewrite pow2_sub. unfold Qdiv. rewrite Qmult_comm. reflexivity. }
  assert (Hq : q == q / pow2 e * pow2 e).
  { unfold Qdiv. rewrite <- Qmult_assoc, (Qmult_comm (/ pow2 e)).
    rewrite Qmult_inv_r by (intros E; rewrite E in He; discriminate He).
    now rewrite Qmult_1_r. }
  rewrite Hhalf. set (x := q / pow2 e) in *. set (m := inject_Z (rne x)) in *.
  rewrite Hq. split.
  - setoid_replace (x * pow2 e - (1 # 2) * pow2 e)
      with ((x - (1 # 2)) * pow2 e) by ring.
    apply Qmult_le_compat_r; [exact H1 | now apply Qlt_le_weak].
  - setoid_replace (x * pow2 e + (1 # 2) * pow2 e)
      with ((x + (1 # 2)) * pow2 e) by ring.
    apply Qmult_le_compat_r; [exact H2 | now apply Qlt_le_weak].
Qed.

(** *** Rounding a number that is not negative *)

Lemma roundPos_cases (q : Q) :
  0 <= q ->
  (q == 0 /\ roundPos q = Finite 0)
  \/ (0 < q /\ pow2 1024 <= nearest q /\ roundPos q = Infinite false)
  \/ (0 < q /\ nearest q < pow2 1024 /\ roundPos q = Finite (Qred (nearest q))).
Proof.
  intros Hq. unfold roundPos.
  destruct (Qeq_bool q 0) eqn:E0.
  - left. apply Qeq_bool_iff in E0. now split.
  - right. apply Qeq_bool_neq in E0.
    assert (Hpos : 0 < q) by (apply Qle_lteq in Hq as [H | H]; [exact H | now symmetry in H]).
    destruct (Qle_bool (pow2 1024) (nearest q)) eqn:Eo.
    + left. apply Qle_bool_iff in Eo. auto.
    + right. split; [exact Hpos |]. split; [| reflexivity].
      apply Qnot_le_lt. intros H. apply Qle_bool_iff in H. congruence.
Qed.

(** Rounding is monotone: below a number that rounds to a finite value
    everything rounds to a finite value that is not larger. *)
Lemma roundPos_mono (p q b : Q) :
  0 <= p -> p <= q -> roundPos q = Finite b ->
  exists a : Q, roundPos p = Finite a /\ 0 <= a /\ a <= b.
Proof.
  intros Hp Hpq Hb.
  assert (Hq : 0 <= q) by (eapply Qle_trans; eassumption).
  destruct (roundPos_cases q Hq) as [[Hq0 E] | [(Hq0 & Ho & E) | (Hq0 & Ho & E)]];
    rewrite E in Hb; try discriminate;
    match type of Hb with Finite ?v = _ =>
      assert (Hv : b = v) by congruence; clear Hb; subst b end.
  - assert (Hp0 : p == 0) by lra.
    exists 0. split; [| split; apply Qle_refl].
    unfold roundPos. now rewrite (Qeq_eq_bool _ _ Hp0).
  - pose proof (Qred_correct (nearest q)) as Rq.
    pose proof (Qred_correct (nearest p)) as Rp.
    pose proof (nearest_nonneg q Hq) as Nq.
    pose proof (nearest_nonneg p Hp) as Np.
    destruct (roundPos_cases p Hp) as [[Hp0 Ep] | [(Hp0 & Hpo & Ep) | (Hp0 & Hpo & Ep)]].
    + exists 0. split; [exact Ep |]. split; lra.
    + exfalso. pose proof (nearest_mono p q Hp0 Hpq) as Hm. lra.
    + exists (Qred (nearest p)). split; [exact Ep |].
      pose proof (nearest_mono p q Hp0 Hpq) as Hm. split; lra.
Qed.

(** Above a number that rounds to a finite value everything rounds to a
    value that is not smaller (or to infinity). *)
Lemma roundPos_above (p q a : Q) :
  0 <= p -> p <= q -> roundPos p = Finite a ->
  roundPos q = Infinite false
  \/ exists b : Q, roundPos q = Finite b /\ a <= b.
Proof.
  intros Hp Hpq Ha.
  assert (Hq : 0 <= q) by (eapply Qle_trans; eassumption).
  destruct (roundPos_cases q Hq) as [[Hq0 E] | [(Hq0 & Ho & E) | (Hq0 & Ho & E)]].
  - right. exists 0. split; [exact E |].
    destruct (roundPos_mono p q 0 Hp Hpq E) as (a' & Ea & _ & Hab).
    rewrite Ea in Ha. assert (a = a') by congruence. now subst a'.
  - now left.
  - right. exists (Qred (nearest q)). split; [exact E |].
    destruct (roundPos_mono p q _ Hp Hpq E) as (a' & Ea & _ & Hab).
    rewrite Ea in Ha. assert (a = a') by congruence. now subst a'.
Qed.

Lemma Qred_inject_Z (z : Z) : Qred (inject_Z z) = inject_Z z.
Proof.
  unfold Qred, inject_Z.
  pose proof (Z.ggcd_gcd z 1) as Hg.
  pose proof (Z.ggcd_correct_divisors z 1) as Hd.
  destruct (Z.ggcd z 1) as [g [aa bb]]. cbn [fst snd] in *.
  rewrite Z.gcd_1_r in Hg. subst g. destruct Hd as [Ha Hb].
  replace aa with z by lia. replace bb with 1%Z by lia. reflexivity.
Qed.

(** Integers up to 2^53 are representable. *)
Lemma roundPos_Z (z : Z) :
  (0 <= z <= 2 ^ 53)%Z -> roundPos (inject_Z z) = Finite (inject_Z z).
Proof.
  intros [H0 H53].
  destruct (Z.eq_dec z 0) as [-> | Hz0]; [reflexivity |].
  destruct (Z.eq_dec z (2 ^ 53)) as [-> | Hz53]; [vm_compute; reflexivity |].
  assert (Hz : (0 < z)%Z) by lia.
  assert (Hlog : (Z.log2 z < 53)%Z) by (apply Z.log2_lt_pow2; lia).
  pose proof (Z.log2_nonneg z) as Hlog0.
  assert (Hquantum : quantum (inject_Z z) = (Z.log2 z - 52)%Z).
  { unfold quantum. rewrite ilog2_Z by exact Hz. lia. }
  set (k := (52 - Z.log2 z)%Z).
  assert (Hnear : nearest (inject_Z z) == inject_Z z).
  { unfold nearest. rewrite Hquantum.
    replace (Z.log2 z - 52)%Z with (- k)%Z by lia.
    assert (Hs : inject_Z z / pow2 (- k) == inject_Z (z * 2 ^ k)).
    { unfold pow2. rewrite Qpower_opp. unfold Qdiv. rewrite Qinv_involutive.
      fold (pow2 k). rewrite pow2_Z by lia. now rewrite inject_Z_mult. }
    rewrite (rne_comp _ _ Hs), rne_Z, inject_Z_mult, <- pow2_Z by lia.
    rewrite <- Qmult_assoc, <- pow2_add.
    replace (k + - k)%Z with 0%Z by lia. change (pow2 0) with 1. ring. }
  unfold roundPos.
  replace (Qeq_bool (inject_Z z) 0) with false.
  2:{ symmetry. destruct (Qeq_bool (inject_Z z) 0) eqn:E; [| reflexivity].
      apply Qeq_bool_iff in E. unfold Qeq in E. cbn in E. lia. }
  replace (Qle_bool (pow2 1024) (nearest (inject_Z z))) with false.
  2:{ symmetry. destruct (Qle_bool _ _) eqn:E; [| reflexivity].
      apply Qle_bool_iff in E. rewrite Hnear in E.
      rewrite pow2_Z in E by lia. rewrite <- Zle_Qle in E.
      assert ((2 ^ 53 < 2 ^ 1024)%Z) by (apply Z.pow_lt_mono_r; lia). lia. }
  f_equal. rewrite (Qred_complete _ _ Hnear). apply Qred_inject_Z.
Qed.

(** *** Rounding, with its sign *)

Lemma roundPos_shape (q : Q) :
  0 <= q ->
  (exists v : Q, roundPos q = Finite v /\ 0 <= v)
  \/ roundPos q = Infinite false.
Proof.
  intros Hq.
  destruct (roundPos_cases q Hq) as [[_ E] | [(_ & _ & E) | (_ & _ & E)]].
  - left. exists 0. split; [exact E | apply Qle_refl].
  - now right.
  - left. exists (Qred (nearest q)). split; [exact E |].
    pose proof (Qred_correct (nearest q)). pose proof (nearest_nonneg q Hq).
    lra.
Qed.

Lemma round_nonneg (q : Q) : 0 <= q -> round q = roundPos q.
Proof.
  intros H. unfold round. now rewrite (proj2 (Qle_bool_iff 0 q) H).
Qed.

Lemma round_neg (q : Q) : q < 0 -> round q = opp (roundPos (- q)).
Proof.
  intros H. unfold round.
  destruct (Qle_bool 0 q) eqn:E; [| reflexivity].
  apply Qle_bool_iff in E. lra.
Qed.

(** A number between two numbers that round to finite values rounds to
    a finite value between them. *)
Lemma round_between (lo hi q lo' hi' : Q) :
  0 <= lo -> lo <= q -> q <= hi ->
  round lo = Finite lo' -> round hi = Finite hi' ->
  exists v : Q, round q = Finite v /\ lo' <= v /\ v <= hi'.
Proof.
  intros H0 Hlo Hhi Elo Ehi.
  rewrite round_nonneg in Elo by exact H0.
  rewrite round_nonneg in Ehi by lra.
  rewrite round_nonneg by lra.
  destruct (roundPos_mono q hi hi' ltac:(lra) Hhi Ehi) as (v & Ev & _ & Hv).
  exists v. split; [exact Ev |]. split; [| exact Hv].
  destruct (roundPos_mono lo q v H0 Hlo Ev) as (lo'' & Elo' & _ & Hl).
  rewrite Elo in Elo'. assert (lo' = lo'') by congruence. now subst lo''.
Qed.

Lemma ofZ_exact (z : Z) :
  (- 2 ^ 53 <= z <= 2 ^ 53)%Z -> ofZ z = Finite (inject_Z z).
Proof.
  intros Hz. unfold ofZ. destruct (Z_le_gt_dec 0 z) as [Hpos | Hneg].
  - rewrite round_nonneg by (change 0 with (inject_Z 0); now rewrite <- Zle_Qle).
    apply roundPos_Z. lia.
  - rewrite round_neg by (change 0 with (inject_Z 0); rewrite <- Zlt_Qlt; lia).
    change (- inject_Z z) with (inject_Z (- z)).
    rewrite roundPos_Z by lia. cbn [opp]. f_equal.
    unfold inject_Z, Qopp. cbn [Qnum Qden]. now rewrite Z.opp_involutive.
Qed.

(** A rounded number is at most half a spacing away from the number. *)
Lemma roundPos_err (q : Q) (k : Z) :
  0 <= q -> q < pow2 k -> (-1021 <= k <= 1023)%Z ->
  exists v : Q,
    roundPos q = Finite v
    /\ q - pow2 (k - 54) <= v /\ v <= q + pow2 (k - 54).
Proof.
  intros Hq Hk Hrange.
  destruct (Qeq_bool q 0) eqn:E0.
  - exists 0. unfold roundPos. rewrite E0. split; [reflexivity |].
    apply Qeq_bool_iff in E0. pose proof (pow2_pos (k - 54)). split; lra.
  - apply Qeq_bool_neq in E0.
    assert (Hpos : 0 < q) by (apply Qle_lteq in Hq as [H | H]; [exact H | now symmetry in H]).
    destruct (ilog2_spec q Hpos) as [Hl _].
    assert (Hlog : (ilog2 q < k)%Z)
      by (apply pow2_lt_inv; eapply Qle_lt_trans; eassumption).
    assert (Hquantum : (quantum q <= k - 53)%Z) by (unfold quantum; lia).
    destruct (nearest_err q) as [H1 H2].
    pose proof (pow2_le (quantum q - 1) (k - 54) ltac:(lia)) as Hp.
    assert (Hfin : nearest q < pow2 1024).
    { eapply Qle_lt_trans; [exact H2 |].
      pose proof (pow2_le (k - 54) 1022 ltac:(lia)).
      pose proof (pow2_le k 1023 ltac:(lia)).
      assert (pow2 1023 + pow2 1022 < pow2 1024) by (vm_compute; reflexivity).
      lra. }
    exists (Qred (nearest q)). split.
    + unfold roundPos.
      replace (Qeq_bool q 0) with false
        by (symmetry; destruct (Qeq_bool q 0) eqn:E; [| reflexivity];
            apply Qeq_bool_iff in E; contradiction).
      replace (Qle_bool (pow2 1024) (nearest q)) with false; [reflexivity |].
      symmetry. destruct (Qle_bool _ _) eqn:E; [| reflexivity].
      apply Qle_bool_iff in E. lra.
    + pose proof (Qred_correct (nearest q)). split; lra.
Qed.

End Rounding.

(** *** [NaN] spreads through the arithmetic *)

Section NaNs.

Lemma add_NaN_l (x : F64.t) : F64.add F64.NaN x = F64.NaN.
Proof. reflexivity. Qed.

Lemma add_NaN_r (x : F64.t) : F64.add x F64.NaN = F64.NaN.
Proof. now destruct x. Qed.

Lemma mul_NaN_l (x : F64.t) : F64.mul F64.NaN x = F64.NaN.
Proof. reflexivity. Qed.

Lemma mul_NaN_r (x : F64.t) : F64.mul x F64.NaN = F64.NaN.
Proof. now destruct x. Qed.

Lemma div_NaN_l (x : F64.t) : F64.div F64.NaN x = F64.NaN.
Proof. reflexivity. Qed.

Lemma div_NaN_r (x : F64.t) : F64.div x F64.NaN = F64.NaN.
Proof. now destruct x. Qed.

End NaNs.

(** ** Arrays *)

Section Arrays.
Import JS.
Context {A : Type}.

Lemma len_nonneg (arr : list A) : 0 <= len arr.
Proof. unfold len. lia. Qed.

Lemma len_push (arr : list A) (x : A) : len (push arr x) = len arr + 1.
Proof. unfold len, push. rewrite length_app. simpl. lia. Qed.

Lemma len_app (xs ys : list A) : len (xs ++ ys) = len xs + len ys.
Proof. unfold len. rewrite length_app. lia. Qed.

Lemma len_repeat (x : A) (k : nat) : len (repeat x k) = Z.of_nat k.
Proof. unfold len. now rewrite repeat_length. Qed.

(** [arr.slice(0, n)] keeps everything when [arr] has at most [n] elements. *)
Lemma slice_all (arr : list A) (n : Z) :
  len arr <= n -> slice arr 0 n = arr.
Proof.
  intros Hn. pose proof (len_nonneg arr) as H0.
  unfold slice, relIndex.
  replace (0 <? 0) with false by reflexivity.
  replace (n <? 0) with false by (symmetry; apply Z.ltb_ge; lia).
  rewrite (Z.min_l 0) by lia. rewrite (Z.min_r n) by lia.
  simpl skipn. rewrite Z.sub_0_r, Z.max_l by lia.
  apply firstn_all2. unfold len. lia.
Qed.

(** The length of [arr.slice(0, n)] for a count [n] that is not negative. *)
Lemma len_slice (arr : list A) (n : Z) :
  0 <= n -> len (slice arr 0 n) = Z.min n (len arr).
Proof.
  intros Hn. pose proof (len_nonneg arr) as H0.
  unfold slice, relIndex.
  replace (0 <? 0) with false by reflexivity.
  replace (n <? 0) with false by (symmetry; apply Z.ltb_ge; lia).
  rewrite (Z.min_l 0) by lia. simpl skipn.
  rewrite Z.sub_0_r, Z.max_l by lia.
  unfold len in *. rewrite length_firstn. lia.
Qed.

End Arrays.

(** ** The perceptual filter *)

Section Filter.
Import JS Utils ColorExtractor Spec.

(** One unfolding of the padding loop. *)
Lemma padLoop_unfold (filtered : list ColorRGB) (targetCount : Z) :
  padLoop filtered targetCount =
  if len filtered <? targetCount
  then padLoop (push filtered (padColor filtered)) targetCount
  else filtered.
Proof.
  rewrite padLoop_equation_1. cbn.
  destruct (Z_lt_dec (len filtered) targetCount) as [Hlt | Hge]; cbn.
  - apply Z.ltb_lt in Hlt. now rewrite Hlt.
  - replace (len filtered <? targetCount) with false; [reflexivity |].
    symmetry. apply Z.ltb_ge. lia.
Qed.

(** Once the array is not empty every round of the padding loop pushes
    pink, as many times as elements are missing. *)
Lemma padLoop_nonempty (k : nat) :
  forall (filtered : list ColorRGB) (targetCount : Z),
    filtered <> [] ->
    Z.to_nat (targetCount - len filtered) = k ->
    padLoop filtered targetCount = filtered ++ repeat pink k.
Proof.
  induction k as [| k IH]; intros filtered targetCount Hne Hk;
    rewrite padLoop_unfold.
  - replace (len filtered <? targetCount) with false
      by (symmetry; apply Z.ltb_ge; lia).
    simpl. now rewrite app_nil_r.
  - replace (len filtered <? targetCount) with true
      by (symmetry; apply Z.ltb_lt; lia).
    assert (Hpad : padColor filtered = pink).
    { unfold padColor. destruct filtered as [| c rest]; [congruence |].
      reflexivity. }
    rewrite Hpad, (IH (push filtered pink) targetCount).
    + unfold push. rewrite <- app_assoc. reflexivity.
    + unfold push. destruct filtered; discriminate.
    + rewrite len_push. lia.
Qed.

Lemma padLoop_padding (filtered : list ColorRGB) (targetCount : Z) :
  padLoop filtered targetCount = filtered ++ padding filtered targetCount.
Proof.
  unfold padding. destruct (len filtered <? targetCount) eqn:Hlt.
  - destruct filtered as [| c rest].
    + rewrite padLoop_unfold, Hlt. cbn [padColor len List.length Z.of_nat Z.eqb].
      apply Z.ltb_lt in Hlt. unfold len in Hlt. simpl in Hlt.
      rewrite (padLoop_nonempty (Z.to_nat (targetCount - 1))).
      * reflexivity.
      * discriminate.
      * reflexivity.
    + apply padLoop_nonempty; [discriminate | reflexivity].
  - rewrite padLoop_unfold, Hlt. now rewrite app_nil_r.
Qed.

Lemma len_padding (filtered : list ColorRGB) (targetCount : Z) :
  len (padding filtered targetCount) = Z.max 0 (targetCount - len filtered).
Proof.
  unfold padding. destruct (len filtered <? targetCount) eqn:Hlt.
  - apply Z.ltb_lt in Hlt. destruct filtered as [| c rest].
    + unfold len in *. simpl in *. rewrite repeat_length. lia.
    + rewrite len_repeat. lia.
  - apply Z.ltb_ge in Hlt. unfold len at 1. simpl. lia.
Qed.

Lemma padding_fallbacks (filtered : list ColorRGB) (targetCount : Z) :
  Forall (fun c => c = purple \/ c = pink) (padding filtered targetCount).
Proof.
  unfold padding. destruct (len filtered <? targetCount).
  - destruct filtered as [| c0 rest].
    + constructor; [now left |].
      apply Forall_forall. intros x Hx. right. now apply repeat_spec in Hx.
    + apply Forall_forall. intros x Hx. right. now apply repeat_spec in Hx.
  - constructor.
Qed.

(** The scan never collects more than the target, provided the array it
    starts from is still short of it. *)
Lemma filterLoop_len (colors : list ColorRGB) :
  forall (targetCount : Z) (filtered : list ColorRGB),
    len filtered < targetCount ->
    len (filterLoop colors targetCount filtered) <= targetCount.
Proof.
  induction colors as [| color rest IH]; intros targetCount filtered Hlt;
    cbn [filterLoop].
  - lia.
  - destruct (F64.ltb _ _ || F64.gtb _ _); [now apply IH |].
    destruct (isColorUnique color filtered 80).
    + destruct (len (push filtered color) >=? targetCount) eqn:Hge.
      * rewrite len_push. lia.
      * apply IH. rewrite Z.geb_leb in Hge. apply Z.leb_gt in Hge. exact Hge.
    + destruct (len filtered >=? targetCount) eqn:Hge; [lia |].
      now apply IH.
Qed.

(** For a count below one the scan stops at the first colour it accepts. *)
Lemma filterLoop_degenerate (colors : list ColorRGB) (targetCount : Z) :
  targetCount < 1 ->
  (List.length (filterLoop colors targetCount []) <= 1)%nat.
Proof.
  intros Hsmall. induction colors as [| color rest IH]; cbn [filterLoop];
    [simpl; lia |].
  destruct (F64.ltb _ _ || F64.gtb _ _); [exact IH |].
  cbn [isColorUnique existsb negb push app].
  replace (len [color] >=? targetCount) with true; [simpl; lia |].
  symmetry. rewrite Z.geb_leb. apply Z.leb_le. unfold len. simpl. lia.
Qed.

(** What [filterColors] returns for a count of at least one: the accepted
    colours followed by the padding. *)
Lemma filterColors_decompose (colors : list ColorRGB) (targetCount : Z) :
  1 <= targetCount ->
  filterColors colors targetCount =
  filterLoop colors targetCount []
  ++ padding (filterLoop colors targetCount []) targetCount.
Proof.
  intros Hn. unfold filterColors.
  assert (Hacc : len (filterLoop colors targetCount []) <= targetCount).
  { apply filterLoop_len. unfold len. simpl. lia. }
  rewrite padLoop_padding. apply slice_all.
  rewrite len_app, len_padding. lia.
Qed.

(** *** Pairwise distance of the accepted colours *)


(** On numeric colours the distance of the code is the Manhattan
    distance. *)
Lemma calculateColorDifference_manhattan (c1 c2 : ColorRGB) (p q : Z * Z * Z) :
  channels c1 = Some p -> channels c2 = Some q ->
  calculateColorDifference c1 c2 = Num.Int (manhattan p q).
Proof.
  destruct c1 as [[r1 |] [g1 |] [b1 |]]; try discriminate.
  destruct c2 as [[r2 |] [g2 |] [b2 |]]; try discriminate.
  intros [= <-] [= <-]. reflexivity.
Qed.

Lemma manhattan_sym (p q : Z * Z * Z) : manhattan p q = manhattan q p.
Proof.
  destruct p as [[r1 g1] b1], q as [[r2 g2] b2]. unfold manhattan. lia.
Qed.





(** C1.  For a requested count of at least one, [filterColors] returns
    exactly that many colours: the colours accepted by the scan, followed
    by padding made of the two fixed fallback colours only. *)
Theorem filterColors_length (colors : list ColorRGB) (targetCount : Z) :
  1 <= targetCount ->
  len (filterColors colors targetCount) = targetCount
  /\ exists pads : list ColorRGB,
       filterColors colors targetCount
       = filterLoop colors targetCount [] ++ pads
       /\ Forall (fun c => c = purple \/ c = pink) pads.
Proof.
  intros Hn. rewrite (filterColors_decompose colors targetCount Hn). split.
  - rewrite len_app, len_padding.
    assert (len (filterLoop colors targetCount []) <= targetCount).
    { apply filterLoop_len. unfold len. simpl. lia. }
    lia.
  - exists (padding (filterLoop colors targetCount []) targetCount).
    split; [reflexivity | apply padding_fallbacks].
Qed.

Lemma filterColors_length_witness :
  len (filterColors [mkRGB 100 100 100; mkRGB 255 255 255; mkRGB 110 100 100] 3)
  = 3.
Proof.
  apply (filterColors_length
           [mkRGB 100 100 100; mkRGB 255 255 255; mkRGB 110 100 100] 3).
  lia.
Defined.

(** C2, as the code has it.  When the scan accepts fewer colours than the
    target, the padding is fixed by the number of accepted colours alone:
    with none accepted it is purple followed by pink throughout, with one
    or more accepted it is pink throughout. *)
Theorem filterColors_padding (colors : list ColorRGB) (targetCount : Z) :
  len (filterLoop colors targetCount []) < targetCount ->
  filterColors colors targetCount =
  filterLoop colors targetCount [] ++
  match filterLoop colors targetCount [] with
  | [] => purple :: repeat pink (Z.to_nat (targetCount - 1))
  | _ :: _ =>
      repeat pink
        (Z.to_nat (targetCount - len (filterLoop colors targetCount [])))
  end.
Proof.
  intros Hlt.
  pose proof (len_nonneg (filterLoop colors targetCount [])) as H0.
  rewrite filterColors_decompose by lia.
  unfold padding. apply Z.ltb_lt in Hlt. rewrite Hlt. reflexivity.
Qed.

Lemma filterColors_padding_witness :
  filterColors [mkRGB 255 255 255] 3 = [] ++ purple :: repeat pink 2.
Proof.
  apply (filterColors_padding [mkRGB 255 255 255] 3). reflexivity.
Defined.

(** C2, as stated, fails: one colour survives the scan for a target of
    two, and the first (and only) padded colour is pink, not purple. *)
Lemma filterColors_first_pad_not_purple :
  len (filterLoop [mkRGB 100 100 100] 2 []) < 2
  /\ filterColors [mkRGB 100 100 100] 2 = [mkRGB 100 100 100; pink]
  /\ nth_error (filterColors [mkRGB 100 100 100] 2)
               (List.length (filterLoop [mkRGB 100 100 100] 2 []))
     <> Some purple.
Proof.
  split; [vm_compute; reflexivity |]. split; [vm_compute; reflexivity |].
  vm_compute. discriminate.
Qed.




End Filter.
(** ** Hex strings *)

Section Hex.
Import JS Utils Spec.

Lemma roundTrips_all :
  forallb roundTrips (map Z.of_nat (seq 0 256)) = true.
Proof. vm_compute. reflexivity. Qed.

Lemma roundTrips_byte (n : Z) : 0 <= n <= 255 -> roundTrips n = true.
Proof.
  intros Hn. pose proof roundTrips_all as Hall.
  rewrite forallb_forall in Hall. apply Hall.
  apply in_map_iff. exists (Z.to_nat n). split; [lia |].
  apply in_seq. lia.
Qed.

Lemma toHex_shape (n : Z) :
  0 <= n <= 255 ->
  exists c1 c2 : ascii,
    toHex n = String c1 (String c2 "")
    /\ isHexClass c1 = true /\ isHexClass c2 = true
    /\ parseInt16 (String c1 (String c2 "")) = n.
Proof.
  intros Hn. pose proof (roundTrips_byte n Hn) as Hrt.
  unfold roundTrips in Hrt.
  destruct (toHex n) as [| c1 [| c2 [| c3 rest]]]; try discriminate.
  exists c1, c2.
  apply andb_prop in Hrt as [Hrt Hp]. apply andb_prop in Hrt as [Hrt _].
  apply andb_prop in Hrt as [H1 H2]. apply Z.eqb_eq in Hp. auto.
Qed.

Lemma isHexClass_spec (c : ascii) : isHexClass c = true <-> isHexDigit c.
Proof.
  unfold isHexClass, canonicalize, isHexDigit.
  generalize (code c). intros n.
  destruct (Z.leb_spec 97 n), (Z.leb_spec n 122); cbn [andb];
    rewrite orb_true_iff, !andb_true_iff, !Z.leb_le; lia.
Qed.

Lemma matchGroups_spec (s : string) :
  matchGroups s <> None <->
  String.length s = 6%nat /\ Forall isHexDigit (list_ascii_of_string s).
Proof.
  destruct s as [| c1 [| c2 [| c3 [| c4 [| c5 [| c6 [| c7 rest]]]]]]];
    cbn [matchGroups String.length];
    try (split; [congruence | intros [Hlen _]; discriminate]).
  cbn [list_ascii_of_string].
  destruct (forallb isHexClass [c1; c2; c3; c4; c5; c6]) eqn:Hall.
  - split; [intros _ | discriminate]. split; [reflexivity |].
    rewrite forallb_forall in Hall. apply Forall_forall.
    intros x Hx. apply isHexClass_spec. now apply Hall.
  - split; [congruence |]. intros [_ Hdigits]. exfalso.
    assert (forallb isHexClass [c1; c2; c3; c4; c5; c6] = true); [| congruence].
    apply forallb_forall. intros x Hx. apply isHexClass_spec.
    rewrite Forall_forall in Hdigits. now apply Hdigits.
Qed.

(** A string that starts with [#] never matches the groups as a whole. *)
Lemma matchGroups_hash (rest : string) : matchGroups (String "#" rest) = None.
Proof.
  destruct rest as [| c2 [| c3 [| c4 [| c5 [| c6 [| c7 rest]]]]]];
    try reflexivity.
Qed.

Lemma hexRegexExec_spec (hex : string) :
  hexRegexExec hex <> None <-> isHexColor hex.
Proof.
  unfold isHexColor. split.
  - intros Hm.
    assert (Hcases : matchGroups hex <> None
                     \/ exists rest, hex = String "#" rest
                                     /\ matchGroups rest <> None).
    { destruct hex as [| c rest]; [now left |].
      destruct (Ascii.eqb_spec c "#") as [-> | Hc].
      - right. exists rest. split; [reflexivity |].
        cbn [hexRegexExec] in Hm. rewrite matchGroups_hash in Hm.
        destruct (matchGroups rest); congruence.
      - left. unfold hexRegexExec in Hm.
        destruct c as [[] [] [] [] [] [] [] []]; try exact Hm.
        congruence. }
    destruct Hcases as [Hwhole | (rest & -> & Hrest)].
    + exists hex. apply matchGroups_spec in Hwhole. intuition.
    + exists rest. apply matchGroups_spec in Hrest. intuition.
  - intros (digits & [-> | ->] & Hlen & Hdigits).
    + assert (Hm : matchGroups digits <> None)
        by (apply matchGroups_spec; auto).
      destruct digits as [| c rest]; [discriminate |].
      destruct (Ascii.eqb_spec c "#") as [-> | Hc].
      * now rewrite matchGroups_hash in Hm.
      * unfold hexRegexExec.
        destruct c as [[] [] [] [] [] [] [] []]; try exact Hm.
        congruence.
    + assert (Hm : matchGroups digits <> None)
        by (apply matchGroups_spec; auto).
      cbn [hexRegexExec]. destruct (matchGroups digits); congruence.
Qed.

(** C10.  A colour with integer channels from 0 to 255 survives the
    trip through its hex string, and [hexToRgb] answers [null] on exactly
    the strings that are not six hexadecimal digits behind an optional
    [#]. *)
Theorem hexToRgb_rgbToHex (red green blue : Z) (hex : string) :
  (0 <= red <= 255 -> 0 <= green <= 255 -> 0 <= blue <= 255 ->
   hexToRgb (rgbToHex (mkRGB red green blue)) = Some (mkRGB red green blue))
  /\ (hexToRgb hex = None <-> ~ isHexColor hex).
Proof.
  split.
  - intros Hr Hg Hb.
    destruct (toHex_shape red Hr) as (r1 & r2 & Er & Hr1 & Hr2 & Pr).
    destruct (toHex_shape green Hg) as (g1 & g2 & Eg & Hg1 & Hg2 & Pg).
    destruct (toHex_shape blue Hb) as (b1 & b2 & Eb & Hb1 & Hb2 & Pb).
    unfold rgbToHex, hexToRgb. cbn [r g b].
    rewrite Er, Eg, Eb.
    cbn [String.append hexRegexExec matchGroups forallb].
    rewrite Hr1, Hr2, Hg1, Hg2, Hb1, Hb2. cbn [andb].
    now rewrite Pr, Pg, Pb.
  - rewrite <- hexRegexExec_spec. unfold hexToRgb.
    destruct (hexRegexExec hex) as [[[g1 g2] g3] |].
    + split; [discriminate |]. intros H. exfalso. apply H. discriminate.
    + split; [| reflexivity]. intros _ H. now apply H.
Qed.

Lemma hexToRgb_rgbToHex_witness :
  hexToRgb (rgbToHex (mkRGB 107 70 193)) = Some (mkRGB 107 70 193).
Proof.
  apply (hexToRgb_rgbToHex 107 70 193 ""); lia.
Defined.

End Hex.

(** ** Harmony *)

Section Harmony.
Import JS Utils Spec.

Lemma skipn_at (colors : list ColorRGB) :
  forall s : nat,
    (s < List.length colors)%nat ->
    skipn s colors = at_ colors s :: skipn (S s) colors.
Proof.
  induction colors as [| c rest IH]; intros s Hs; simpl in Hs; [lia |].
  destruct s as [| s]; [reflexivity |].
  rewrite !skipn_cons. unfold at_ in *. simpl nth. apply IH. lia.
Qed.

(** The score that the inner loop adds for a pair is the harmony of the
    pair at its Manhattan distance. *)
Lemma pairScore_pairHarmony (x c : ColorRGB) :
  F64.max F64.zero (pairScore x c) = pairHarmony (x, c).
Proof.
  destruct x as [[r1 |] [g1 |] [b1 |]], c as [[r2 |] [g2 |] [b2 |]];
    reflexivity.
Qed.

Lemma harmonyStep_against (colors : list ColorRGB) (i j : nat)
      (acc : F64.t * Z) :
  harmonyStep colors i acc j = against (at_ colors i) acc (at_ colors j).
Proof.
  unfold harmonyStep, against. now rewrite pairScore_pairHarmony.
Qed.

(** The inner loop walks over the colours behind position [i]. *)
Lemma harmonyInner_elements (colors : list ColorRGB) (i k : nat) :
  forall (s : nat) (acc : F64.t * Z),
    (s + k <= List.length colors)%nat ->
    fold_left (harmonyStep colors i) (seq s k) acc
    = fold_left (against (at_ colors i)) (firstn k (skipn s colors)) acc.
Proof.
  induction k as [| k IH]; intros s acc Hk; [reflexivity |].
  rewrite (skipn_at colors s) by lia. cbn [seq firstn fold_left].
  rewrite IH by lia. now rewrite harmonyStep_against.
Qed.

Lemma harmonyInner_suffix (colors : list ColorRGB) (i : nat)
      (acc : F64.t * Z) :
  (i < List.length colors)%nat ->
  harmonyInner colors acc i
  = fold_left (against (at_ colors i)) (skipn (i + 1) colors) acc.
Proof.
  intros Hi. unfold harmonyInner.
  rewrite harmonyInner_elements by lia.
  rewrite firstn_all2; [reflexivity |]. rewrite length_skipn. lia.
Qed.

Lemma against_fold (x : ColorRGB) (rest : list ColorRGB) :
  forall acc : F64.t * Z,
    fold_left (against x) rest acc
    = (fold_left F64.add (map pairHarmony (map (pair x) rest)) (fst acc),
       snd acc + len rest).
Proof.
  induction rest as [| c rest IH]; intros acc.
  - cbn. destruct acc as [score n]. cbn. f_equal. lia.
  - cbn [fold_left map]. rewrite IH. unfold against.
    cbn [fst snd]. f_equal. unfold len. cbn [List.length]. lia.
Qed.

(** The outer loop from position [s] on adds up the pairs of the suffix,
    in their order. *)
Lemma harmonyOuter_from (colors : list ColorRGB) (k : nat) :
  forall (s : nat) (acc : F64.t * Z),
    (s + k = List.length colors)%nat ->
    fold_left (harmonyInner colors) (seq s k) acc
    = (fold_left F64.add (map pairHarmony (allPairs (skipn s colors)))
                 (fst acc),
       snd acc + len (allPairs (skipn s colors))).
Proof.
  induction k as [| k IH]; intros s acc Hk.
  - rewrite skipn_all2 by lia. cbn. destruct acc as [score n]. cbn.
    f_equal. lia.
  - cbn [seq fold_left]. rewrite IH by lia.
    rewrite harmonyInner_suffix by lia.
    replace (s + 1)%nat with (S s) by lia.
    rewrite against_fold. cbn [fst snd].
    rewrite (skipn_at colors s) by lia. cbn [allPairs].
    rewrite map_app, fold_left_app. f_equal.
    rewrite len_app. unfold len. rewrite length_map. lia.
Qed.

Lemma harmonyOuter_pairs (colors : list ColorRGB) :
  harmonyOuter colors
  = (sum (map pairHarmony (allPairs colors)), len (allPairs colors)).
Proof.
  unfold harmonyOuter.
  rewrite (harmonyOuter_from colors (List.length colors) 0) by lia.
  cbn [skipn fst snd]. reflexivity.
Qed.

Lemma allPairs_nonempty (colors : list ColorRGB) :
  (2 <= List.length colors)%nat -> 0 < len (allPairs colors).
Proof.
  destruct colors as [| x [| y rest]]; simpl; try lia.
  intros _. unfold len. simpl. lia.
Qed.

(** With two colours or more the loops return the average over the
    pairs. *)
Lemma calculateHarmony_average (colors : list ColorRGB) :
  (2 <= List.length colors)%nat ->
  calculateHarmony colors = average (map pairHarmony (allPairs colors)).
Proof.
  intros Hlen. unfold calculateHarmony.
  replace (len colors <? 2) with false
    by (symmetry; apply Z.ltb_ge; unfold len; lia).
  rewrite harmonyOuter_pairs.
  pose proof (allPairs_nonempty colors Hlen) as Hpos.
  replace (len (allPairs colors) >? 0) with true
    by (symmetry; apply Z.gtb_lt; lia).
  unfold average. unfold len. now rewrite length_map.
Qed.

(** *** The range of the result *)
















(** *** [NaN] *)










End Harmony.

(** ** Mood *)

Section Mood.
Import JS Utils Spec.

(** The brightness of the code is the luminance of the colour. *)
Lemma calculateBrightness_luminance (color : ColorRGB) :
  calculateBrightness color = luminance color.
Proof.
  destruct color as [[r0 |] [g0 |] [b0 |]];
    unfold calculateBrightness, luminance;
    cbn [channels r g b F64.ofNum];
    now rewrite ?mul_NaN_r, ?add_NaN_r, ?add_NaN_l.
Qed.

(** The saturation of the code is [(max - min) / max], or 0 where [max]
    is 0. *)
Lemma saturationOf_saturation (color : ColorRGB) :
  saturationOf color = saturation color.
Proof. destruct color as [[r0 |] [g0 |] [b0 |]]; reflexivity. Qed.

(** The [forEach] totals are the sums of the saturations and of the
    brightnesses, added up in the order of the colours. *)
Lemma moodStep_totals (colors : list ColorRGB) :
  forall totals : F64.t * F64.t,
    fold_left moodStep colors totals
    = (fold_left F64.add (map saturation colors) (fst totals),
       fold_left F64.add (map luminance colors) (snd totals)).
Proof.
  induction colors as [| c rest IH]; intros totals.
  - now destruct totals.
  - cbn [fold_left map]. rewrite IH. unfold moodStep. cbn [fst snd].
    now rewrite calculateBrightness_luminance, saturationOf_saturation.
Qed.

(** A list that is not empty is classified by the table. *)
Lemma analyzeColorMood_cons (color : ColorRGB) (rest : list ColorRGB) :
  analyzeColorMood (color :: rest)
  = moodTable (average (map luminance (color :: rest)))
              (average (map saturation (color :: rest))).
Proof.
  unfold analyzeColorMood.
  replace (len (color :: rest) =? 0) with false
    by (symmetry; apply Z.eqb_neq; unfold len; cbn [List.length]; lia).
  rewrite moodStep_totals. cbn [fst snd].
  unfold moodTable, average, sum, len. now rewrite !length_map.
Qed.

(** C8.  An empty input is neutral; any other input is classified by the
    threshold table, applied to the average brightness and the average
    saturation of the colours, both computed in doubles; two whites
    (average brightness 255, saturation 0) are bright. *)
Theorem analyzeColorMood_table :
  analyzeColorMood [] = "neutral"
  /\ (forall (color : ColorRGB) (rest : list ColorRGB),
        analyzeColorMood (color :: rest)
        = moodTable (average (map luminance (color :: rest)))
                    (average (map saturation (color :: rest))))
  /\ average (map luminance [mkRGB 255 255 255; mkRGB 255 255 255])
     = F64.Finite 255
  /\ average (map saturation [mkRGB 255 255 255; mkRGB 255 255 255])
     = F64.Finite 0
  /\ analyzeColorMood [mkRGB 255 255 255; mkRGB 255 255 255] = "bright".
Proof.
  split; [reflexivity |].
  split; [apply analyzeColorMood_cons |].
  repeat split; vm_compute; reflexivity.
Qed.

(** The doubles decide at the thresholds: the brightness of
    [(220, 194, 3)] is a double just above 180, that of [(74, 108, 127)]
    one just below 100. *)
Example analyzeColorMood_above_180 :
  analyzeColorMood [mkRGB 220 194 3] = "energetic"
  /\ F64.gtb (calculateBrightness (mkRGB 220 194 3)) (F64.lit 180) = true.
Proof. split; vm_compute; reflexivity. Qed.

Example analyzeColorMood_below_100 :
  analyzeColorMood [mkRGB 74 108 127] = "dark"
  /\ F64.ltb (calculateBrightness (mkRGB 74 108 127)) (F64.lit 100) = true.
Proof. split; vm_compute; reflexivity. Qed.

End Mood.

(** ** Maps *)

Section Maps.
Import JS.
Context {V : Type}.

Lemma assocGet_assocSet_same (k : string) (v : V) (m : list (string * V)) :
  assocGet k (assocSet k v m) = Some v.
Proof.
  induction m as [| [k' v'] rest IH]; simpl.
  - now rewrite String.eqb_refl.
  - destruct (String.eqb k k') eqn:Hk; simpl.
    + now rewrite String.eqb_refl.
    + now rewrite Hk.
Qed.

(** [set] never removes a key. *)
Lemma assocHas_assocSet (k k' : string) (v : V) (m : list (string * V)) :
  assocHas k m = true -> assocHas k (assocSet k' v m) = true.
Proof.
  unfold assocHas. induction m as [| [k0 v0] rest IH]; simpl;
    [discriminate |].
  destruct (String.eqb k' k0) eqn:Hk'; simpl.
  - apply String.eqb_eq in Hk'. subst k0.
    destruct (String.eqb k k'); auto.
  - destruct (String.eqb k k0); auto.
Qed.

Lemma assocKeys_assocSet_In (x k : string) (v : V) (m : list (string * V)) :
  In x (assocKeys (assocSet k v m)) -> x = k \/ In x (assocKeys m).
Proof.
  unfold assocKeys. induction m as [| [k0 v0] rest IH]; simpl.
  - intros [<- | []]. now left.
  - destruct (String.eqb k k0) eqn:Hk; simpl.
    + intros [<- | Hin]; auto.
    + intros [<- | Hin]; auto. destruct (IH Hin); auto.
Qed.

(** [set] keeps the keys distinct. *)
Lemma assocKeys_assocSet_NoDup (k : string) (v : V) (m : list (string * V)) :
  NoDup (assocKeys m) -> NoDup (assocKeys (assocSet k v m)).
Proof.
  unfold assocKeys. induction m as [| [k0 v0] rest IH]; simpl; intros Hnd.
  - constructor; [intros [] | constructor].
  - inversion Hnd as [| ? ? Hnotin Hrest]; subst.
    destruct (String.eqb k k0) eqn:Hk; simpl.
    + apply String.eqb_eq in Hk. subst k0. now constructor.
    + constructor; [| now apply IH].
      intros Hin. apply assocKeys_assocSet_In in Hin as [-> | Hin].
      * now rewrite String.eqb_refl in Hk.
      * now apply Hnotin.
Qed.

End Maps.

(** ** The wave-building entry point *)

Section CreateWaves.
Import JS Utils Spec Song.
Variable env : Env.t.

(** The ways through [createWaves]: a cache hit, a successful
    extraction, a failed one, and one that never ends. *)
Lemma createWaves_hit (st : State) (imageSource : ImageSource)
      (element : option DOM.Element) (cachedColors : list string) :
  assocGet (cacheKeyOf imageSource) (cache st) = Some cachedColors ->
  createWaves env imageSource element st
  = (Ok (buildWaveResult st cachedColors true None None),
     styled env element cachedColors st).
Proof.
  intros Hhit. unfold createWaves, tryCatch, bind, get. rewrite Hhit.
  destruct element; reflexivity.
Qed.

Lemma createWaves_extracted (st : State) (imageSource : ImageSource)
      (element : option DOM.Element) (rgbColors : list ColorRGB)
      (w : DOM.World) :
  assocGet (cacheKeyOf imageSource) (cache st) = None ->
  ColorExtractor.extractColors env (extractor st) imageSource 2 (world st)
  = (Ok rgbColors, w) ->
  let hexColors := map rgbToHex rgbColors in
  let st' :=
    styled env element hexColors
      (with_cache (assocSet (cacheKeyOf imageSource) hexColors (cache st))
         (with_world w st)) in
  createWaves env imageSource element st
  = (Ok (buildWaveResult st' hexColors true (Some rgbColors) None), st').
Proof.
  intros Hmiss Hex. unfold createWaves, tryCatch, bind, get, extractColors.
  rewrite Hmiss, Hex. destruct element; reflexivity.
Qed.

Lemma createWaves_failed (st : State) (imageSource : ImageSource)
      (element : option DOM.Element) (error : Thrown) (w : DOM.World) :
  assocGet (cacheKeyOf imageSource) (cache st) = None ->
  ColorExtractor.extractColors env (extractor st) imageSource 2 (world st)
  = (Throw error, w) ->
  let fallbackColors :=
    WaveConfig.fallbackColors (WaveGenerator.getConfig (generator st)) in
  let st' := styled env element fallbackColors (with_world w st) in
  createWaves env imageSource element st
  = (Ok (buildWaveResult st' fallbackColors false None
           (Some (messageOf error))), st').
Proof.
  intros Hmiss Hex. unfold createWaves, tryCatch, bind, get, extractColors.
  rewrite Hmiss, Hex. destruct element; reflexivity.
Qed.

Lemma createWaves_diverged (st : State) (imageSource : ImageSource)
      (element : option DOM.Element) (w : DOM.World) :
  assocGet (cacheKeyOf imageSource) (cache st) = None ->
  ColorExtractor.extractColors env (extractor st) imageSource 2 (world st)
  = (Diverges, w) ->
  createWaves env imageSource element st = (Diverges, with_world w st).
Proof.
  intros Hmiss Hex. unfold createWaves, tryCatch, bind, get, extractColors.
  now rewrite Hmiss, Hex.
Qed.

(** What styling an element does and does not touch. *)
Lemma applyToElement_extractions (gen : WaveGenerator.t) (e : DOM.Element)
      (colors : list string) (w : DOM.World) :
  DOM.extractions (WaveGenerator.applyToElement env gen e colors w)
  = DOM.extractions w.
Proof.
  unfold WaveGenerator.applyToElement, WaveGenerator.addWaveEffects.
  repeat match goal with |- context [if ?c then _ else _] => destruct c end;
    reflexivity.
Qed.

Lemma applyToElement_browser (gen : WaveGenerator.t) (e : DOM.Element)
      (colors : list string) (w : DOM.World) :
  Env.isBrowser env = true ->
  DOM.Style.background
    (DOM.styles (WaveGenerator.applyToElement env gen e colors w) e)
  = Some (WaveGenerator.generateCSS gen colors).
Proof.
  intros Hb. unfold WaveGenerator.applyToElement, WaveGenerator.addWaveEffects.
  rewrite Hb. cbn [negb].
  repeat match goal with |- context [if String.eqb ?a ?b then _ else _] =>
    destruct (String.eqb a b) end;
    cbn [DOM.restyle DOM.styles]; rewrite !Nat.eqb_refl; reflexivity.
Qed.

Lemma applyToElement_headless (gen : WaveGenerator.t) (e : DOM.Element)
      (colors : list string) (w : DOM.World) :
  Env.isBrowser env = false ->
  DOM.styles (WaveGenerator.applyToElement env gen e colors w) = DOM.styles w.
Proof.
  intros Hb. unfold WaveGenerator.applyToElement. now rewrite Hb.
Qed.


Lemma styled_cache element colors st :
  cache (styled env element colors st) = cache st.
Proof. destruct element; reflexivity. Qed.

Lemma styled_extractions element colors st :
  DOM.extractions (world (styled env element colors st))
  = DOM.extractions (world st).
Proof.
  destruct element; [| reflexivity]. apply applyToElement_extractions.
Qed.

(** An extraction leaves the element styles and the console alone. *)
Lemma extractColors_world this imageSource count w :
  snd (ColorExtractor.extractColors env this imageSource count w)
  = DOM.recordExtraction imageSource w.
Proof.
  unfold ColorExtractor.extractColors.
  repeat match goal with
         | |- context [if ?c then _ else _] => destruct c
         | |- context [match ?x with ImageUrl _ => _ | _ => _ end] => destruct x
         end; reflexivity.
Qed.



(** C9.  A call of [createWaves] for an identifier the cache holds colours
    for resolves with exactly those colours, leaves the cache as it is, and
    makes no call to the extraction routine. *)
Theorem createWaves_cached (st : State) (imageSource : ImageSource)
        (element : option DOM.Element) (cachedColors : list string) :
  assocGet (cacheKeyOf imageSource) (cache st) = Some cachedColors ->
  exists (result : WaveResult.t) (st' : State),
    createWaves env imageSource element st = (Ok result, st')
    /\ WaveResult.colors result = cachedColors
    /\ WaveResult.isFlowing result = true
    /\ cache st' = cache st
    /\ DOM.extractions (world st') = DOM.extractions (world st).
Proof.
  intros Hhit. eexists. eexists.
  split; [apply (createWaves_hit st imageSource element cachedColors Hhit) |].
  split; [reflexivity |]. split; [reflexivity |].
  split; [apply styled_cache | apply styled_extractions].
Qed.


(** The scenario of two calls in a row: when the first call ends in a
    flowing result, the second one for the same image returns the same
    colours without a further extraction. *)
Lemma createWaves_twice (st st1 : State) (imageSource : ImageSource)
      (element1 element2 : option DOM.Element) (result1 : WaveResult.t) :
  createWaves env imageSource element1 st = (Ok result1, st1) ->
  WaveResult.isFlowing result1 = true ->
  exists (result2 : WaveResult.t) (st2 : State),
    createWaves env imageSource element2 st1 = (Ok result2, st2)
    /\ WaveResult.colors result2 = WaveResult.colors result1
    /\ DOM.extractions (world st2) = DOM.extractions (world st1).
Proof.
  intros Hfirst Hflow.
  assert (Hhit : assocGet (cacheKeyOf imageSource) (cache st1)
                 = Some (WaveResult.colors result1)).
  { destruct (assocGet (cacheKeyOf imageSource) (cache st)) as [cached |] eqn:Hc.
    - rewrite (createWaves_hit st _ element1 cached Hc) in Hfirst.
      injection Hfirst as <- <-. now rewrite styled_cache.
    - destruct (ColorExtractor.extractColors env (extractor st) imageSource 2
                  (world st)) as [[rgbColors | error |] w] eqn:Hex.
      + rewrite (createWaves_extracted st _ element1 rgbColors w Hc Hex) in Hfirst.
        injection Hfirst as <- <-. rewrite styled_cache.
        apply assocGet_assocSet_same.
      + rewrite (createWaves_failed st _ element1 error w Hc Hex) in Hfirst.
        injection Hfirst as <- _. discriminate.
      + rewrite (createWaves_diverged st _ element1 w Hc Hex) in Hfirst.
        discriminate. }
  eexists. eexists.
  split; [apply (createWaves_hit st1 imageSource element2 _ Hhit) |].
  split; [reflexivity | apply styled_extractions].
Qed.

(** What [createWaves] does to the cache: nothing, or one [set] under the
    identifier of the image. *)
Lemma createWaves_cache (st : State) (imageSource : ImageSource)
      (element : option DOM.Element) :
  cache (snd (createWaves env imageSource element st)) = cache st
  \/ exists hexColors : list string,
       cache (snd (createWaves env imageSource element st))
       = assocSet (cacheKeyOf imageSource) hexColors (cache st).
Proof.
  destruct (assocGet (cacheKeyOf imageSource) (cache st)) as [cached |] eqn:Hc.
  - left. rewrite (createWaves_hit st _ element cached Hc).
    apply styled_cache.
  - destruct (ColorExtractor.extractColors env (extractor st) imageSource 2
                (world st)) as [[rgbColors | error |] w] eqn:Hex.
    + right. exists (map rgbToHex rgbColors).
      rewrite (createWaves_extracted st _ element rgbColors w Hc Hex).
      cbn [snd]. now rewrite styled_cache.
    + left. rewrite (createWaves_failed st _ element error w Hc Hex).
      cbn [snd]. now rewrite styled_cache.
    + left. now rewrite (createWaves_diverged st _ element w Hc Hex).
Qed.

(** The methods built on [createWaves] leave the cache as it left it. *)
Lemma step_via_createWaves (call : Call) (st : State) :
  match call with
  | CreateWaves imageSource element =>
      cache (step env call st)
      = cache (snd (createWaves env imageSource element st))
  | FlowToElements imageSource _ | GenerateWaveCSS imageSource _
  | ApplyGlobalWaves imageSource _ | PreloadColors imageSource =>
      cache (step env call st)
      = cache (snd (createWaves env imageSource None st))
  | ClearCache | Destroy | UpdateExtractorOptions _ =>
      cache (step env call st) = []
  | _ => cache (step env call st) = cache st
  end.
Proof.
  destruct call; cbn [step]; try reflexivity;
    unfold flowToElements, generateWaveCSS, applyGlobalWaves, preloadColors,
      enableFlowAnimation, disableFlowAnimation, bind, when;
    try (destruct (createWaves env imageSource None st) as [[result | e |] st']);
    try destruct (Env.isBrowser env); reflexivity.
Qed.

Lemma step_cache (call : Call) (st : State) :
  cache (step env call st) = []
  \/ cache (step env call st) = cache st
  \/ exists (k : string) (v : list string),
       cache (step env call st) = assocSet k v (cache st).
Proof.
  pose proof (step_via_createWaves call st) as H.
  destruct call; auto;
    rewrite H;
    match goal with
    | |- context [createWaves env ?src ?el st] =>
        destruct (createWaves_cache st src el) as [-> | [hex ->]]; eauto
    end.
Qed.

(** C4, as the code has it.  A call of any method of [Song] other than
    [clearCache], [destroy] and [updateExtractorOptions] keeps every
    identifier that is in the cache, and in every state a [Song] can
    reach the cache holds each identifier at most once. *)
Theorem cache_entries_persist :
  (forall (call : Call) (st : State) (key : string),
      clearsCache call = false ->
      assocHas key (cache st) = true ->
      assocHas key (cache (step env call st)) = true)
  /\ (forall st : State, reachable env st -> NoDup (assocKeys (cache st))).
Proof.
  split.
  - intros call st key Hcall Hkey.
    pose proof (step_via_createWaves call st) as H.
    destruct call; try discriminate Hcall; rewrite H; try exact Hkey;
      match goal with
      | |- context [createWaves env ?src ?el st] =>
          destruct (createWaves_cache st src el) as [-> | [hex ->]];
            [exact Hkey | now apply assocHas_assocSet]
      end.
  - induction 1 as [extractorOptions waveConfig w | call st _ IH].
    + unfold new. destruct (ColorExtractor.new env extractorOptions w).
      constructor.
    + destruct (step_cache call st) as [-> | [-> | (k & v & ->)]].
      * constructor.
      * exact IH.
      * now apply assocKeys_assocSet_NoDup.
Qed.

End CreateWaves.

Lemma createWaves_cached_witness :
  exists (result : WaveResult.t) (st' : Song.State),
    Song.createWaves Sample.online (ImageUrl "cover.png") None
      (Song.step Sample.online (Song.CreateWaves (ImageUrl "cover.png") None)
         (Sample.fresh Sample.online))
    = (Ok result, st')
    /\ WaveResult.colors result = ["#646464"; "#c83232"].
Proof.
  assert (Hhit : JS.assocGet (Song.cacheKeyOf (ImageUrl "cover.png"))
                   (Song.cache
                      (Song.step Sample.online
                         (Song.CreateWaves (ImageUrl "cover.png") None)
                         (Sample.fresh Sample.online)))
                 = Some ["#646464"; "#c83232"])
    by (vm_compute; reflexivity).
  destruct (createWaves_cached Sample.online
              (Song.step Sample.online
                 (Song.CreateWaves (ImageUrl "cover.png") None)
                 (Sample.fresh Sample.online))
              (ImageUrl "cover.png") None ["#646464"; "#c83232"] Hhit)
    as (result & st' & Hcall & Hcolors & _).
  exists result, st'. split; [exact Hcall | exact Hcolors].
Defined.



(** C4, as stated, fails: [updateExtractorOptions] is neither [clearCache]
    nor [destroy], and the identifier that was in the cache before the call
    is gone after it. *)
Lemma updateExtractorOptions_drops_entries :
  JS.assocHas "cover.png"
    (Song.cache
       (Song.step Sample.online (Song.CreateWaves (ImageUrl "cover.png") None)
          (Sample.fresh Sample.online)))
  = true
  /\ JS.assocHas "cover.png"
       (Song.cache
          (Song.step Sample.online
             (Song.UpdateExtractorOptions ExtractorOptions.empty)
             (Song.step Sample.online
                (Song.CreateWaves (ImageUrl "cover.png") None)
                (Sample.fresh Sample.online))))
     = false.
Proof. split; vm_compute; reflexivity. Qed.

Lemma cache_entries_persist_witness :
  JS.assocHas "cover.png"
    (Song.cache
       (Song.step Sample.online (Song.CreateWaves (ImageUrl "other.png") None)
          (Song.step Sample.online
             (Song.CreateWaves (ImageUrl "cover.png") None)
             (Sample.fresh Sample.online))))
  = true.
Proof.
  apply (proj1 (cache_entries_persist Sample.online));
    [reflexivity | vm_compute; reflexivity].
Defined.

(** ** The wave configuration *)

Section Generator.
Import JS Utils.

(** C5 on the code.  A [WaveGenerator] built from a configuration without
    a transition and without a flow speed ends up with the transition
    derived from the default flow speed, the cubic-bezier timing of
    [getTransitionTiming], and not with the documented default
    ["all 1.5s ease-out"]. *)
Theorem new_transition_derived (config : WaveConfig.t Partial) :
  WaveConfig.transition config = None ->
  WaveConfig.flowSpeed config = None ->
  WaveConfig.transition (WaveGenerator.getConfig (WaveGenerator.new config))
  = "all 1.5s cubic-bezier(0.4, 0, 0.2, 1)"
  /\ WaveConfig.transition (WaveGenerator.getConfig (WaveGenerator.new config))
     <> "all 1.5s ease-out".
Proof.
  intros Ht Hf.
  assert (E : WaveConfig.transition
                (WaveGenerator.getConfig (WaveGenerator.new config))
              = "all 1.5s cubic-bezier(0.4, 0, 0.2, 1)").
  { unfold WaveGenerator.new, WaveGenerator.getConfig.
    rewrite Ht. cbn [truthy negb].
    destruct (absent (WaveConfig.fallbackColors config));
      cbn [WaveConfig.with_fallbackColors WaveConfig.with_transition
           WaveConfig.transition WaveConfig.spread WaveConfig.flowSpeed];
      rewrite Hf; reflexivity. }
  split; [exact E | rewrite E; discriminate].
Qed.

Lemma new_transition_derived_witness :
  WaveConfig.transition
    (WaveGenerator.getConfig (WaveGenerator.new WaveConfig.empty))
  = "all 1.5s cubic-bezier(0.4, 0, 0.2, 1)".
Proof.
  apply (new_transition_derived WaveConfig.empty); reflexivity.
Defined.

End Generator.
(** * Further properties *)

(** ** The accuracy of the brightness *)

Section Accuracy.
Import JS Utils Spec More.
Open Scope Q_scope.

Lemma round_err (q : Q) (k : Z) :
  0 <= q -> q < F64.pow2 k -> (-1021 <= k <= 1023)%Z ->
  exists v : Q,
    F64.round q = F64.Finite v
    /\ 0 <= v
    /\ q - F64.pow2 (k - 54) <= v /\ v <= q + F64.pow2 (k - 54).
Proof.
  intros Hq Hk Hrange. rewrite round_nonneg by exact Hq.
  destruct (roundPos_err q k Hq Hk Hrange) as (v & Ev & Hlo & Hhi).
  exists v. split; [exact Ev |]. split; [| now split].
  destruct (roundPos_shape q Hq) as [(v' & Ev' & Hv') | Einf]; [| congruence].
  rewrite Ev in Ev'. assert (v = v') by congruence. now subst v'.
Qed.

(** The spacing of the doubles below 256, halved: 2^-46. *)
Lemma half_spacing : F64.pow2 (8 - 54) == 1 # 70368744177664.
Proof. reflexivity. Qed.

(** A weight below 1 is a double at most 2^-54 away from it. *)
Lemma lit_weight (c : Q) :
  0 <= c -> c < 1 ->
  exists w : Q,
    F64.lit c = F64.Finite w
    /\ c - (1 # 18014398509481984) <= w /\ w <= c + (1 # 18014398509481984)
    /\ 0 <= w /\ w <= 1.
Proof.
  intros H0 H1. unfold F64.lit. rewrite round_nonneg by exact H0.
  destruct (roundPos_err c 0 H0 H1 ltac:(lia)) as (w & Ew & Hlo & Hhi).
  assert (Hp : F64.pow2 (0 - 54) == 1 # 18014398509481984) by reflexivity.
  assert (E0 : F64.round 0 = F64.Finite 0) by reflexivity.
  assert (E1 : F64.round 1 = F64.Finite 1) by (vm_compute; reflexivity).
  destruct (round_between 0 1 c 0 1 ltac:(lra) H0 ltac:(lra) E0 E1)
    as (w' & Ew' & Hw0 & Hw1).
  rewrite round_nonneg in Ew' by exact H0. rewrite Ew in Ew'.
  assert (w = w') by congruence. subst w'.
  exists w. repeat split; try assumption; lra.
Qed.

(** A weight times a channel value: at most 2^-45 away from the exact
    product. *)
Lemma mul_weight (c w : Q) (z : Z) :
  c - (1 # 18014398509481984) <= w -> w <= c + (1 # 18014398509481984) ->
  0 <= w -> w <= 1 ->
  (0 <= z <= 255)%Z ->
  exists p : Q,
    F64.mul (F64.Finite w) (F64.ofZ z) = F64.Finite p
    /\ c * inject_Z z - (1 # 35184372088832) <= p
    /\ p <= c * inject_Z z + (1 # 35184372088832)
    /\ 0 <= p.
Proof.
  intros Hlo Hhi Hw0 Hw1 Hz.
  rewrite ofZ_exact by lia. unfold F64.mul.
  assert (Hz0 : 0 <= inject_Z z)
    by (change 0 with (inject_Z 0); rewrite <- Zle_Qle; lia).
  assert (Hz1 : inject_Z z <= 255)
    by (change 255 with (inject_Z 255); rewrite <- Zle_Qle; lia).
  set (x := inject_Z z) in *. clearbody x.
  assert (Hprod0 : 0 <= w * x) by (apply Qmult_le_0_compat; assumption).
  assert (Hprod1 : w * x <= x).
  { rewrite <- (Qmult_1_l x) at 2. apply Qmult_le_compat_r; assumption. }
  assert (Hup : w * x <= (c + (1 # 18014398509481984)) * x)
    by (apply Qmult_le_compat_r; assumption).
  assert (Hdown : (c - (1 # 18014398509481984)) * x <= w * x)
    by (apply Qmult_le_compat_r; assumption).
  assert (Hcx : (c + (1 # 18014398509481984)) * x
                == c * x + (1 # 18014398509481984) * x) by ring.
  assert (Hcx' : (c - (1 # 18014398509481984)) * x
                 == c * x - (1 # 18014398509481984) * x) by ring.
  assert (H256 : F64.pow2 8 == 256) by reflexivity.
  destruct (round_err (w * x) 8 Hprod0 ltac:(lra) ltac:(lia))
    as (p & Ep & Hp0 & Hplo & Hphi).
  pose proof half_spacing as Hh.
  set (y := w * x) in *. clearbody y. set (cx := c * x) in *. clearbody cx.
  exists p. split; [exact Ep |]. repeat split; try assumption; lra.
Qed.


Lemma round_mono (p q b : Q) :
  0 <= p -> p <= q -> F64.round q = F64.Finite b ->
  exists a : Q, F64.round p = F64.Finite a /\ 0 <= a /\ a <= b.
Proof.
  intros Hp Hpq Eq. rewrite round_nonneg in Eq by lra.
  rewrite round_nonneg by exact Hp. now apply (roundPos_mono p q b).
Qed.

Lemma add_finite_inv (x y : F64.t) (b : Q) :
  F64.add x y = F64.Finite b ->
  exists p q : Q, x = F64.Finite p /\ y = F64.Finite q.
Proof.
  destruct x as [p | s1 |], y as [q | s2 |]; unfold F64.add;
    try discriminate; [now exists p, q |].
  destruct (Bool.eqb s1 s2); discriminate.
Qed.

Lemma mul_finite_inv (x y : F64.t) (b : Q) :
  F64.mul x y = F64.Finite b ->
  exists p q : Q, x = F64.Finite p /\ y = F64.Finite q.
Proof.
  destruct x as [p | s1 |], y as [q | s2 |]; unfold F64.mul;
    try discriminate; [now exists p, q | |];
    match goal with |- context [Qeq_bool ?a ?b] => destruct (Qeq_bool a b) end;
    discriminate.
Qed.

(** Sums and products of doubles that are not negative grow with their
    arguments. *)
Lemma add_mono (p q p' q' b : Q) :
  0 <= p -> p <= p' -> 0 <= q -> q <= q' ->
  F64.add (F64.Finite p') (F64.Finite q') = F64.Finite b ->
  exists a : Q,
    F64.add (F64.Finite p) (F64.Finite q) = F64.Finite a /\ 0 <= a /\ a <= b.
Proof.
  intros Hp Hpp Hq Hqq. unfold F64.add.
  apply round_mono; lra.
Qed.

Lemma mul_mono (w x y b : Q) :
  0 <= w -> 0 <= x -> x <= y ->
  F64.mul (F64.Finite w) (F64.Finite y) = F64.Finite b ->
  exists a : Q,
    F64.mul (F64.Finite w) (F64.Finite x) = F64.Finite a /\ 0 <= a /\ a <= b.
Proof.
  intros Hw Hx Hxy. unfold F64.mul.
  apply round_mono.
  - now apply Qmult_le_0_compat.
  - rewrite (Qmult_comm w x), (Qmult_comm w y).
    now apply Qmult_le_compat_r.
Qed.

Lemma lit_nonneg (c w : Q) : 0 <= c -> F64.lit c = F64.Finite w -> 0 <= w.
Proof.
  intros Hc E. unfold F64.lit in E. rewrite round_nonneg in E by exact Hc.
  destruct (roundPos_shape c Hc) as [(v & Ev & Hv) | Einf]; [| congruence].
  rewrite E in Ev. assert (w = v) by congruence. now subst v.
Qed.

Lemma inject_Z_le (x y : Z) : (x <= y)%Z -> inject_Z x <= inject_Z y.
Proof. intros H. now rewrite <- Zle_Qle. Qed.

(** The brightness grows with each channel, on the integers that are
    doubles. *)
Lemma calculateBrightness_mono (r1 g1 b1 r2 g2 b2 : Z) (bound : Q) :
  (0 <= r1 <= r2)%Z -> (0 <= g1 <= g2)%Z -> (0 <= b1 <= b2)%Z ->
  (r2 <= 2 ^ 53)%Z -> (g2 <= 2 ^ 53)%Z -> (b2 <= 2 ^ 53)%Z ->
  calculateBrightness (mkRGB r2 g2 b2) = F64.Finite bound ->
  exists q : Q,
    calculateBrightness (mkRGB r1 g1 b1) = F64.Finite q
    /\ 0 <= q /\ q <= bound.
Proof.
  intros Hr Hg Hb Hr2 Hg2 Hb2. unfold calculateBrightness.
  cbn [r g b F64.ofNum].
  assert (Hpow : (0 < 2 ^ 53)%Z) by reflexivity.
  rewrite !ofZ_exact by lia.
  destruct (lit_weight 0.299 ltac:(discriminate) ltac:(reflexivity))
    as (w1 & -> & _ & _ & Hw1 & _).
  destruct (lit_weight 0.587 ltac:(discriminate) ltac:(reflexivity))
    as (w2 & -> & _ & _ & Hw2 & _).
  destruct (lit_weight 0.114 ltac:(discriminate) ltac:(reflexivity))
    as (w3 & -> & _ & _ & Hw3 & _).
  intros E.
  destruct (add_finite_inv _ _ _ E) as (s2 & p3' & Es2 & Ep3).
  destruct (add_finite_inv _ _ _ Es2) as (p1' & p2' & Ep1 & Ep2).
  assert (H0 : forall z : Z, (0 <= z)%Z -> 0 <= inject_Z z)
    by (intros z Hz; change 0 with (inject_Z 0); now apply inject_Z_le).
  destruct (mul_mono w1 (inject_Z r1) (inject_Z r2) p1' Hw1
              (H0 r1 ltac:(lia)) (inject_Z_le r1 r2 ltac:(lia)) Ep1)
    as (p1 & -> & Hp1 & Hp1').
  destruct (mul_mono w2 (inject_Z g1) (inject_Z g2) p2' Hw2
              (H0 g1 ltac:(lia)) (inject_Z_le g1 g2 ltac:(lia)) Ep2)
    as (p2 & -> & Hp2 & Hp2').
  destruct (mul_mono w3 (inject_Z b1) (inject_Z b2) p3' Hw3
              (H0 b1 ltac:(lia)) (inject_Z_le b1 b2 ltac:(lia)) Ep3)
    as (p3 & -> & Hp3 & Hp3').
  rewrite Es2, Ep3 in E. rewrite Ep1, Ep2 in Es2.
  destruct (add_mono p1 p2 p1' p2' s2 Hp1 Hp1' Hp2 Hp2' Es2)
    as (s1 & -> & Hs1 & Hs1').
  exact (add_mono s1 p3 s2 p3' bound Hs1 Hs1' Hp3 Hp3' E).
Qed.

(** The brightness of a colour with 8-bit channels is a double between 0
    and 255, at most 2^-43 away from the exact luminance. *)
Lemma calculateBrightness_accuracy (r0 g0 b0 : Z) :
  (0 <= r0 <= 255)%Z -> (0 <= g0 <= 255)%Z -> (0 <= b0 <= 255)%Z ->
  exists q : Q,
    calculateBrightness (mkRGB r0 g0 b0) = F64.Finite q
    /\ 0 <= q /\ q <= 255
    /\ inject_Z (luminance1000 r0 g0 b0) / 1000 - (1 # 8796093022208) <= q
    /\ q <= inject_Z (luminance1000 r0 g0 b0) / 1000 + (1 # 8796093022208).
Proof.
  intros Hr Hg Hb.
  assert (Hwhite : calculateBrightness (mkRGB 255%Z 255%Z 255%Z)
                   = F64.Finite 255)
    by (vm_compute; reflexivity).
  destruct (calculateBrightness_mono r0 g0 b0 255 255 255 255
              ltac:(lia) ltac:(lia) ltac:(lia)
              ltac:(vm_compute; discriminate) ltac:(vm_compute; discriminate)
              ltac:(vm_compute; discriminate) Hwhite)
    as (q & Eq & Hq0 & Hq255).
  exists q. split; [exact Eq |]. split; [exact Hq0 |]. split; [exact Hq255 |].
  revert Eq. unfold calculateBrightness. cbn [r g b F64.ofNum].
  destruct (lit_weight 0.299 ltac:(discriminate) ltac:(reflexivity))
    as (w1 & -> & Hw1lo & Hw1hi & Hw10 & Hw11).
  destruct (lit_weight 0.587 ltac:(discriminate) ltac:(reflexivity))
    as (w2 & -> & Hw2lo & Hw2hi & Hw20 & Hw21).
  destruct (lit_weight 0.114 ltac:(discriminate) ltac:(reflexivity))
    as (w3 & -> & Hw3lo & Hw3hi & Hw30 & Hw31).
  destruct (mul_weight 0.299 w1 r0 Hw1lo Hw1hi Hw10 Hw11 Hr)
    as (p1 & -> & Hp1lo & Hp1hi & Hp10).
  destruct (mul_weight 0.587 w2 g0 Hw2lo Hw2hi Hw20 Hw21 Hg)
    as (p2 & -> & Hp2lo & Hp2hi & Hp20).
  destruct (mul_weight 0.114 w3 b0 Hw3lo Hw3hi Hw30 Hw31 Hb)
    as (p3 & -> & Hp3lo & Hp3hi & Hp30).
  assert (HL : inject_Z (luminance1000 r0 g0 b0) / 1000
               == 0.299 * inject_Z r0 + 0.587 * inject_Z g0
                  + 0.114 * inject_Z b0).
  { unfold luminance1000. rewrite !inject_Z_plus, !inject_Z_mult.
    field. }
  assert (Hr1 : inject_Z r0 <= 255)
    by (change 255 with (inject_Z 255); apply inject_Z_le; lia).
  assert (Hg1 : inject_Z g0 <= 255)
    by (change 255 with (inject_Z 255); apply inject_Z_le; lia).
  assert (Hb1 : inject_Z b0 <= 255)
    by (change 255 with (inject_Z 255); apply inject_Z_le; lia).
  assert (Hr0 : 0 <= inject_Z r0)
    by (change 0 with (inject_Z 0); apply inject_Z_le; lia).
  assert (Hg0 : 0 <= inject_Z g0)
    by (change 0 with (inject_Z 0); apply inject_Z_le; lia).
  assert (Hb0 : 0 <= inject_Z b0)
    by (change 0 with (inject_Z 0); apply inject_Z_le; lia).
  set (L := inject_Z (luminance1000 r0 g0 b0) / 1000) in *. clearbody L.
  set (x := inject_Z r0) in *. set (y := inject_Z g0) in *.
  set (z := inject_Z b0) in *. clearbody x y z.
  assert (H256 : F64.pow2 8 == 256) by reflexivity.
  pose proof half_spacing as Hh.
  unfold F64.add at 2.
  destruct (round_err (p1 + p2) 8 ltac:(lra) ltac:(lra) ltac:(lia))
    as (s & -> & Hs0 & Hslo & Hshi).
  unfold F64.add.
  destruct (round_err (s + p3) 8 ltac:(lra) ltac:(lra) ltac:(lia))
    as (t & -> & _ & Htlo & Hthi).
  intros [= <-]. split; lra.
Qed.

End Accuracy.

(** ** Hex strings, distance and brightness *)

Section MoreUtils.
Import JS Utils Spec More.

Lemma toHex_clamp (n : Z) : toHex n = toHex (clamp255 n).
Proof.
  unfold toHex, clamp255. f_equal. f_equal. lia.
Qed.

Lemma clamp255_range (n : Z) : 0 <= clamp255 n <= 255.
Proof. unfold clamp255. lia. Qed.

Lemma rgbToHex_parse (red green blue : Z) :
  String.length (rgbToHex (mkRGB red green blue)) = 7%nat
  /\ hexToRgb (rgbToHex (mkRGB red green blue))
     = Some (mkRGB (clamp255 red) (clamp255 green) (clamp255 blue)).
Proof.
  destruct (toHex_shape _ (clamp255_range red))
    as (r1 & r2 & Er & Hr1 & Hr2 & Pr).
  destruct (toHex_shape _ (clamp255_range green))
    as (g1 & g2 & Eg & Hg1 & Hg2 & Pg).
  destruct (toHex_shape _ (clamp255_range blue))
    as (b1 & b2 & Eb & Hb1 & Hb2 & Pb).
  unfold rgbToHex, hexToRgb. cbn [r g b].
  rewrite (toHex_clamp red), (toHex_clamp green), (toHex_clamp blue),
    Er, Eg, Eb.
  split; [reflexivity |].
  cbn [String.append hexRegexExec matchGroups forallb].
  rewrite Hr1, Hr2, Hg1, Hg2, Hb1, Hb2. cbn [andb].
  rewrite Pr, Pg, Pb. reflexivity.
Qed.

Lemma toHex_two (n : Z) :
  exists c1 c2 : ascii, toHex n = String c1 (String c2 "").
Proof.
  rewrite toHex_clamp.
  destruct (toHex_shape _ (clamp255_range n)) as (c1 & c2 & E & _).
  now exists c1, c2.
Qed.

(** A [NaN] channel is written as the three letters [NaN]; the string
    gets too long for the pattern. *)
Lemma rgbToHex_NaN (color : ColorRGB) :
  hasNaN color -> hexToRgb (rgbToHex color) = None.
Proof.
  destruct color as [[cr |] [cg |] [cb |]]; unfold hasNaN; cbn [r g b];
    intros Hnan; [intuition discriminate | ..];
    unfold rgbToHex, hexToRgb; cbn [r g b];
    repeat match goal with
           | |- context [toHex (Num.Int ?z)] =>
               let c1 := fresh "c" in
               let c2 := fresh "c" in
               destruct (toHex_two z) as (c1 & c2 & ->)
           end;
    reflexivity.
Qed.

(** X1.  Whatever the integers in its channels, [rgbToHex] writes seven
    characters and [hexToRgb] reads them back as the colour with every
    channel clamped to 0..255; a colour with a [NaN] channel is written as
    a string that [hexToRgb] rejects. *)
Theorem hexToRgb_rgbToHex_clamped (red green blue : Z) (color : ColorRGB) :
  String.length (rgbToHex (mkRGB red green blue)) = 7%nat
  /\ hexToRgb (rgbToHex (mkRGB red green blue))
     = Some (mkRGB (clamp255 red) (clamp255 green) (clamp255 blue))
  /\ (hasNaN color -> hexToRgb (rgbToHex color) = None).
Proof.
  destruct (rgbToHex_parse red green blue) as [Hlen Hparse].
  split; [exact Hlen |]. split; [exact Hparse | apply rgbToHex_NaN].
Qed.

Lemma hexToRgb_rgbToHex_clamped_witness :
  hexToRgb (rgbToHex (mkRGB 250 Num.NaN Num.NaN)) = None.
Proof.
  apply (hexToRgb_rgbToHex_clamped 0 0 0 (mkRGB 250 Num.NaN Num.NaN)).
  right. left. reflexivity.
Defined.

Lemma hexValue_range (c : ascii) :
  isHexClass c = true -> 0 <= hexValue c <= 15.
Proof.
  intros Hc. apply isHexClass_spec in Hc. unfold isHexDigit in Hc.
  unfold hexValue. generalize dependent (code c). intros n Hn.
  destruct (Z.leb_spec 48 n), (Z.leb_spec n 57); cbn [andb]; try lia;
    destruct (Z.leb_spec 97 n), (Z.leb_spec n 102); cbn [andb]; try lia;
    destruct (Z.leb_spec 65 n), (Z.leb_spec n 70); cbn [andb]; lia.
Qed.

Lemma parseInt16_pair_range (c1 c2 : ascii) :
  isHexClass c1 = true -> isHexClass c2 = true ->
  0 <= parseInt16 (String c1 (String c2 "")) <= 255.
Proof.
  intros H1 H2. apply hexValue_range in H1, H2.
  unfold parseInt16. cbn [list_ascii_of_string fold_left]. lia.
Qed.

Lemma matchGroups_eightBit (s g1 g2 g3 : string) :
  matchGroups s = Some (g1, g2, g3) ->
  eightBit (mkRGB (parseInt16 g1) (parseInt16 g2) (parseInt16 g3)).
Proof.
  destruct s as [| c1 [| c2 [| c3 [| c4 [| c5 [| c6 [| c7 rest]]]]]]];
    cbn [matchGroups]; try discriminate.
  destruct (forallb isHexClass [c1; c2; c3; c4; c5; c6]) eqn:Hall;
    [| discriminate].
  intros [= <- <- <-]. cbn [forallb] in Hall.
  repeat (apply andb_prop in Hall as [? Hall]).
  eexists _, _, _. split; [reflexivity |].
  repeat split; apply parseInt16_pair_range; assumption.
Qed.

Lemma hexRegexExec_groups (hex : string) (m : string * string * string) :
  hexRegexExec hex = Some m -> exists s : string, matchGroups s = Some m.
Proof.
  destruct hex as [| c rest]; [discriminate |].
  destruct (Ascii.eqb_spec c "#") as [-> | Hc].
  - cbn [hexRegexExec]. destruct (matchGroups rest) as [m' |] eqn:Hrest.
    + intros [= <-]. now exists rest.
    + rewrite matchGroups_hash. discriminate.
  - intros H. exists (String c rest). unfold hexRegexExec in H.
    destruct c as [[] [] [] [] [] [] [] []]; try exact H. congruence.
Qed.

(** X2.  A colour that [hexToRgb] returns has three integer channels
    between 0 and 255, and writing it with [rgbToHex] and parsing again
    gives the same colour. *)
Theorem hexToRgb_eightBit (hex : string) (color : ColorRGB) :
  hexToRgb hex = Some color ->
  eightBit color /\ hexToRgb (rgbToHex color) = Some color.
Proof.
  intros Hparse.
  assert (Hrange : eightBit color).
  { unfold hexToRgb in Hparse.
    destruct (hexRegexExec hex) as [[[g1 g2] g3] |] eqn:Hexec;
      [| discriminate].
    injection Hparse as <-.
    destruct (hexRegexExec_groups hex _ Hexec) as (s & Hs).
    now apply (matchGroups_eightBit s). }
  split; [exact Hrange |].
  destruct Hrange as (cr & cg & cb & -> & Hr & Hg & Hb).
  destruct (rgbToHex_parse cr cg cb) as [_ ->].
  unfold clamp255. do 2 f_equal; f_equal; lia.
Qed.

Lemma hexToRgb_eightBit_witness :
  eightBit (mkRGB 236 72 153)
  /\ hexToRgb (rgbToHex (mkRGB 236 72 153)) = Some (mkRGB 236 72 153).
Proof.
  apply (hexToRgb_eightBit "#EC4899" (mkRGB 236 72 153)). reflexivity.
Defined.


Lemma calculateColorDifference_NaN (c1 c2 : ColorRGB) :
  calculateColorDifference c1 c2 = Num.NaN <-> hasNaN c1 \/ hasNaN c2.
Proof.
  unfold hasNaN.
  destruct c1 as [[r1 |] [g1 |] [b1 |]], c2 as [[r2 |] [g2 |] [b2 |]];
    cbn; intuition discriminate.
Qed.



(** X4.  The brightness of a colour with 8-bit channels is a double
    between 0 and 255 that is at most 2^-43 away from the exact luminance
    [(299 r + 587 g + 114 b) / 1000]. *)
Theorem calculateBrightness_range (red green blue : Z) :
  0 <= red <= 255 -> 0 <= green <= 255 -> 0 <= blue <= 255 ->
  exists q : Q,
    calculateBrightness (mkRGB red green blue) = F64.Finite q
    /\ (0 <= q)%Q /\ (q <= 255)%Q
    /\ (inject_Z (luminance1000 red green blue) / 1000 - (1 # 8796093022208)
        <= q)%Q
    /\ (q <= inject_Z (luminance1000 red green blue) / 1000
             + (1 # 8796093022208))%Q.
Proof. apply calculateBrightness_accuracy. Qed.

Lemma calculateBrightness_range_witness :
  exists q : Q,
    calculateBrightness (mkRGB 107 70 193) = F64.Finite q
    /\ (0 <= q)%Q /\ (q <= 255)%Q
    /\ (inject_Z (luminance1000 107 70 193) / 1000 - (1 # 8796093022208)
        <= q)%Q
    /\ (q <= inject_Z (luminance1000 107 70 193) / 1000
             + (1 # 8796093022208))%Q.
Proof.
  apply (calculateBrightness_range 107 70 193); lia.
Defined.

(** The weights are doubles, and so are the products and the sums: the
    brightness of the grey [(175, 175, 175)] is the double just below
    175, not 175. *)
Example calculateBrightness_grey :
  exists q : Q,
    calculateBrightness (mkRGB 175 175 175) = F64.Finite q
    /\ (q < 175)%Q /\ (175 - (1 # 8796093022208) <= q)%Q.
Proof.
  eexists. split; [vm_compute; reflexivity |]. split; reflexivity || discriminate.
Qed.

End MoreUtils.

(** ** More on the perceptual filter *)

Lemma padLoop_step (filtered : list ColorRGB) (targetCount : Z) :
  ColorExtractor.padLoop filtered targetCount =
  if JS.len filtered <? targetCount
  then ColorExtractor.padLoop
         (JS.push filtered (ColorExtractor.padColor filtered)) targetCount
  else filtered.
Proof. exact (padLoop_unfold filtered targetCount). Qed.

Section MoreFilterProofs.
Import JS Utils ColorExtractor Spec More MoreFilter.

Lemma isColorUnique_Forall (color : ColorRGB) (existing : list ColorRGB)
      (threshold : Z) :
  isColorUnique color existing threshold = true <->
  Forall (fun e => Num.ltb (calculateColorDifference color e) threshold = false)
         existing.
Proof.
  unfold isColorUnique. rewrite negb_true_iff. split.
  - intros Hex. apply Forall_forall. intros e He.
    destruct (Num.ltb (calculateColorDifference color e) threshold) eqn:Hlt;
      [| reflexivity].
    assert (existsb
              (fun x => Num.ltb (calculateColorDifference color x) threshold)
              existing = true); [| congruence].
    apply existsb_exists. now exists e.
  - intros Hall. rewrite Forall_forall in Hall.
    destruct (existsb _ existing) eqn:Hex; [| reflexivity].
    apply existsb_exists in Hex as (e & He & Hlt).
    specialize (Hall e He). cbv beta in Hall. congruence.
Qed.

(** [diff < threshold] is false when the difference is [NaN] or an
    integer that is not below the threshold. *)
Lemma ltb_difference (color e : ColorRGB) (threshold : Z) :
  Num.ltb (calculateColorDifference color e) threshold = false <->
  match channels color, channels e with
  | Some p, Some q => threshold <= manhattan p q
  | _, _ => True
  end.
Proof.
  destruct (channels color) as [p |] eqn:Hp.
  - destruct (channels e) as [q |] eqn:Hq.
    + rewrite (calculateColorDifference_manhattan color e p q Hp Hq).
      cbn [Num.ltb]. apply Z.ltb_ge.
    + assert (Hnan : calculateColorDifference color e = Num.NaN).
      { apply calculateColorDifference_NaN. right.
        destruct e as [[r2 |] [g2 |] [b2 |]]; try discriminate;
          unfold hasNaN; cbn; auto. }
      rewrite Hnan. now split.
  - assert (Hnan : calculateColorDifference color e = Num.NaN).
    { apply calculateColorDifference_NaN. left.
      destruct color as [[r1 |] [g1 |] [b1 |]]; try discriminate;
        unfold hasNaN; cbn; auto. }
    rewrite Hnan. now split.
Qed.

Lemma isColorUnique_self (color : ColorRGB) (existing : list ColorRGB)
      (threshold : Z) :
  0 < threshold -> numeric color -> In color existing ->
  isColorUnique color existing threshold = false.
Proof.
  intros Hpos (r0 & g0 & b0 & ->) Hin.
  destruct (isColorUnique _ existing threshold) eqn:Hu; [| reflexivity].
  apply isColorUnique_Forall in Hu. rewrite Forall_forall in Hu.
  specialize (Hu _ Hin). cbv beta in Hu.
  unfold calculateColorDifference in Hu. cbn in Hu.
  apply Z.ltb_ge in Hu. lia.
Qed.

Lemma isColorUnique_NaN (color : ColorRGB) (existing : list ColorRGB)
      (threshold : Z) :
  hasNaN color -> isColorUnique color existing threshold = true.
Proof.
  intros Hnan. apply isColorUnique_Forall, Forall_forall. intros e _.
  assert (E : calculateColorDifference color e = Num.NaN)
    by (apply calculateColorDifference_NaN; now left).
  now rewrite E.
Qed.

(** X5.  A colour counts as unique exactly when no existing colour is
    nearer to it than the threshold, a colour with a [NaN] channel being
    near to nothing.  So for a positive threshold a colour with integer
    channels is not unique against a list that already holds it, while a
    colour with a [NaN] channel is unique against every list. *)
Theorem isColorUnique_spec (color : ColorRGB) (existing : list ColorRGB)
        (threshold : Z) :
  (isColorUnique color existing threshold = true <->
   forall e, In e existing ->
     match channels color, channels e with
     | Some p, Some q => threshold <= manhattan p q
     | _, _ => True
     end)
  /\ (0 < threshold -> numeric color -> In color existing ->
      isColorUnique color existing threshold = false)
  /\ (hasNaN color -> isColorUnique color existing threshold = true).
Proof.
  split; [| split].
  - rewrite isColorUnique_Forall, Forall_forall. split.
    + intros H e He. apply ltb_difference. now apply H.
    + intros H e He. apply ltb_difference. now apply H.
  - apply isColorUnique_self.
  - apply isColorUnique_NaN.
Qed.

Lemma isColorUnique_spec_witness :
  isColorUnique pink [purple; pink] 80 = false
  /\ isColorUnique (mkRGB 250 250 Num.NaN) [mkRGB 250 250 Num.NaN] 80 = true.
Proof.
  split.
  - apply (isColorUnique_spec pink [purple; pink] 80); [lia | |].
    + now eexists _, _, _.
    + right. left. reflexivity.
  - apply (isColorUnique_spec (mkRGB 250 250 Num.NaN)
             [mkRGB 250 250 Num.NaN] 80).
    right. right. reflexivity.
Defined.

Lemma padLoop_done (filtered : list ColorRGB) (targetCount : Z) :
  targetCount <= len filtered -> padLoop filtered targetCount = filtered.
Proof.
  intros Hge. rewrite padLoop_step.
  replace (len filtered <? targetCount) with false; [reflexivity |].
  symmetry. apply Z.ltb_ge. exact Hge.
Qed.

Lemma filterColors_degenerate (colors : list ColorRGB) (targetCount : Z) :
  targetCount <= 0 -> filterColors colors targetCount = [].
Proof.
  intros Hn. unfold filterColors.
  pose proof (filterLoop_degenerate colors targetCount ltac:(lia)) as Hshort.
  set (filtered := filterLoop colors targetCount []) in *.
  rewrite padLoop_done by (unfold len; lia).
  unfold slice, relIndex. cbn [Z.ltb Z.compare Z.min skipn Z.to_nat].
  replace (Z.min 0 (len filtered)) with 0 by (unfold len; lia).
  destruct (targetCount <? 0) eqn:Hneg.
  - replace (Z.max (len filtered + targetCount) 0) with 0
      by (apply Z.ltb_lt in Hneg; unfold len; lia).
    reflexivity.
  - apply Z.ltb_ge in Hneg.
    replace (Z.min targetCount (len filtered)) with 0 by (unfold len; lia).
    reflexivity.
Qed.

(** X6.  For a requested count of zero or less [filterColors] returns
    the empty list, whatever the candidates. *)
Theorem filterColors_nonpositive (colors : list ColorRGB) (targetCount : Z) :
  targetCount <= 0 -> filterColors colors targetCount = [].
Proof. apply filterColors_degenerate. Qed.

Lemma filterColors_nonpositive_witness :
  filterColors [mkRGB 100 100 100; mkRGB 200 50 50] (-1) = [].
Proof.
  apply (filterColors_nonpositive [mkRGB 100 100 100; mkRGB 200 50 50] (-1)).
  lia.
Defined.

(** The brightness test in doubles lets an 8-bit colour through only if
    its exact luminance is between 40 and 200: the doubles are nearer to
    the exact values than these are to the next multiple of 1/1000. *)
Lemma passesBand_inBand (color : ColorRGB) :
  eightBit color -> passesBand color = true -> inBand color.
Proof.
  intros (r0 & g0 & b0 & -> & Hr & Hg & Hb) Hpass.
  exists r0, g0, b0. split; [reflexivity |].
  destruct (calculateBrightness_accuracy r0 g0 b0 Hr Hg Hb)
    as (q & Eq & _ & _ & Hlo & Hhi).
  unfold passesBand in Hpass. rewrite Eq in Hpass.
  replace (F64.lit 40) with (F64.Finite 40) in Hpass
    by (vm_compute; reflexivity).
  replace (F64.lit 200) with (F64.Finite 200) in Hpass
    by (vm_compute; reflexivity).
  unfold F64.gtb, F64.ltb in Hpass.
  apply negb_true_iff, orb_false_iff in Hpass as [H40 H200].
  apply negb_false_iff, Qle_bool_iff in H40, H200.
  set (n := luminance1000 r0 g0 b0) in *. clearbody n.
  assert (Hn : (inject_Z n / 1000 == inject_Z n * (1 # 1000))%Q)
    by (unfold Qdiv; reflexivity).
  split.
  - assert (H : (inject_Z 39999 < inject_Z n)%Q).
    { change (inject_Z 39999) with 39999%Q. lra. }
    rewrite <- Zlt_Qlt in H. lia.
  - assert (H : (inject_Z n < inject_Z 200001)%Q).
    { change (inject_Z 200001) with 200001%Q. lra. }
    rewrite <- Zlt_Qlt in H. lia.
Qed.

Lemma Subseq_nil_l {A} (ys : list A) : Subseq [] ys.
Proof. induction ys; constructor; assumption. Qed.

(** One round of the scan. *)
Lemma filterLoop_cons (color : ColorRGB) (rest : list ColorRGB)
      (targetCount : Z) (filtered : list ColorRGB) :
  filterLoop (color :: rest) targetCount filtered
  = if passesBand color then
      let filtered' :=
        if isColorUnique color filtered 80 then push filtered color
        else filtered in
      if len filtered' >=? targetCount then filtered'
      else filterLoop rest targetCount filtered'
    else filterLoop rest targetCount filtered.
Proof.
  cbn [filterLoop]. unfold passesBand.
  destruct (F64.ltb _ _ || F64.gtb _ _); reflexivity.
Qed.

(** What the scan adds to the array it starts from. *)
Lemma filterLoop_picks (colors : list ColorRGB) :
  forall (targetCount : Z) (filtered : list ColorRGB),
  exists picked : list ColorRGB,
    filterLoop colors targetCount filtered = filtered ++ picked
    /\ Subseq picked colors
    /\ taken filtered picked = true.
Proof.
  induction colors as [| color rest IH]; intros targetCount filtered.
  - exists []. cbn [filterLoop taken]. rewrite app_nil_r.
    split; [reflexivity |]. split; [apply Subseq_nil | reflexivity].
  - rewrite filterLoop_cons.
    destruct (passesBand color) eqn:Hpass; cbv zeta.
    + destruct (isColorUnique color filtered 80) eqn:Hu.
      * destruct (len (push filtered color) >=? targetCount).
        -- exists [color]. split; [reflexivity |].
           split; [apply Subseq_take, Subseq_nil_l |].
           cbn [taken]. rewrite Hpass, Hu. reflexivity.
        -- destruct (IH targetCount (push filtered color))
             as (picked & E & Hsub & Hall).
           exists (color :: picked). rewrite E. unfold push.
           rewrite <- app_assoc.
           split; [reflexivity |]. split; [apply Subseq_take, Hsub |].
           cbn [taken]. rewrite Hpass, Hu. exact Hall.
      * destruct (len filtered >=? targetCount).
        -- exists []. rewrite app_nil_r. split; [reflexivity |].
           split; [apply Subseq_nil_l | reflexivity].
        -- destruct (IH targetCount filtered) as (picked & E & Hsub & Hall).
           exists picked. split; [exact E |].
           split; [apply Subseq_skip, Hsub | exact Hall].
    + destruct (IH targetCount filtered) as (picked & E & Hsub & Hall).
      exists picked. split; [exact E |].
      split; [apply Subseq_skip, Hsub | exact Hall].
Qed.

Lemma taken_passesBand (l : list ColorRGB) :
  forall pre : list ColorRGB,
    taken pre l = true -> Forall (fun c => passesBand c = true) l.
Proof.
  induction l as [| c rest IH]; intros pre H; [constructor |].
  cbn [taken] in H. apply andb_prop in H as [H Hrest].
  apply andb_prop in H as [Hpass _].
  constructor; [exact Hpass | now apply (IH (push pre c))].
Qed.

(** X7.  The colours that [filterColors] keeps ahead of its padding are
    candidates, in the order of the candidates; each passed the
    brightness test of the scan, and each of them with 8-bit channels
    has an exact luminance between 40 and 200. *)
Theorem filterColors_accepted (colors : list ColorRGB) (targetCount : Z) :
  1 <= targetCount ->
  exists accepted : list ColorRGB,
    filterColors colors targetCount
    = accepted ++ padding accepted targetCount
    /\ Subseq accepted colors
    /\ Forall (fun c => passesBand c = true /\ (eightBit c -> inBand c))
              accepted.
Proof.
  intros Hn. exists (filterLoop colors targetCount []).
  split; [now apply filterColors_decompose |].
  destruct (filterLoop_picks colors targetCount []) as (picked & E & Hsub & Hall).
  cbn [app] in E. rewrite E. split; [exact Hsub |].
  apply taken_passesBand in Hall.
  eapply Forall_impl; [| exact Hall]. cbv beta. intros c Hc.
  split; [exact Hc |]. intros Hbit. now apply passesBand_inBand.
Qed.

Lemma filterColors_accepted_witness :
  exists accepted : list ColorRGB,
    filterColors [mkRGB 0 0 0; mkRGB 100 100 100; mkRGB 200 50 50] 3
    = accepted ++ padding accepted 3
    /\ Subseq accepted [mkRGB 0 0 0; mkRGB 100 100 100; mkRGB 200 50 50]
    /\ Forall (fun c => passesBand c = true /\ (eightBit c -> inBand c))
              accepted.
Proof.
  apply (filterColors_accepted
           [mkRGB 0 0 0; mkRGB 100 100 100; mkRGB 200 50 50] 3).
  lia.
Defined.

(** At the edges of the band the doubles decide: the exact luminance of
    [(14, 48, 67)] is 40, its brightness is the double just below 40, and
    the scan drops it; a colour with a [NaN] channel has no brightness
    to compare, and the scan keeps it. *)
Example filterColors_band_edge :
  luminance1000 14 48 67 = 40000
  /\ passesBand (mkRGB 14 48 67) = false
  /\ filterColors [mkRGB 14 48 67] 1 = [purple]
  /\ passesBand (mkRGB 250 250 Num.NaN) = true
  /\ filterColors [mkRGB 250 250 Num.NaN] 1 = [mkRGB 250 250 Num.NaN].
Proof. repeat split; vm_compute; reflexivity. Qed.

End MoreFilterProofs.

Section FilterIdempotent.
Import JS Utils ColorExtractor Spec More MoreFilter.

Lemma band_purple : passesBand purple = true.
Proof. vm_compute. reflexivity. Qed.

Lemma band_pink : passesBand pink = true.
Proof. vm_compute. reflexivity. Qed.

Lemma isColorUnique_pink (existing : list ColorRGB) :
  In pink existing -> isColorUnique pink existing 80 = false.
Proof.
  apply isColorUnique_self; [lia |]. now eexists _, _, _.
Qed.

(** Scanning colours that an earlier scan took takes them again. *)
Lemma filterLoop_replay (l : list ColorRGB) :
  forall (more pre : list ColorRGB) (targetCount : Z),
    taken pre l = true ->
    len (pre ++ l) <= targetCount ->
    l <> [] \/ len pre < targetCount ->
    filterLoop (l ++ more) targetCount pre
    = if len (pre ++ l) <? targetCount
      then filterLoop more targetCount (pre ++ l)
      else pre ++ l.
Proof.
  induction l as [| c rest IH]; intros more pre targetCount Htaken Hlen Hne.
  - destruct Hne as [Hne | Hlt]; [congruence |].
    rewrite app_nil_r. cbn [app].
    replace (len pre <? targetCount) with true
      by (symmetry; now apply Z.ltb_lt).
    reflexivity.
  - cbn [taken] in Htaken. apply andb_prop in Htaken as [Hc Hrest].
    apply andb_prop in Hc as [Hpass Hu].
    cbn [app]. rewrite filterLoop_cons, Hpass, Hu. cbv zeta.
    rewrite len_app in Hlen.
    assert (Hlen_c : len (c :: rest) = 1 + len rest)
      by (unfold len; cbn [List.length]; lia).
    pose proof (len_nonneg rest) as Hrest0.
    destruct (len (push pre c) >=? targetCount) eqn:Hge.
    + rewrite Z.geb_leb in Hge. apply Z.leb_le in Hge.
      rewrite len_push in Hge.
      assert (rest = []) as ->.
      { destruct rest; [reflexivity |].
        unfold len in *. cbn [List.length] in *. lia. }
      replace (len (pre ++ [c]) <? targetCount) with false; [reflexivity |].
      symmetry. apply Z.ltb_ge. rewrite len_app. unfold len at 2. simpl. lia.
    + rewrite Z.geb_leb in Hge. apply Z.leb_gt in Hge.
      unfold push in *.
      rewrite (IH more (pre ++ [c]) targetCount).
      * rewrite <- app_assoc. reflexivity.
      * exact Hrest.
      * rewrite <- app_assoc, len_app. cbn [app]. lia.
      * right. exact Hge.
Qed.

(** Once pink is in the array, further pinks are passed over. *)
Lemma filterLoop_pinks_seen (k : nat) :
  forall (filtered : list ColorRGB) (targetCount : Z),
    In pink filtered ->
    filterLoop (repeat pink k) targetCount filtered = filtered.
Proof.
  induction k as [| k IH]; intros filtered targetCount Hin; [reflexivity |].
  cbn [repeat]. rewrite filterLoop_cons, band_pink.
  rewrite (isColorUnique_pink filtered Hin). cbv zeta.
  destruct (len filtered >=? targetCount); [reflexivity | now apply IH].
Qed.

Lemma filterLoop_pinks (k : nat) :
  forall (filtered : list ColorRGB) (targetCount : Z),
    filterLoop (repeat pink k) targetCount filtered = filtered
    \/ filterLoop (repeat pink k) targetCount filtered = filtered ++ [pink].
Proof.
  induction k as [| k IH]; intros filtered targetCount; [now left |].
  cbn [repeat]. rewrite filterLoop_cons, band_pink.
  destruct (isColorUnique pink filtered 80); cbv zeta.
  - right. destruct (len (push filtered pink) >=? targetCount);
      [reflexivity |].
    apply filterLoop_pinks_seen. unfold push. apply in_or_app. right.
    now left.
  - destruct (len filtered >=? targetCount); [now left | apply IH].
Qed.

(** Padding after a scan over pinks gives the same as padding before it. *)
Lemma pad_after_pinks (filtered res : list ColorRGB) (targetCount : Z) :
  filtered <> [] ->
  len filtered < targetCount ->
  res = filtered \/ res = filtered ++ [pink] ->
  res ++ padding res targetCount
  = filtered ++ repeat pink (Z.to_nat (targetCount - len filtered)).
Proof.
  intros Hne Hlt [-> | ->].
  - unfold padding. replace (len filtered <? targetCount) with true
      by (symmetry; now apply Z.ltb_lt).
    destruct filtered; [congruence | reflexivity].
  - unfold padding. rewrite len_app.
    replace (len [pink]) with 1 by reflexivity.
    replace (Z.to_nat (targetCount - len filtered))
      with (S (Z.to_nat (targetCount - (len filtered + 1)))) by lia.
    rewrite <- app_assoc. cbn [app repeat].
    destruct (len filtered + 1 <? targetCount) eqn:Hroom.
    + destruct filtered; [congruence | reflexivity].
    + apply Z.ltb_ge in Hroom.
      replace (targetCount - (len filtered + 1)) with 0 by lia.
      reflexivity.
Qed.

(** X8.  Filtering is idempotent: running [filterColors] on its own
    result with the same count returns that result unchanged. *)
Theorem filterColors_idempotent (colors : list ColorRGB) (targetCount : Z) :
  filterColors (filterColors colors targetCount) targetCount
  = filterColors colors targetCount.
Proof.
  destruct (Z_lt_le_dec targetCount 1) as [Hsmall | Hn].
  - rewrite !filterColors_degenerate by lia. reflexivity.
  - rewrite (filterColors_decompose colors targetCount Hn).
    set (acc := filterLoop colors targetCount []).
    assert (Htaken : taken [] acc = true).
    { destruct (filterLoop_picks colors targetCount [])
        as (picked & E & _ & Hall).
      cbn [app] in E. subst acc. now rewrite E. }
    assert (Hlen : len acc <= targetCount).
    { apply filterLoop_len. unfold len. simpl. lia. }
    rewrite (filterColors_decompose _ targetCount Hn).
    rewrite (filterLoop_replay acc (padding acc targetCount) [] targetCount
               Htaken Hlen); [| right; unfold len; simpl; lia].
    cbn [app].
    destruct (len acc <? targetCount) eqn:Hroom.
    + apply Z.ltb_lt in Hroom. destruct acc as [| c rest] eqn:Eacc.
      * unfold padding at 1 3. rewrite (proj2 (Z.ltb_lt _ _) Hroom).
        unfold padding at 2. rewrite (proj2 (Z.ltb_lt _ _) Hroom).
        rewrite filterLoop_cons, band_purple.
        cbn [isColorUnique existsb negb push app]. cbv zeta.
        destruct (len [purple] >=? targetCount) eqn:Hge.
        -- rewrite Z.geb_leb in Hge. apply Z.leb_le in Hge.
           unfold len in Hge. simpl in Hge.
           replace targetCount with 1 by lia. reflexivity.
        -- rewrite Z.geb_leb in Hge. apply Z.leb_gt in Hge.
           rewrite (pad_after_pinks [purple] _ targetCount);
             [reflexivity | discriminate | exact Hge
             | apply filterLoop_pinks].
      * assert (Hpad : padding (c :: rest) targetCount
                       = repeat pink
                           (Z.to_nat (targetCount - len (c :: rest)))).
        { unfold padding. now rewrite (proj2 (Z.ltb_lt _ _) Hroom). }
        rewrite Hpad.
        apply pad_after_pinks;
          [discriminate | exact Hroom | apply filterLoop_pinks].
    + apply Z.ltb_ge in Hroom. unfold padding.
      replace (len acc <? targetCount) with false
        by (symmetry; now apply Z.ltb_ge).
      now rewrite app_nil_r.
Qed.

End FilterIdempotent.

(** ** More on harmony and mood *)

Section MoreHarmony.
Import JS Utils Spec More.

Lemma pairHarmony_sym (a c : ColorRGB) : pairHarmony (a, c) = pairHarmony (c, a).
Proof.
  unfold pairHarmony. cbn [fst snd].
  destruct (channels a) as [p |], (channels c) as [q |]; try reflexivity.
  now rewrite manhattan_sym.
Qed.

(** X9.  The harmony of two colours does not depend on their order.
    With three colours it can: the scores are added up in the order of
    the pairs, the sums are rounded, and two orders of the same three
    colours give two doubles that differ in the last bit. *)
Theorem calculateHarmony_order (a c : ColorRGB) :
  calculateHarmony [a; c] = calculateHarmony [c; a]
  /\ Permutation [mkRGB 0 64 128; mkRGB 128 0 64; mkRGB 0 0 0]
                 [mkRGB 0 0 0; mkRGB 0 64 128; mkRGB 128 0 64]
  /\ calculateHarmony [mkRGB 0 64 128; mkRGB 128 0 64; mkRGB 0 0 0]
     = F64.Finite (2602079784702953 # 4503599627370496)
  /\ calculateHarmony [mkRGB 0 0 0; mkRGB 0 64 128; mkRGB 128 0 64]
     = F64.Finite (5204159569405907 # 9007199254740992).
Proof.
  split.
  - rewrite !calculateHarmony_average by (simpl; lia).
    cbn [allPairs map app]. now rewrite pairHarmony_sym.
  - split.
    + apply Permutation_sym, (Permutation_cons_app [_; _] []).
      apply Permutation_refl.
    + split; vm_compute; reflexivity.
Qed.

End MoreHarmony.

Section MoreMoodProofs.
Import JS Utils Spec More MoreMood.

(** The average brightness inside [buildWaveResult] is the one inside
    [analyzeColorMood]. *)
Lemma brightness_sum (colors : list ColorRGB) :
  forall acc : F64.t,
    fold_left
      (fun sum color =>
         (sum + (F64.lit 0.299 * F64.ofNum (r color)
                 + F64.lit 0.587 * F64.ofNum (g color)
                 + F64.lit 0.114 * F64.ofNum (b color)))%f64)
      colors acc
    = fold_left F64.add (map luminance colors) acc.
Proof.
  induction colors as [| c rest IH]; intros acc; cbn [fold_left map];
    [reflexivity |].
  rewrite IH. f_equal. f_equal. exact (calculateBrightness_luminance c).
Qed.

Lemma detectIntensity_average (colors : list ColorRGB) :
  Song.detectIntensity colors
  = intensityTable (average (map luminance colors)).
Proof.
  unfold Song.detectIntensity, intensityTable, average, sum.
  rewrite brightness_sum. unfold len. now rewrite length_map.
Qed.

(** What is below 80 is below 100, and what is below 100 is not above
    180. *)
Lemma thresholds_ordered (x : F64.t) :
  (F64.ltb x (F64.lit 80) = true -> F64.ltb x (F64.lit 100) = true)
  /\ (F64.ltb x (F64.lit 100) = true -> F64.gtb x (F64.lit 180) = false).
Proof.
  replace (F64.lit 80) with (F64.Finite 80) by (vm_compute; reflexivity).
  replace (F64.lit 100) with (F64.Finite 100) by (vm_compute; reflexivity).
  replace (F64.lit 180) with (F64.Finite 180) by (vm_compute; reflexivity).
  destruct x as [q | negative |]; unfold F64.gtb, F64.ltb.
  - rewrite !negb_true_iff, negb_false_iff. split.
    + intros H. destruct (Qle_bool 100 q) eqn:E; [| reflexivity].
      apply Qle_bool_iff in E.
      assert (Qle_bool 80 q = true) by (apply Qle_bool_iff; lra).
      congruence.
    + intros H. apply Qle_bool_iff.
      destruct (Qlt_le_dec 180 q) as [Hbig | Hsmall]; [| exact Hsmall].
      assert (Qle_bool 100 q = true) by (apply Qle_bool_iff; lra).
      congruence.
  - split; [auto |]. intros ->. reflexivity.
  - split; intros H; discriminate H.
Qed.

Lemma tables_agree (brightness saturation : F64.t) :
  In (moodTable brightness saturation) moodLabels
  /\ In (intensityTable brightness) intensityLabels
  /\ moodTable brightness saturation <> "neutral"
  /\ (moodTable brightness saturation = "energetic" ->
      intensityTable brightness = "energetic")
  /\ (moodTable brightness saturation = "calm"
      \/ moodTable brightness saturation = "dark" ->
      intensityTable brightness = "gentle").
Proof.
  destruct (thresholds_ordered brightness) as [H80 H100].
  unfold moodTable, intensityTable, moodLabels, intensityLabels.
  revert H80 H100.
  generalize (F64.gtb brightness (F64.lit 180)) (F64.ltb brightness (F64.lit 80))
    (F64.gtb brightness (F64.lit 150)) (F64.ltb brightness (F64.lit 100))
    (F64.gtb saturation (F64.lit 0.5)) (F64.ltb saturation (F64.lit 0.3))
    (F64.gtb saturation (F64.lit 0.7)).
  clear brightness saturation.
  intros [] [] [] [] [] [] [] H80 H100; cbn;
    repeat split; try tauto; try discriminate;
    try (intros [H | H]; discriminate H);
    try (specialize (H80 eq_refl); discriminate H80);
    try (specialize (H100 eq_refl); discriminate H100).
Qed.

(** X10.  The mood is one of seven labels and the intensity one of three;
    the mood is neutral exactly for an empty list; an energetic mood comes
    with an energetic intensity, and a calm or dark mood with a gentle
    one. *)
Theorem mood_and_intensity (colors : list ColorRGB) :
  In (analyzeColorMood colors) moodLabels
  /\ In (Song.detectIntensity colors) intensityLabels
  /\ (analyzeColorMood colors = "neutral" <-> colors = [])
  /\ (analyzeColorMood colors = "energetic" ->
      Song.detectIntensity colors = "energetic")
  /\ (analyzeColorMood colors = "calm" \/ analyzeColorMood colors = "dark" ->
      Song.detectIntensity colors = "gentle").
Proof.
  rewrite detectIntensity_average.
  destruct colors as [| color rest].
  - change (analyzeColorMood []) with "neutral".
    split; [cbn; tauto |].
    split; [vm_compute; tauto |].
    split; [tauto |].
    split; [discriminate |]. intros [H | H]; discriminate H.
  - rewrite analyzeColorMood_cons.
    destruct (tables_agree (average (map luminance (color :: rest)))
                (average (map saturation (color :: rest))))
      as (Hm & Hi & Hn & He & Hg).
    repeat split; try assumption; try discriminate.
    intros H. now apply Hn in H.
Qed.

Lemma mood_and_intensity_witness :
  Song.detectIntensity [mkRGB 10 10 10; mkRGB 60 60 60] = "gentle".
Proof.
  apply (mood_and_intensity [mkRGB 10 10 10; mkRGB 60 60 60]).
  left. vm_compute. reflexivity.
Defined.

End MoreMoodProofs.

(** ** More on the wave generator *)

Section MoreGenerator.
Import JS Utils Spec More.

Lemma slice_firstn {A} (arr : list A) (n : Z) :
  0 <= n -> slice arr 0 n = firstn (Z.to_nat n) arr.
Proof.
  intros Hn. pose proof (len_nonneg arr) as H0.
  unfold slice, relIndex.
  replace (0 <? 0) with false by reflexivity.
  replace (n <? 0) with false by (symmetry; apply Z.ltb_ge; lia).
  rewrite (Z.min_l 0) by lia. cbn [Z.to_nat skipn].
  rewrite Z.sub_0_r, Z.max_l by lia.
  destruct (Z_le_gt_dec n (len arr)) as [Hle | Hgt].
  - now rewrite Z.min_l by lia.
  - rewrite Z.min_r by lia. unfold len. rewrite Nat2Z.id.
    rewrite firstn_all. symmetry. apply firstn_all2. unfold len in Hgt. lia.
Qed.

(** For a negative end [slice] drops that many entries from the end. *)
Lemma slice_negative {A} (arr : list A) (n : Z) :
  n < 0 -> slice arr 0 n = firstn (List.length arr - Z.to_nat (- n)) arr.
Proof.
  intros Hn. pose proof (len_nonneg arr) as H0.
  unfold slice, relIndex.
  replace (0 <? 0) with false by reflexivity.
  replace (n <? 0) with true by (symmetry; apply Z.ltb_lt; lia).
  rewrite (Z.min_l 0) by lia. cbn [Z.to_nat skipn].
  rewrite Z.sub_0_r. f_equal. unfold len in *. lia.
Qed.

Lemma fillLoop_firstn (fallbacks : list string) :
  forall (result : list string) (colorCount : Z),
    WaveGenerator.fillLoop result fallbacks colorCount
    = result ++ firstn (Z.to_nat (colorCount - len result)) fallbacks.
Proof.
  induction fallbacks as [| first rest IH]; intros result colorCount;
    cbn [WaveGenerator.fillLoop].
  - now rewrite firstn_nil, app_nil_r.
  - destruct (len result <? colorCount) eqn:Hlt.
    + apply Z.ltb_lt in Hlt. rewrite IH, len_push. unfold push.
      rewrite <- app_assoc. cbn [app].
      replace (Z.to_nat (colorCount - len result))
        with (S (Z.to_nat (colorCount - (len result + 1)))) by lia.
      reflexivity.
    + apply Z.ltb_ge in Hlt.
      replace (Z.to_nat (colorCount - len result)) with 0%nat by lia.
      cbn [firstn]. now rewrite app_nil_r.
Qed.

Lemma ensureMinimumColors_firstn (this : WaveGenerator.t) (colors : list string) :
  0 <= WaveConfig.colorCount this ->
  WaveGenerator.ensureMinimumColors this colors
  = firstn (Z.to_nat (WaveConfig.colorCount this))
           (colors ++ WaveConfig.fallbackColors this).
Proof.
  intros Hcc. unfold WaveGenerator.ensureMinimumColors.
  set (cc := WaveConfig.colorCount this) in *.
  set (fb := WaveConfig.fallbackColors this).
  rewrite firstn_app.
  destruct (len colors >=? cc) eqn:Hge.
  - rewrite Z.geb_leb in Hge. apply Z.leb_le in Hge.
    rewrite slice_firstn by exact Hcc.
    replace (Z.to_nat cc - List.length colors)%nat with 0%nat
      by (unfold len in Hge; lia).
    cbn [firstn]. now rewrite app_nil_r.
  - rewrite Z.geb_leb in Hge. apply Z.leb_gt in Hge.
    rewrite slice_firstn by exact Hcc.
    rewrite fillLoop_firstn, firstn_app.
    replace (Z.to_nat (cc - len colors))
      with (Z.to_nat cc - List.length colors)%nat by (unfold len; lia).
    f_equal. apply firstn_all2. rewrite length_firstn. lia.
Qed.

(** X11.  For a count that is not negative, [ensureMinimumColors] returns
    the first [colorCount] entries of the given colours followed by the
    fallback colours: the given colours come first and fallbacks only fill
    up.  When colours and fallbacks together reach the count, the result
    has exactly that length, applying the function again changes nothing,
    and [generateCSS] gives the same gradient for the colours and for the
    filled-up colours.  For a negative count the function drops that many
    colours from the end. *)
Theorem ensureMinimumColors_spec (this : WaveGenerator.t) (colors : list string) :
  (0 <= WaveConfig.colorCount this ->
   WaveGenerator.ensureMinimumColors this colors
   = firstn (Z.to_nat (WaveConfig.colorCount this))
            (colors ++ WaveConfig.fallbackColors this))
  /\ (0 <= WaveConfig.colorCount this
                <= len colors + len (WaveConfig.fallbackColors this) ->
      len (WaveGenerator.ensureMinimumColors this colors)
      = WaveConfig.colorCount this
      /\ WaveGenerator.ensureMinimumColors this
           (WaveGenerator.ensureMinimumColors this colors)
         = WaveGenerator.ensureMinimumColors this colors
      /\ WaveGenerator.generateCSS this
           (WaveGenerator.ensureMinimumColors this colors)
         = WaveGenerator.generateCSS this colors)
  /\ (WaveConfig.colorCount this < 0 ->
      WaveGenerator.ensureMinimumColors this colors
      = firstn (List.length colors
                - Z.to_nat (- WaveConfig.colorCount this)) colors).
Proof.
  split; [apply ensureMinimumColors_firstn |]. split.
  - intros [Hcc Henough].
    assert (Hidem : WaveGenerator.ensureMinimumColors this
                      (WaveGenerator.ensureMinimumColors this colors)
                    = WaveGenerator.ensureMinimumColors this colors).
    { rewrite !ensureMinimumColors_firstn by exact Hcc.
      set (n := Z.to_nat (WaveConfig.colorCount this)).
      set (fb := WaveConfig.fallbackColors this) in *.
      assert (Hn : (n <= List.length (colors ++ fb))%nat)
        by (rewrite length_app; unfold len in Henough; lia).
      rewrite (firstn_app n (firstn n (colors ++ fb)) fb).
      rewrite firstn_firstn, Nat.min_id, length_firstn.
      rewrite Nat.min_l by exact Hn. rewrite Nat.sub_diag.
      cbn [firstn]. now rewrite app_nil_r. }
    split; [| split; [exact Hidem |]].
    + rewrite ensureMinimumColors_firstn by exact Hcc.
      unfold len in *. rewrite length_firstn, length_app. lia.
    + unfold WaveGenerator.generateCSS. now rewrite Hidem.
  - intros Hneg. unfold WaveGenerator.ensureMinimumColors.
    replace (len colors >=? WaveConfig.colorCount this) with true.
    + now apply slice_negative.
    + symmetry. rewrite Z.geb_leb. apply Z.leb_le.
      pose proof (len_nonneg colors). lia.
Qed.

Lemma ensureMinimumColors_spec_witness :
  WaveGenerator.ensureMinimumColors (WaveGenerator.new WaveConfig.empty)
    ["#111111"]
  = ["#111111"; "#6B46C1"]
  /\ WaveGenerator.generateCSS (WaveGenerator.new WaveConfig.empty)
       (WaveGenerator.ensureMinimumColors
          (WaveGenerator.new WaveConfig.empty) ["#111111"])
     = WaveGenerator.generateCSS (WaveGenerator.new WaveConfig.empty)
         ["#111111"]
  /\ WaveGenerator.ensureMinimumColors
       (WaveGenerator.updateConfig (WaveGenerator.new WaveConfig.empty)
          (WaveConfig.mk (F := Partial) None None None (Some (-1)) None None
             None))
       ["#111111"; "#222222"; "#333333"]
     = ["#111111"; "#222222"].
Proof.
  split; [| split].
  - apply (ensureMinimumColors_spec (WaveGenerator.new WaveConfig.empty)
             ["#111111"]).
    cbn. lia.
  - apply (ensureMinimumColors_spec (WaveGenerator.new WaveConfig.empty)
             ["#111111"]).
    cbn. lia.
  - apply (ensureMinimumColors_spec
             (WaveGenerator.updateConfig (WaveGenerator.new WaveConfig.empty)
                (WaveConfig.mk (F := Partial) None None None (Some (-1)) None
                   None None))
             ["#111111"; "#222222"; "#333333"]).
    cbn. lia.
Defined.

(** X13.  Updating with the empty configuration changes nothing, and
    updating twice with the same configuration is the same as updating
    once. *)
Theorem updateConfig_idempotent (this : WaveGenerator.t)
        (config : WaveConfig.t Partial) :
  WaveGenerator.updateConfig this WaveConfig.empty = this
  /\ WaveGenerator.updateConfig (WaveGenerator.updateConfig this config) config
     = WaveGenerator.updateConfig this config.
Proof.
  destruct this as [d0 t0 f0 c0 fs0 i0 w0]. split; [reflexivity |].
  destruct config as [d t f c fs i w].
  unfold WaveGenerator.updateConfig.
  cbn [WaveConfig.transition WaveConfig.flowSpeed WaveConfig.intensity
       WaveConfig.fallbackColors].
  destruct d, t as [[| tc tv] |], fs as [[| fc fv] |], i as [[| ic iv] |],
    f, c, w; reflexivity.
Qed.

End MoreGenerator.

(** ** Styling elements *)

Section MoreStyling.
Import JS Utils Spec More.
Variable env : Env.t.

Lemma applyToElement_frame (gen : WaveGenerator.t) (e e' : DOM.Element)
      (colors : list string) (w : DOM.World) :
  e' <> e ->
  DOM.styles (WaveGenerator.applyToElement env gen e colors w) e'
  = DOM.styles w e'.
Proof.
  intros Hne. apply Nat.eqb_neq in Hne.
  unfold WaveGenerator.applyToElement, WaveGenerator.addWaveEffects.
  repeat match goal with |- context [if ?c then _ else _] => destruct c end;
    cbn [DOM.restyle DOM.styles DOM.warn]; rewrite ?Hne; reflexivity.
Qed.

Lemma applyToElement_transition (gen : WaveGenerator.t) (e : DOM.Element)
      (colors : list string) (w : DOM.World) :
  Env.isBrowser env = true ->
  DOM.Style.transition
    (DOM.styles (WaveGenerator.applyToElement env gen e colors w) e)
  = Some (WaveConfig.transition gen).
Proof.
  intros Hb. unfold WaveGenerator.applyToElement, WaveGenerator.addWaveEffects.
  rewrite Hb. cbn [negb].
  repeat match goal with |- context [if String.eqb ?a ?b then _ else _] =>
    destruct (String.eqb a b) end;
    cbn [DOM.restyle DOM.styles]; rewrite !Nat.eqb_refl; reflexivity.
Qed.

Lemma applyToElement_rest (gen : WaveGenerator.t) (e : DOM.Element)
      (colors : list string) (w : DOM.World) :
  DOM.rootProperties (WaveGenerator.applyToElement env gen e colors w)
  = DOM.rootProperties w
  /\ DOM.waveAnimationSheet (WaveGenerator.applyToElement env gen e colors w)
     = DOM.waveAnimationSheet w.
Proof.
  unfold WaveGenerator.applyToElement, WaveGenerator.addWaveEffects.
  repeat match goal with |- context [if ?c then _ else _] => destruct c end;
    split; reflexivity.
Qed.

(** X14.  In a browser [applyToElement] sets the background of the element
    to the gradient of the colours and its transition to the configured
    one, and leaves the style of every other element as it was; outside a
    browser it changes no style and adds one warning to the console. *)
Theorem applyToElement_effect (gen : WaveGenerator.t) (e : DOM.Element)
        (colors : list string) (w : DOM.World) :
  (forall e', e' <> e ->
     DOM.styles (WaveGenerator.applyToElement env gen e colors w) e'
     = DOM.styles w e')
  /\ if Env.isBrowser env then
       DOM.Style.background
         (DOM.styles (WaveGenerator.applyToElement env gen e colors w) e)
       = Some (WaveGenerator.generateCSS gen colors)
       /\ DOM.Style.transition
            (DOM.styles (WaveGenerator.applyToElement env gen e colors w) e)
          = Some (WaveConfig.transition gen)
       /\ DOM.console (WaveGenerator.applyToElement env gen e colors w)
          = DOM.console w
     else
       DOM.styles (WaveGenerator.applyToElement env gen e colors w)
       = DOM.styles w
       /\ DOM.console (WaveGenerator.applyToElement env gen e colors w)
          = DOM.console w
             ++ ["Sóng: Cannot apply waves in non-browser environment"].
Proof.
  split; [intros e' Hne; now apply applyToElement_frame |].
  destruct (Env.isBrowser env) eqn:Hb.
  - split; [now apply applyToElement_browser |].
    split; [now apply applyToElement_transition |].
    unfold WaveGenerator.applyToElement, WaveGenerator.addWaveEffects.
    rewrite Hb. cbn [negb].
    repeat match goal with |- context [if ?c then _ else _] => destruct c end;
      reflexivity.
  - unfold WaveGenerator.applyToElement. rewrite Hb. split; reflexivity.
Qed.

Lemma applyToElements_fold (gen : WaveGenerator.t) (colors : list string)
      (elements : list DOM.Element) :
  forall (w : DOM.World) (e : DOM.Element),
    Env.isBrowser env = true ->
    let w' := fold_left
                (fun w element =>
                   WaveGenerator.applyToElement env gen element colors w)
                elements w in
    (In e elements ->
     DOM.Style.background (DOM.styles w' e)
     = Some (WaveGenerator.generateCSS gen colors))
    /\ (~ In e elements -> DOM.styles w' e = DOM.styles w e).
Proof.
  induction elements as [| x xs IH]; intros w e Hb; cbn [fold_left].
  - split; [intros [] | reflexivity].
  - destruct (IH (WaveGenerator.applyToElement env gen x colors w) e Hb)
      as [IHin IHout].
    split.
    + intros [-> | Hin].
      * destruct (in_dec Nat.eq_dec e xs) as [Hin | Hout]; [now apply IHin |].
        cbv zeta in IHout. rewrite (IHout Hout).
        now apply applyToElement_browser.
      * now apply IHin.
    + intros Hnot. cbv zeta in IHout. rewrite IHout.
      * apply applyToElement_frame. intros ->. apply Hnot. now left.
      * intros Hin. apply Hnot. now right.
Qed.

(** X15.  In a browser [applyToElements] gives every listed element the
    gradient of the colours as its background and leaves the style of
    every element that is not listed as it was. *)
Theorem applyToElements_effect (gen : WaveGenerator.t)
        (elements : list DOM.Element) (colors : list string)
        (w : DOM.World) (e : DOM.Element) :
  Env.isBrowser env = true ->
  (In e elements ->
   DOM.Style.background
     (DOM.styles (WaveGenerator.applyToElements env gen elements colors w) e)
   = Some (WaveGenerator.generateCSS gen colors))
  /\ (~ In e elements ->
      DOM.styles (WaveGenerator.applyToElements env gen elements colors w) e
      = DOM.styles w e).
Proof.
  intros Hb. unfold WaveGenerator.applyToElements. rewrite Hb. cbn [negb].
  exact (applyToElements_fold gen colors elements w e Hb).
Qed.

(** X16.  In a browser, enabling the wave animation leaves a keyframes
    sheet in the document: the one already there, or else the [songWave]
    keyframes; enabling again does not replace it and disabling does not
    remove it.  Disabling sets both the animation and the background
    size of the element to the empty string, whatever they were. *)
Theorem animation_effect (gen : WaveGenerator.t) (e : DOM.Element)
        (duration : string) (w : DOM.World) :
  Env.isBrowser env = true ->
  let enabled := WaveGenerator.enableWaveAnimation env gen e duration w in
  let disabled := WaveGenerator.disableWaveAnimation env gen e w in
  DOM.waveAnimationSheet enabled
  = Some (orElse (DOM.waveAnimationSheet w)
                 (WaveGenerator.createWaveAnimation "songWave"))
  /\ DOM.Style.animation (DOM.styles enabled e)
     = Some ("songWave " ++ duration ++ " ease-in-out infinite")%string
  /\ DOM.Style.backgroundSize (DOM.styles enabled e) = Some "200% 200%"
  /\ DOM.waveAnimationSheet disabled = DOM.waveAnimationSheet w
  /\ DOM.Style.animation (DOM.styles disabled e) = Some ""
  /\ DOM.Style.backgroundSize (DOM.styles disabled e) = Some ""
  /\ DOM.Style.background (DOM.styles disabled e)
     = DOM.Style.background (DOM.styles w e).
Proof.
  intros Hb enabled disabled. subst enabled disabled.
  unfold WaveGenerator.enableWaveAnimation, WaveGenerator.disableWaveAnimation.
  rewrite Hb. cbn [negb].
  destruct (DOM.waveAnimationSheet w) eqn:Hsheet;
    cbn [DOM.restyle DOM.styles DOM.waveAnimationSheet
         DOM.setWaveAnimationSheet orElse];
    rewrite ?Nat.eqb_refl, ?Hsheet; repeat split; reflexivity.
Qed.

End MoreStyling.

Lemma applyToElements_effect_witness :
  DOM.Style.background
    (DOM.styles
       (WaveGenerator.applyToElements Sample.online
          (WaveGenerator.new WaveConfig.empty) [1%nat; 2%nat]
          ["#111111"; "#222222"] DOM.initial) 2%nat)
  = Some "linear-gradient(to bottom right, #111111, #222222)"
  /\ DOM.styles
       (WaveGenerator.applyToElements Sample.online
          (WaveGenerator.new WaveConfig.empty) [1%nat; 2%nat]
          ["#111111"; "#222222"] DOM.initial) 3%nat
     = DOM.Style.initial.
Proof.
  split.
  - apply (applyToElements_effect Sample.online
             (WaveGenerator.new WaveConfig.empty) [1%nat; 2%nat]
             ["#111111"; "#222222"] DOM.initial 2%nat eq_refl).
    right. left. reflexivity.
  - apply (applyToElements_effect Sample.online
             (WaveGenerator.new WaveConfig.empty) [1%nat; 2%nat]
             ["#111111"; "#222222"] DOM.initial 3%nat eq_refl).
    intros [H | [H | []]]; discriminate H.
Defined.

Lemma animation_effect_witness :
  DOM.Style.animation
    (DOM.styles
       (WaveGenerator.disableWaveAnimation Sample.online
          (WaveGenerator.new WaveConfig.empty) 1%nat DOM.initial) 1%nat)
  = Some "".
Proof.
  apply (animation_effect Sample.online (WaveGenerator.new WaveConfig.empty)
           1%nat "10s" DOM.initial eq_refl).
Defined.

(** ** CSS custom properties *)

Section MoreVariablesProofs.
Import JS Utils Spec More MoreVariables.

Lemma eqb_append_l (p a c : string) :
  String.eqb (p ++ a) (p ++ c) = String.eqb a c.
Proof.
  induction p as [| x p IH]; cbn [String.append]; [reflexivity |].
  cbn [String.eqb]. now rewrite Ascii.eqb_refl.
Qed.

Lemma uint_roundtrip (d : Decimal.uint) :
  exists d' : Decimal.uint,
    NilZero.uint_of_string (NilZero.string_of_uint d) = Some d'
    /\ Nat.of_uint d' = Nat.of_uint d.
Proof.
  destruct d;
    try (eexists; split; [apply NilZero.usu; discriminate | reflexivity]).
  exists Decimal.zero. split; reflexivity.
Qed.

Lemma numToString_inj (a c : nat) : numToString a = numToString c -> a = c.
Proof.
  unfold numToString. intros H.
  destruct (uint_roundtrip (Nat.to_uint a)) as (da & Ha & Ea).
  destruct (uint_roundtrip (Nat.to_uint c)) as (dc & Hc & Ec).
  rewrite H in Ha. rewrite Ha in Hc. injection Hc as ->.
  rewrite <- (DecimalNat.Unsigned.of_to a), <- (DecimalNat.Unsigned.of_to c).
  congruence.
Qed.

Lemma colorKey_eqb (prefix : string) (i j : nat) :
  String.eqb (colorKey prefix i) (colorKey prefix j) = Nat.eqb i j.
Proof.
  unfold colorKey.
  rewrite (eqb_append_l "--"), (eqb_append_l prefix), (eqb_append_l "-color-").
  destruct (Nat.eqb_spec i j) as [-> | Hne].
  - apply String.eqb_refl.
  - apply String.eqb_neq. intros H. apply numToString_inj in H. lia.
Qed.

Lemma colorKey_not_config (prefix : string) (i : nat) (suffix : string) :
  In suffix ["-css"; "-transition"; "-direction"; "-type"] ->
  String.eqb (colorKey prefix i) ("--" ++ prefix ++ suffix) = false.
Proof.
  unfold colorKey. intros Hin.
  rewrite (eqb_append_l "--"), (eqb_append_l prefix).
  destruct Hin as [<- | [<- | [<- | [<- | []]]]]; reflexivity.
Qed.

Lemma assocSet_fresh {V} (k : string) (v : V) (m : list (string * V)) :
  assocGet k m = None -> assocSet k v m = m ++ [(k, v)].
Proof.
  induction m as [| [k' v'] rest IH]; cbn [assocGet assocSet app];
    [reflexivity |].
  destruct (String.eqb k k'); [discriminate |].
  intros H. now rewrite IH.
Qed.

Lemma assocGet_app {V} (k : string) (m1 m2 : list (string * V)) :
  assocGet k (m1 ++ m2)
  = match assocGet k m1 with
    | Some v => Some v
    | None => assocGet k m2
    end.
Proof.
  induction m1 as [| [k' v'] rest IH]; cbn [assocGet app]; [reflexivity |].
  destruct (String.eqb k k'); [reflexivity | exact IH].
Qed.

Lemma colorVariables_closed (prefix : string) (waveColors : list string) :
  forall (index : nat) (variables : list (string * string)),
    (forall j, (index <= j)%nat ->
               assocGet (colorKey prefix j) variables = None) ->
    WaveGenerator.colorVariables prefix waveColors index variables
    = variables ++ colorEntries prefix waveColors index.
Proof.
  induction waveColors as [| color rest IH]; intros index variables Hfresh;
    cbn [WaveGenerator.colorVariables colorEntries].
  - now rewrite app_nil_r.
  - change ("--" ++ prefix ++ "-color-" ++ numToString (index + 1))%string
      with (colorKey prefix index).
    rewrite assocSet_fresh by (apply Hfresh; lia).
    rewrite IH.
    + rewrite <- app_assoc. reflexivity.
    + intros j Hj. rewrite assocGet_app, Hfresh by lia.
      cbn [assocGet]. rewrite colorKey_eqb.
      replace (Nat.eqb j index) with false; [reflexivity |].
      symmetry. apply Nat.eqb_neq. lia.
Qed.

Lemma colorEntries_lookup (prefix : string) (waveColors : list string) :
  forall (index i : nat),
    assocGet (colorKey prefix (index + i))
             (colorEntries prefix waveColors index)
    = nth_error waveColors i.
Proof.
  induction waveColors as [| color rest IH]; intros index i;
    cbn [colorEntries assocGet].
  - now destruct i.
  - rewrite colorKey_eqb. destruct i as [| i].
    + rewrite Nat.add_0_r, Nat.eqb_refl. reflexivity.
    + replace (Nat.eqb (index + S i) index) with false
        by (symmetry; apply Nat.eqb_neq; lia).
      replace (index + S i)%nat with ((index + 1) + i)%nat by lia.
      apply IH.
Qed.

(** X17.  Whatever the prefix, [generateCSSVariables] returns, in this
    order, the gradient, the transition, the direction and the wave type
    under [--prefix-css], [--prefix-transition], [--prefix-direction] and
    [--prefix-type], followed by one entry [--prefix-color-N] per
    filled-up colour, numbered from 1; no assignment overwrites another,
    and the entry [--prefix-color-(i+1)] holds the colour at position
    [i]. *)
Theorem generateCSSVariables_closed (this : WaveGenerator.t)
        (colors : list string) (prefix : string) :
  let waveColors := WaveGenerator.ensureMinimumColors this colors in
  WaveGenerator.generateCSSVariables this colors prefix
  = [ (("--" ++ prefix ++ "-css")%string,
       WaveGenerator.generateCSS this waveColors);
      (("--" ++ prefix ++ "-transition")%string, WaveConfig.transition this);
      (("--" ++ prefix ++ "-direction")%string, WaveConfig.direction this);
      (("--" ++ prefix ++ "-type")%string, WaveConfig.waveType this) ]
    ++ colorEntries prefix waveColors 0
  /\ forall i : nat,
       assocGet (colorKey prefix i)
                (WaveGenerator.generateCSSVariables this colors prefix)
       = nth_error waveColors i.
Proof.
  intros waveColors.
  assert (Hclosed :
    WaveGenerator.generateCSSVariables this colors prefix
    = [ (("--" ++ prefix ++ "-css")%string,
         WaveGenerator.generateCSS this waveColors);
        (("--" ++ prefix ++ "-transition")%string, WaveConfig.transition this);
        (("--" ++ prefix ++ "-direction")%string, WaveConfig.direction this);
        (("--" ++ prefix ++ "-type")%string, WaveConfig.waveType this) ]
      ++ colorEntries prefix waveColors 0).
  { unfold WaveGenerator.generateCSSVariables. fold waveColors.
    cbn [assocSet].
    rewrite !(eqb_append_l "--"), !(eqb_append_l prefix).
    cbn [String.eqb Ascii.eqb Bool.eqb assocSet].
    rewrite !(eqb_append_l "--"), !(eqb_append_l prefix).
    cbn [String.eqb Ascii.eqb Bool.eqb assocSet].
    rewrite !(eqb_append_l "--"), !(eqb_append_l prefix).
    cbn [String.eqb Ascii.eqb Bool.eqb assocSet].
    apply colorVariables_closed. intros j _. cbn [assocGet].
    rewrite !colorKey_not_config by (cbn; tauto). reflexivity. }
  split; [exact Hclosed |].
  intros i. rewrite Hclosed, assocGet_app. cbn [assocGet].
  rewrite !colorKey_not_config by (cbn; tauto).
  apply (colorEntries_lookup prefix waveColors 0 i).
Qed.

End MoreVariablesProofs.

(** ** The sampling stages *)

Lemma sampleLoop_step (pixels : list Z) (sampleRate precision i : Z)
      (colorMap : list (string * Z)) :
  ColorExtractor.sampleLoop pixels sampleRate precision i colorMap =
  if i <? JS.len pixels then
    if 0 <? sampleRate
    then ColorExtractor.sampleLoop pixels sampleRate precision (i + sampleRate)
           (ColorExtractor.sample pixels precision i colorMap)
    else None
  else Some colorMap.
Proof.
  rewrite ColorExtractor.sampleLoop_equation_1. cbn.
  destruct (Z_lt_dec i (JS.len pixels)) as [Hlt | Hge]; cbn.
  - replace (i <? JS.len pixels) with true by (symmetry; now apply Z.ltb_lt).
    destruct (Z_lt_dec 0 sampleRate) as [Hpos | Hneg]; cbn.
    + replace (0 <? sampleRate) with true by (symmetry; now apply Z.ltb_lt).
      reflexivity.
    + replace (0 <? sampleRate) with false
        by (symmetry; apply Z.ltb_ge; lia).
      reflexivity.
  - replace (i <? JS.len pixels) with false
      by (symmetry; apply Z.ltb_ge; lia).
    reflexivity.
Qed.

Section MorePipelineProofs.
Import JS Utils Spec More ColorExtractor MorePipeline.

Lemma positionsFrom_S (s i : Z) (k : nat) :
  positionsFrom s i (S k) = i :: positionsFrom s (i + s) k.
Proof.
  unfold positionsFrom. cbn [seq map]. f_equal; [lia |].
  rewrite <- seq_shift, map_map. apply map_ext. intros j. lia.
Qed.

Lemma sampleCount_stop (n s i : Z) : 0 < s -> n <= i -> sampleCount n s i = 0%nat.
Proof.
  intros Hs Hi. unfold sampleCount.
  assert ((n - i + s - 1) / s <= 0); [| lia].
  assert ((n - i + s - 1) / s < 1); [| lia].
  apply Z.div_lt_upper_bound; lia.
Qed.

Lemma sampleCount_go (n s i : Z) :
  0 < s -> i < n -> sampleCount n s i = S (sampleCount n s (i + s)).
Proof.
  intros Hs Hi. unfold sampleCount.
  replace (n - i + s - 1) with ((n - (i + s) + s - 1) + 1 * s) by lia.
  rewrite Z.div_add by lia.
  assert (0 <= (n - (i + s) + s - 1) / s) by (apply Z.div_pos; lia).
  lia.
Qed.

(** With a positive rate the loop visits the sampled positions in turn. *)
Lemma sampleLoop_fold (pixels : list Z) (s precision : Z) (k : nat) :
  forall (i : Z) (colorMap : list (string * Z)),
    0 < s ->
    sampleCount (len pixels) s i = k ->
    sampleLoop pixels s precision i colorMap
    = Some (fold_left (fun m pos => sample pixels precision pos m)
                      (positionsFrom s i k) colorMap).
Proof.
  induction k as [| k IH]; intros i colorMap Hs Hk; rewrite sampleLoop_step.
  - destruct (Z.ltb_spec i (len pixels)) as [Hlt | Hge]; [| reflexivity].
    rewrite sampleCount_go in Hk by assumption. discriminate.
  - destruct (Z.ltb_spec i (len pixels)) as [Hlt | Hge].
    + replace (0 <? s) with true by (symmetry; now apply Z.ltb_lt).
      rewrite sampleCount_go in Hk by assumption. injection Hk as Hk.
      rewrite (IH _ _ Hs Hk), positionsFrom_S. reflexivity.
    + rewrite sampleCount_stop in Hk by assumption. discriminate.
Qed.

Lemma total_assocSet (k : string) (colorMap : list (string * Z)) :
  total (assocSet k (orElse (assocGet k colorMap) 0 + 1) colorMap)
  = total colorMap + 1.
Proof.
  unfold total. induction colorMap as [| [k0 v0] rest IH];
    cbn [assocSet assocGet orElse map snd fold_right]; [lia |].
  destruct (String.eqb k k0); cbn [map snd fold_right orElse]; lia.
Qed.

Lemma counts_assocSet (k : string) (colorMap : list (string * Z)) :
  Forall (fun entry => 1 <= snd entry) colorMap ->
  Forall (fun entry => 1 <= snd entry)
         (assocSet k (orElse (assocGet k colorMap) 0 + 1) colorMap).
Proof.
  induction 1 as [| [k0 v0] rest Hv Hrest IH];
    cbn [assocSet assocGet orElse].
  - constructor; [cbn; lia | constructor].
  - cbn [snd] in Hv. destruct (String.eqb k k0); cbn [orElse].
    + constructor; [cbn; lia | exact Hrest].
    + constructor; [exact Hv | exact IH].
Qed.

Lemma sample_invariant (pixels : list Z) (precision pos : Z)
      (colorMap : list (string * Z)) :
  NoDup (assocKeys colorMap) ->
  Forall (fun entry => 1 <= snd entry) colorMap ->
  NoDup (assocKeys (sample pixels precision pos colorMap))
  /\ Forall (fun entry => 1 <= snd entry) (sample pixels precision pos colorMap)
  /\ total (sample pixels precision pos colorMap)
     = total colorMap + (if counted pixels pos then 1 else 0).
Proof.
  intros Hnd Hcounts. unfold sample, counted.
  destruct (transparent (read pixels (pos + 3))); cbn [negb].
  - repeat split; [assumption | assumption | lia].
  - split; [now apply assocKeys_assocSet_NoDup |].
    split; [now apply counts_assocSet | apply total_assocSet].
Qed.

Lemma samples_invariant (pixels : list Z) (precision : Z) (ps : list Z) :
  forall colorMap : list (string * Z),
    NoDup (assocKeys colorMap) ->
    Forall (fun entry => 1 <= snd entry) colorMap ->
    let result := fold_left (fun m pos => sample pixels precision pos m)
                            ps colorMap in
    NoDup (assocKeys result)
    /\ Forall (fun entry => 1 <= snd entry) result
    /\ total result
       = total colorMap + len (filter (counted pixels) ps).
Proof.
  induction ps as [| pos rest IH]; intros colorMap Hnd Hcounts;
    cbn [fold_left filter].
  - repeat split; [assumption | assumption | unfold len; simpl; lia].
  - destruct (sample_invariant pixels precision pos colorMap Hnd Hcounts)
      as (Hnd' & Hcounts' & Htotal').
    destruct (IH _ Hnd' Hcounts') as (Hnd'' & Hcounts'' & Htotal'').
    cbv zeta in *. split; [exact Hnd'' |]. split; [exact Hcounts'' |].
    rewrite Htotal'', Htotal'.
    destruct (counted pixels pos); unfold len; cbn [List.length]; lia.
Qed.

Lemma positions_spec (n s pos : Z) :
  0 < s ->
  In pos (positions n s) <-> 0 <= pos < n /\ pos mod s = 0.
Proof.
  intros Hs. unfold positions, positionsFrom, sampleCount.
  rewrite in_map_iff. split.
  - intros (j & <- & Hj). apply in_seq in Hj. cbn [Z.add] in *.
    rewrite Z.sub_0_r in Hj.
    assert (Hlt : Z.of_nat j < (n + s - 1) / s) by lia.
    split; [| apply Z.mod_mul; lia].
    split; [lia |].
    assert (Z.of_nat j + 1 <= (n + s - 1) / s) by lia.
    assert (Hmul : s * (Z.of_nat j + 1) <= n + s - 1).
    { etransitivity; [apply Z.mul_le_mono_nonneg_l; [lia | eassumption] |].
      apply Z.mul_div_le. lia. }
    lia.
  - intros [[H0 Hn] Hmod]. exists (Z.to_nat (pos / s)).
    assert (Hpos : pos = s * (pos / s)).
    { pose proof (Z.div_mod pos s ltac:(lia)). lia. }
    assert (0 <= pos / s) by (apply Z.div_pos; lia).
    split; [rewrite Z2Nat.id by lia; lia |].
    apply in_seq. rewrite Z.sub_0_r. split; [lia |]. cbn [Nat.add].
    assert (pos / s < (n + s - 1) / s); [| lia].
    apply Z.div_lt_upper_bound; [lia |].
    assert (Hq : pos / s + 1 <= (n + s - 1) / s).
    { apply Z.div_le_lower_bound; [lia |]. lia. }
    pose proof (Z.mul_div_le (n + s - 1) s Hs).
    assert (s * (pos / s + 1) <= n + s - 1) by lia.
    nia.
Qed.

(** X27.  [buildColorFrequencyMap] has a result exactly when the sample
    rate is positive or there are no pixels; otherwise its loop never
    ends.  With a positive rate the map has one entry per key, every
    frequency is at least one, and the frequencies add up to the number of
    sampled pixels (at the multiples of the rate) whose alpha is not below
    100. *)
Theorem buildColorFrequencyMap_counts (this : ColorExtractor.t)
        (pixels : list Z) :
  let sampleRate := ExtractorOptions.sampleRate (ColorExtractor.options this) in
  (0 < sampleRate ->
   exists colorMap : list (string * Z),
     buildColorFrequencyMap this pixels = Some colorMap
     /\ NoDup (assocKeys colorMap)
     /\ Forall (fun entry => 1 <= snd entry) colorMap
     /\ total colorMap
        = len (filter (counted pixels) (positions (len pixels) sampleRate))
     /\ forall pos : Z,
          In pos (positions (len pixels) sampleRate)
          <-> 0 <= pos < len pixels /\ pos mod sampleRate = 0)
  /\ (sampleRate <= 0 ->
      buildColorFrequencyMap this pixels
      = match pixels with [] => Some [] | _ :: _ => None end).
Proof.
  intros sampleRate. split.
  - intros Hs. unfold buildColorFrequencyMap. fold sampleRate.
    rewrite (sampleLoop_fold pixels sampleRate _
               (sampleCount (len pixels) sampleRate 0) 0 [] Hs eq_refl).
    eexists. split; [reflexivity |].
    destruct (samples_invariant pixels
                (ExtractorOptions.precision (ColorExtractor.options this))
                (positions (len pixels) sampleRate) [])
      as (Hnd & Hcounts & Htotal); [constructor | constructor |].
    cbv zeta in *. unfold positions in *.
    split; [exact Hnd |]. split; [exact Hcounts |].
    split; [rewrite Htotal; reflexivity |].
    intros pos. now apply positions_spec.
  - intros Hs. unfold buildColorFrequencyMap. fold sampleRate.
    rewrite sampleLoop_step. destruct pixels as [| p rest]; [reflexivity |].
    replace (0 <? len (p :: rest)) with true
      by (symmetry; apply Z.ltb_lt; unfold len; cbn [List.length]; lia).
    replace (0 <? sampleRate) with false by (symmetry; apply Z.ltb_ge; lia).
    reflexivity.
Qed.

End MorePipelineProofs.

Section MoreKeysProofs.
Import JS Utils Spec More ColorExtractor MorePipeline MoreKeys.

Lemma splitComma_nonempty (s : string) : splitComma s <> [].
Proof.
  destruct s as [| c rest]; cbn [splitComma]; [discriminate |].
  destruct (Ascii.eqb c ","); [discriminate |].
  destruct (splitComma rest); discriminate.
Qed.

Lemma splitComma_piece (a rest : string) :
  commaFree a = true ->
  splitComma (a ++ String "," rest) = a :: splitComma rest.
Proof.
  induction a as [| c a IH]; cbn [commaFree String.append splitComma].
  - intros _. reflexivity.
  - intros H. apply andb_prop in H as [Hc Ha].
    apply negb_true_iff in Hc. rewrite Hc, (IH Ha). reflexivity.
Qed.

Lemma splitComma_last (a : string) :
  commaFree a = true -> splitComma a = [a].
Proof.
  induction a as [| c a IH]; cbn [commaFree splitComma]; [reflexivity |].
  intros H. apply andb_prop in H as [Hc Ha].
  apply negb_true_iff in Hc. rewrite Hc, (IH Ha). reflexivity.
Qed.

Lemma uint_commaFree (d : Decimal.uint) :
  commaFree (NilEmpty.string_of_uint d) = true.
Proof. induction d; cbn [NilEmpty.string_of_uint commaFree]; auto. Qed.

Lemma showNum_commaFree (n : Num.t) : commaFree (showNum n) = true.
Proof.
  destruct n as [z |]; [| reflexivity].
  unfold showNum, NilZero.string_of_int, NilZero.string_of_uint.
  destruct (Z.to_int z) as [d | d]; destruct d;
    cbn [commaFree NilEmpty.string_of_uint]; try reflexivity;
    apply uint_commaFree.
Qed.

Lemma toNumber_showNum (n : Num.t) : toNumber (showNum n) = n.
Proof.
  destruct n as [z |]; [| reflexivity].
  unfold toNumber, showNum. rewrite NilZero.isi.
  - now rewrite DecimalZ.of_to.
  - destruct z; cbn; try discriminate.
    intros [= H]. now apply DecimalPos.Unsigned.to_uint_nonnil in H.
  - destruct z; cbn; try discriminate.
    intros [= H]. now apply DecimalPos.Unsigned.to_uint_nonnil in H.
Qed.

Lemma colorKeyOf_decode (rGroup gGroup bGroup : Num.t) :
  map toNumber (splitComma (colorKeyOf rGroup gGroup bGroup))
  = [rGroup; gGroup; bGroup].
Proof.
  unfold colorKeyOf. cbn [String.append].
  rewrite splitComma_piece by apply showNum_commaFree.
  rewrite splitComma_piece by apply showNum_commaFree.
  rewrite splitComma_last by apply showNum_commaFree.
  cbn [map]. now rewrite !toNumber_showNum.
Qed.

(** X28.  Splitting a key at its commas and reading the pieces as numbers
    gives back the three groups it was written from, [NaN] included; so
    two different triples never share a key, and [getDominantColors]
    reads the key of a colour with integer channels back as that
    colour. *)
Theorem colorKeyOf_roundtrip (rGroup gGroup bGroup : Num.t) (color : ColorRGB) :
  map toNumber (splitComma (colorKeyOf rGroup gGroup bGroup))
  = [rGroup; gGroup; bGroup]
  /\ (forall rGroup' gGroup' bGroup' : Num.t,
        colorKeyOf rGroup gGroup bGroup = colorKeyOf rGroup' gGroup' bGroup' ->
        rGroup = rGroup' /\ gGroup = gGroup' /\ bGroup = bGroup')
  /\ colorOfKey (keyOfColor color) = color.
Proof.
  split; [apply colorKeyOf_decode |]. split.
  - intros r' g' b' Hkey.
    pose proof (colorKeyOf_decode rGroup gGroup bGroup) as H1.
    rewrite Hkey, colorKeyOf_decode in H1. injection H1 as -> -> ->. auto.
  - unfold colorOfKey, keyOfColor. rewrite colorKeyOf_decode.
    now destruct color.
Qed.

Lemma colorKeyOf_roundtrip_witness :
  colorOfKey "250,NaN,NaN" = mkRGB 250 Num.NaN Num.NaN.
Proof.
  apply (colorKeyOf_roundtrip Num.NaN Num.NaN Num.NaN
           (mkRGB 250 Num.NaN Num.NaN)).
Defined.

End MoreKeysProofs.

Section MoreDominant.
Import JS Utils Spec More ColorExtractor MorePipeline MoreKeys.

Lemma insertByFrequency_perm (entry : string * Z) (sorted : list (string * Z)) :
  Permutation (insertByFrequency entry sorted) (entry :: sorted).
Proof.
  induction sorted as [| first rest IH]; cbn [insertByFrequency];
    [reflexivity |].
  destruct (snd first >? snd entry); [| reflexivity].
  rewrite IH. apply perm_swap.
Qed.

Lemma sortByFrequency_perm (entries : list (string * Z)) :
  Permutation (sortByFrequency entries) entries.
Proof.
  induction entries as [| entry rest IH]; cbn; [reflexivity |].
  fold (sortByFrequency rest). rewrite insertByFrequency_perm.
  now constructor.
Qed.

Lemma insertByFrequency_sorted (entry : string * Z)
      (sorted : list (string * Z)) :
  StronglySorted byFrequency sorted ->
  StronglySorted byFrequency (insertByFrequency entry sorted).
Proof.
  induction 1 as [| first rest Hrest IH Hall]; cbn [insertByFrequency].
  - repeat constructor.
  - destruct (Z.gtb_spec (snd first) (snd entry)) as [Hgt | Hle].
    + constructor; [exact IH |].
      apply Forall_forall. intros x Hx.
      apply (Permutation_in _ (insertByFrequency_perm entry rest)) in Hx.
      destruct Hx as [<- | Hx].
      * unfold byFrequency. lia.
      * rewrite Forall_forall in Hall. now apply Hall.
    + constructor; [now constructor |].
      constructor; [unfold byFrequency; lia |].
      apply Forall_forall. intros x Hx. rewrite Forall_forall in Hall.
      specialize (Hall x Hx). unfold byFrequency in *. lia.
Qed.

Lemma sortByFrequency_sorted (entries : list (string * Z)) :
  StronglySorted byFrequency (sortByFrequency entries).
Proof.
  induction entries as [| entry rest IH]; cbn; [constructor |].
  now apply insertByFrequency_sorted.
Qed.

Lemma insertByFrequency_stable (f : Z) (entry : string * Z)
      (sorted : list (string * Z)) :
  filter (fun e => snd e =? f) (insertByFrequency entry sorted)
  = filter (fun e => snd e =? f) (entry :: sorted).
Proof.
  induction sorted as [| first rest IH]; cbn [insertByFrequency];
    [reflexivity |].
  destruct (Z.gtb_spec (snd first) (snd entry)) as [Hgt | Hle];
    [| reflexivity].
  cbn [filter] in *. rewrite IH.
  destruct (Z.eqb_spec (snd first) f) as [Hf | Hf]; [| reflexivity].
  replace (snd entry =? f) with false; [reflexivity |].
  symmetry. apply Z.eqb_neq. lia.
Qed.

Lemma sortByFrequency_stable (f : Z) (entries : list (string * Z)) :
  filter (fun e => snd e =? f) (sortByFrequency entries)
  = filter (fun e => snd e =? f) entries.
Proof.
  induction entries as [| entry rest IH]; [reflexivity |].
  cbn [sortByFrequency fold_right]. fold (sortByFrequency rest).
  rewrite insertByFrequency_stable. cbn [filter]. now rewrite IH.
Qed.

(** X30.  [getDominantColors] takes the entries of the map in order of
    decreasing frequency, entries of equal frequency in the order they
    have in the map, keeps the first [maxColors] of them (for a
    [maxColors] that is not negative) and reads each key back as a
    colour. *)
Theorem getDominantColors_order (this : ColorExtractor.t)
        (colorMap : list (string * Z)) :
  let maxColors := ExtractorOptions.maxColors (ColorExtractor.options this) in
  Permutation (sortByFrequency colorMap) colorMap
  /\ StronglySorted byFrequency (sortByFrequency colorMap)
  /\ (forall f : Z,
        filter (fun e => snd e =? f) (sortByFrequency colorMap)
        = filter (fun e => snd e =? f) colorMap)
  /\ (0 <= maxColors ->
      getDominantColors this colorMap
      = map (fun entry => colorOfKey (fst entry))
            (firstn (Z.to_nat maxColors) (sortByFrequency colorMap))
      /\ len (getDominantColors this colorMap)
         = Z.min maxColors (len colorMap)).
Proof.
  intros maxColors.
  split; [apply sortByFrequency_perm |].
  split; [apply sortByFrequency_sorted |].
  split; [intros f; apply sortByFrequency_stable |].
  intros Hmax. unfold getDominantColors. fold maxColors.
  rewrite slice_firstn by exact Hmax. split; [reflexivity |].
  unfold len. rewrite length_map, length_firstn.
  rewrite (Permutation_length (sortByFrequency_perm colorMap)). lia.
Qed.

Lemma getDominantColors_order_witness :
  getDominantColors
    (ColorExtractor.mk true true (ExtractorOptions.mk (F := Required) 150 32 25 2))
    [("0,0,25", 2); ("200,100,50", 3); ("250,250,250", 2)]
  = [mkRGB 200 100 50; mkRGB 0 0 25].
Proof.
  apply (getDominantColors_order
           (ColorExtractor.mk true true
              (ExtractorOptions.mk (F := Required) 150 32 25 2))
           [("0,0,25", 2); ("200,100,50", 3); ("250,250,250", 2)]).
  cbn. lia.
Defined.

Lemma read_byte (pixels : list Z) (i : Z) :
  Forall (fun v => 0 <= v <= 255) pixels ->
  0 <= i < len pixels ->
  exists v : Z, read pixels i = Some v /\ 0 <= v <= 255.
Proof.
  intros Hbytes Hi. unfold read.
  destruct (nth_error pixels (Z.to_nat i)) as [v |] eqn:Hv.
  - exists v. split; [reflexivity |].
    rewrite Forall_forall in Hbytes. apply Hbytes.
    eapply nth_error_In; eassumption.
  - apply nth_error_None in Hv. unfold len in Hi. lia.
Qed.

Lemma group_byte (v precision : Z) :
  1 <= precision -> 0 <= v <= 255 ->
  exists q : Z,
    group (Some v) precision = Num.Int q
    /\ 0 <= q <= 255 /\ q mod precision = 0.
Proof.
  intros Hp Hv. exists (v / precision * precision). unfold group.
  replace (precision =? 0) with false by (symmetry; apply Z.eqb_neq; lia).
  split; [reflexivity |].
  pose proof (Z.mul_div_le v precision ltac:(lia)).
  assert (0 <= v / precision) by (apply Z.div_pos; lia).
  split; [nia | apply Z.mod_mul; lia].
Qed.

Lemma keys_assocSet (Q : string -> Prop) (k : string) (v : Z)
      (colorMap : list (string * Z)) :
  Q k ->
  Forall (fun entry => Q (fst entry)) colorMap ->
  Forall (fun entry => Q (fst entry)) (assocSet k v colorMap).
Proof.
  intros Hk. induction 1 as [| [k0 v0] rest H0 Hrest IH]; cbn [assocSet].
  - now repeat constructor.
  - destruct (String.eqb k k0); constructor; auto.
Qed.

Lemma sample_quantized (pixels : list Z) (precision pos : Z)
      (colorMap : list (string * Z)) :
  Forall (fun v => 0 <= v <= 255) pixels ->
  1 <= precision ->
  0 <= pos -> pos + 3 < len pixels ->
  Forall (fun entry => exists c, quantized precision c
                                 /\ fst entry = keyOfColor c) colorMap ->
  Forall (fun entry => exists c, quantized precision c
                                 /\ fst entry = keyOfColor c)
         (sample pixels precision pos colorMap).
Proof.
  intros Hbytes Hp H0 H3 Hkeys. unfold sample.
  destruct (transparent (read pixels (pos + 3))); [exact Hkeys |].
  destruct (read_byte pixels pos Hbytes ltac:(lia)) as (vr & -> & Hvr).
  destruct (read_byte pixels (pos + 1) Hbytes ltac:(lia)) as (vg & -> & Hvg).
  destruct (read_byte pixels (pos + 2) Hbytes ltac:(lia)) as (vb & -> & Hvb).
  destruct (group_byte vr precision Hp Hvr) as (qr & -> & Hqr).
  destruct (group_byte vg precision Hp Hvg) as (qg & -> & Hqg).
  destruct (group_byte vb precision Hp Hvb) as (qb & -> & Hqb).
  apply (keys_assocSet
           (fun k => exists c, quantized precision c /\ k = keyOfColor c));
    [| exact Hkeys].
  exists (mkRGB qr qg qb). split; [| reflexivity].
  exists qr, qg, qb. tauto.
Qed.

Lemma samples_quantized (pixels : list Z) (precision : Z) (ps : list Z) :
  forall colorMap : list (string * Z),
    Forall (fun v => 0 <= v <= 255) pixels ->
    1 <= precision ->
    Forall (fun pos => 0 <= pos /\ pos + 3 < len pixels) ps ->
    Forall (fun entry => exists c, quantized precision c
                                   /\ fst entry = keyOfColor c) colorMap ->
    Forall (fun entry => exists c, quantized precision c
                                   /\ fst entry = keyOfColor c)
           (fold_left (fun m pos => sample pixels precision pos m) ps colorMap).
Proof.
  induction ps as [| pos rest IH]; intros colorMap Hbytes Hp Hps Hkeys;
    cbn [fold_left]; [exact Hkeys |].
  inversion Hps as [| ? ? [H0 H3] Hrest]; subst.
  apply IH; try assumption. now apply sample_quantized.
Qed.

Lemma positions_aligned (n s : Z) :
  0 < s -> s mod 4 = 0 -> n mod 4 = 0 ->
  Forall (fun pos => 0 <= pos /\ pos + 3 < n) (positions n s).
Proof.
  intros Hs Hs4 Hn4. apply Forall_forall. intros pos Hpos.
  apply positions_spec in Hpos as [[H0 Hn] Hmod]; [| exact Hs].
  split; [exact H0 |].
  apply Z.mod_divide in Hs4; [| lia]. apply Z.mod_divide in Hn4; [| lia].
  apply Z.mod_divide in Hmod; [| lia].
  destruct (Z.divide_trans _ _ _ Hs4 Hmod) as [a Ha].
  destruct Hn4 as [c Hc]. lia.
Qed.

Lemma slice_In {A} (x : A) (arr : list A) (start stop : Z) :
  In x (slice arr start stop) -> In x arr.
Proof.
  unfold slice. intros H.
  set (n := Z.to_nat (Z.max _ 0)) in H. set (k := Z.to_nat _) in H.
  rewrite <- (firstn_skipn k arr). apply in_or_app. right.
  rewrite <- (firstn_skipn n (skipn k arr)). apply in_or_app. now left.
Qed.

(** With aligned sampling of 8-bit data every key of the map is the key
    of a quantized colour. *)
Lemma buildColorFrequencyMap_quantized (this : ColorExtractor.t)
      (pixels : list Z) :
  let sampleRate := ExtractorOptions.sampleRate (ColorExtractor.options this) in
  let precision := ExtractorOptions.precision (ColorExtractor.options this) in
  Forall (fun v => 0 <= v <= 255) pixels ->
  len pixels mod 4 = 0 ->
  0 < sampleRate -> sampleRate mod 4 = 0 ->
  1 <= precision ->
  exists colorMap : list (string * Z),
    buildColorFrequencyMap this pixels = Some colorMap
    /\ Forall (fun entry => exists c, quantized precision c
                                      /\ fst entry = keyOfColor c) colorMap.
Proof.
  intros sampleRate precision Hbytes Hlen Hs Hs4 Hp.
  unfold buildColorFrequencyMap. fold sampleRate precision.
  rewrite (sampleLoop_fold pixels sampleRate precision
             (sampleCount (len pixels) sampleRate 0) 0 [] Hs eq_refl).
  eexists. split; [reflexivity |].
  apply samples_quantized; try assumption; [| constructor].
  now apply positions_aligned.
Qed.

(** The colours read back from such a map are quantized. *)
Lemma getDominantColors_quantized (this : ColorExtractor.t)
      (precision : Z) (colorMap : list (string * Z)) :
  Forall (fun entry => exists c, quantized precision c
                                 /\ fst entry = keyOfColor c) colorMap ->
  forall c : ColorRGB,
    In c (getDominantColors this colorMap) ->
    quantized precision c /\ In (keyOfColor c) (assocKeys colorMap).
Proof.
  intros Hkeys c Hc. unfold getDominantColors in Hc.
  apply in_map_iff in Hc as (entry & <- & Hentry).
  apply slice_In in Hentry.
  apply (Permutation_in _ (sortByFrequency_perm _)) in Hentry.
  rewrite Forall_forall in Hkeys.
  destruct (Hkeys entry Hentry) as (c & Hq & Hkey).
  assert (E : colorOfKey (fst entry) = c).
  { rewrite Hkey. unfold colorOfKey, keyOfColor. rewrite colorKeyOf_decode.
    now destruct c. }
  rewrite E. split; [exact Hq |].
  rewrite <- Hkey. unfold assocKeys. now apply in_map.
Qed.

(** X29.  For 8-bit pixel data whose length is a multiple of four, a
    positive sample rate that is a multiple of four and a precision of one
    or more, the frequency map exists, each of its keys is the key of a
    colour whose channels are multiples of the precision between 0 and
    255, and [getDominantColors] returns only such colours, each read
    back from a key of the map. *)
Theorem dominantColors_quantized (this : ColorExtractor.t) (pixels : list Z) :
  let sampleRate := ExtractorOptions.sampleRate (ColorExtractor.options this) in
  let precision := ExtractorOptions.precision (ColorExtractor.options this) in
  Forall (fun v => 0 <= v <= 255) pixels ->
  len pixels mod 4 = 0 ->
  0 < sampleRate -> sampleRate mod 4 = 0 ->
  1 <= precision ->
  exists colorMap : list (string * Z),
    buildColorFrequencyMap this pixels = Some colorMap
    /\ Forall (fun entry => exists c, quantized precision c
                                      /\ fst entry = keyOfColor c) colorMap
    /\ forall c : ColorRGB,
         In c (getDominantColors this colorMap) ->
         quantized precision c /\ In (keyOfColor c) (assocKeys colorMap).
Proof.
  intros sampleRate precision Hbytes Hlen Hs Hs4 Hp.
  destruct (buildColorFrequencyMap_quantized this pixels Hbytes Hlen Hs Hs4 Hp)
    as (colorMap & Hmap & Hkeys).
  exists colorMap. split; [exact Hmap |]. split; [exact Hkeys |].
  now apply getDominantColors_quantized.
Qed.

Lemma dominantColors_quantized_witness :
  exists colorMap : list (string * Z),
    buildColorFrequencyMap
      (ColorExtractor.mk true true
         (ExtractorOptions.mk (F := Required) 150 4 25 8))
      [10; 20; 30; 255; 12; 22; 33; 255; 200; 100; 50; 255]
    = Some colorMap
    /\ colorMap = [("0,0,25", 2); ("200,100,50", 1)].
Proof.
  destruct (dominantColors_quantized
              (ColorExtractor.mk true true
                 (ExtractorOptions.mk (F := Required) 150 4 25 8))
              [10; 20; 30; 255; 12; 22; 33; 255; 200; 100; 50; 255])
    as (colorMap & Hmap & _).
  - repeat constructor; lia.
  - reflexivity.
  - cbn. lia.
  - reflexivity.
  - cbn. lia.
  - exists colorMap. split; [exact Hmap |].
    vm_compute in Hmap. now injection Hmap as <-.
Defined.

End MoreDominant.

Lemma buildColorFrequencyMap_counts_witness :
  (exists colorMap : list (string * Z),
     ColorExtractor.buildColorFrequencyMap
       (ColorExtractor.mk true true
          (ExtractorOptions.mk (F := Required) 150 4 25 8))
       [10; 20; 30; 255; 12; 22; 33; 50; 200; 100; 50; 255]
     = Some colorMap
     /\ MorePipeline.total colorMap = 2)
  /\ ColorExtractor.buildColorFrequencyMap
       (ColorExtractor.mk true true
          (ExtractorOptions.mk (F := Required) 150 0 25 8))
       [10; 20; 30; 255]
     = None.
Proof.
  split.
  - destruct (proj1 (buildColorFrequencyMap_counts
                       (ColorExtractor.mk true true
                          (ExtractorOptions.mk (F := Required) 150 4 25 8))
                       [10; 20; 30; 255; 12; 22; 33; 50; 200; 100; 50; 255]))
      as (colorMap & Hmap & _ & _ & Htotal & _).
    + cbn. lia.
    + exists colorMap. split; [exact Hmap |]. rewrite Htotal. reflexivity.
  - apply (proj2 (buildColorFrequencyMap_counts
                    (ColorExtractor.mk true true
                       (ExtractorOptions.mk (F := Required) 150 0 25 8))
                    [10; 20; 30; 255])).
    cbn. lia.
Defined.
(** ** More on the wave-building entry point *)

Section MoreSong.
Import JS Utils Spec More Song.
Variable env : Env.t.

Lemma filterColors_len (colors : list ColorRGB) (targetCount : Z) :
  1 <= targetCount -> len (ColorExtractor.filterColors colors targetCount) = targetCount.
Proof.
  intros Hn. rewrite (filterColors_decompose colors targetCount Hn).
  rewrite len_app, len_padding.
  assert (len (ColorExtractor.filterLoop colors targetCount []) <= targetCount).
  { apply filterLoop_len. unfold len. simpl. lia. }
  lia.
Qed.

(** The sampling loop ends exactly when the sample rate is positive or
    there are no pixels. *)
Lemma buildColorFrequencyMap_ends (this : ColorExtractor.t) (pixels : list Z) :
  (0 < ExtractorOptions.sampleRate (ColorExtractor.options this) ->
   exists colorMap : list (string * Z),
     ColorExtractor.buildColorFrequencyMap this pixels = Some colorMap)
  /\ (ColorExtractor.buildColorFrequencyMap this pixels = None ->
      ExtractorOptions.sampleRate (ColorExtractor.options this) <= 0).
Proof.
  assert (Hpos : 0 < ExtractorOptions.sampleRate (ColorExtractor.options this) ->
                 exists colorMap : list (string * Z),
                   ColorExtractor.buildColorFrequencyMap this pixels
                   = Some colorMap).
  { intros Hs. unfold ColorExtractor.buildColorFrequencyMap.
    rewrite (sampleLoop_fold pixels _ _ _ 0 [] Hs eq_refl). now eexists. }
  split; [exact Hpos |]. intros Hnone.
  destruct (Z_lt_le_dec 0 (ExtractorOptions.sampleRate
                             (ColorExtractor.options this)))
    as [Hs | Hs]; [| exact Hs].
  destruct (Hpos Hs) as (colorMap & E). congruence.
Qed.

(** What an extraction is and does, whatever its outcome. *)
Lemma extractColors_cases (this : ColorExtractor.t) (imageSource : ImageSource)
      (count : Z) (w : DOM.World) :
  snd (ColorExtractor.extractColors env this imageSource count w)
  = DOM.recordExtraction imageSource w
  /\ (forall rgbColors : list ColorRGB,
        fst (ColorExtractor.extractColors env this imageSource count w)
        = Ok rgbColors ->
        Env.isBrowser env = true
        /\ ColorExtractor.canvas this = true
        /\ ColorExtractor.ctx this = true
        /\ (forall url, imageSource = ImageUrl url ->
                        Env.imageLoads env url = true)
        /\ exists (pixels : list Z) (colorMap : list (string * Z)),
             Env.getImageData env imageSource
               (ExtractorOptions.canvasSize (ColorExtractor.options this))
             = ImageData pixels
             /\ ColorExtractor.buildColorFrequencyMap this pixels
                = Some colorMap
             /\ rgbColors
                = ColorExtractor.filterColors
                    (ColorExtractor.getDominantColors this colorMap) count)
  /\ (fst (ColorExtractor.extractColors env this imageSource count w)
      = Diverges ->
      Env.isBrowser env = true
      /\ ColorExtractor.canvas this = true
      /\ ExtractorOptions.sampleRate (ColorExtractor.options this) <= 0).
Proof.
  split; [apply extractColors_world |].
  assert (Hprocess :
    Env.isBrowser env = true ->
    ColorExtractor.canvas this = true -> ColorExtractor.ctx this = true ->
    (forall rgbColors : list ColorRGB,
       ColorExtractor.processImage env this imageSource count = Ok rgbColors ->
       exists (pixels : list Z) (colorMap : list (string * Z)),
         Env.getImageData env imageSource
           (ExtractorOptions.canvasSize (ColorExtractor.options this))
         = ImageData pixels
         /\ ColorExtractor.buildColorFrequencyMap this pixels = Some colorMap
         /\ rgbColors
            = ColorExtractor.filterColors
                (ColorExtractor.getDominantColors this colorMap) count)
    /\ (ColorExtractor.processImage env this imageSource count = Diverges ->
        ExtractorOptions.sampleRate (ColorExtractor.options this) <= 0)).
  { intros Hb Hcanvas Hctx. unfold ColorExtractor.processImage.
    rewrite Hcanvas, Hctx. cbn [negb orb].
    destruct (Env.getImageData env imageSource _) as [e | pixels];
      [split; [intros rgb H | intros H]; discriminate H |].
    destruct (ColorExtractor.buildColorFrequencyMap this pixels)
      as [colorMap |] eqn:Hmap.
    - split; [| intros H; discriminate H].
      intros rgb [= <-]. now exists pixels, colorMap.
    - split; [intros rgb H; discriminate H |]. intros _.
      now apply (buildColorFrequencyMap_ends this pixels). }
  unfold ColorExtractor.extractColors.
  destruct (Env.isBrowser env) eqn:Hb;
    [| split; [intros rgb H | intros H]; discriminate H].
  destruct (ColorExtractor.canvas this) eqn:Hcanvas;
    [| split; [intros rgb H | intros H]; discriminate H].
  destruct (ColorExtractor.ctx this) eqn:Hctx;
    [| split; [intros rgb H | intros H]; discriminate H].
  cbn [negb orb].
  destruct (Hprocess eq_refl eq_refl eq_refl) as [Hok Hdiv].
  destruct imageSource as [url | src].
  - destruct (Env.imageLoads env url) eqn:Hload;
      [| split; [intros rgb H | intros H]; discriminate H].
    cbn [fst]. split.
    + intros rgb H. repeat split; try reflexivity.
      * intros url' [= <-]. exact Hload.
      * now apply Hok.
    + intros H. repeat split. now apply Hdiv.
  - cbn [fst]. split.
    + intros rgb H. repeat split; try reflexivity.
      * intros url' H'. discriminate H'.
      * now apply Hok.
    + intros H. repeat split. now apply Hdiv.
Qed.

(** X18.  An extraction that succeeds ran in a browser with a canvas and
    a 2D context, on an image that loaded, and returns exactly the
    requested number of colours (for a count of one or more); one that
    never ends has a sample rate of zero or less; whatever the outcome,
    every call is recorded and nothing else in the world changes. *)
Theorem extractColors_outcome (this : ColorExtractor.t)
        (imageSource : ImageSource) (count : Z) (w : DOM.World)
        (rgbColors : list ColorRGB) :
  snd (ColorExtractor.extractColors env this imageSource count w)
  = DOM.recordExtraction imageSource w
  /\ (fst (ColorExtractor.extractColors env this imageSource count w)
      = Ok rgbColors ->
      Env.isBrowser env = true
      /\ ColorExtractor.canvas this = true
      /\ ColorExtractor.ctx this = true
      /\ (forall url, imageSource = ImageUrl url ->
                      Env.imageLoads env url = true)
      /\ (1 <= count -> len rgbColors = count))
  /\ (fst (ColorExtractor.extractColors env this imageSource count w)
      = Diverges ->
      ExtractorOptions.sampleRate (ColorExtractor.options this) <= 0).
Proof.
  destruct (extractColors_cases this imageSource count w) as (Hw & Hok & Hdiv).
  split; [exact Hw |]. split.
  - intros H.
    destruct (Hok rgbColors H)
      as (Hb & Hc & Hx & Hl & pixels & colorMap & _ & _ & ->).
    repeat split; try assumption. intros Hn. now apply filterColors_len.
  - intros H. now apply Hdiv.
Qed.

Lemma styled_extractor element colors st :
  extractor (styled env element colors st) = extractor st.
Proof. destruct element; reflexivity. Qed.

Lemma styled_generator' element colors st :
  generator (styled env element colors st) = generator st.
Proof. destruct element; reflexivity. Qed.

(** A colour read from a hex string has integer channels. *)
Lemma parseHex_numeric (hex : string) : numeric (parseHex hex).
Proof.
  unfold parseHex.
  destruct (hexRegexExec hex) as [[[g1 g2] g3] |]; now eexists _, _, _.
Qed.

Lemma parseHex_all_numeric (colors : list string) :
  Forall numeric (map parseHex colors).
Proof.
  apply Forall_forall. intros c Hc. apply in_map_iff in Hc as (hex & <- & _).
  apply parseHex_numeric.
Qed.

(** The ways [createWaves] can end: it resolves, or its extraction never
    ends. *)
Lemma createWaves_cases (st : State) (imageSource : ImageSource)
      (element : option DOM.Element) :
  (exists (result : WaveResult.t) (w : DOM.World) (colors : list string)
          (c : list (string * list string)),
     createWaves env imageSource element st
     = (Ok result, styled env element colors (with_cache c (with_world w st)))
     /\ colors = WaveResult.colors result
     /\ (w = world st \/ w = DOM.recordExtraction imageSource (world st))
     /\ (ColorExtractor.canvas (extractor st) = false -> c = cache st)
     /\ (WaveResult.isFlowing result = true <-> WaveResult.error result = None)
     /\ List.length (WaveResult.rgb result)
        = List.length (WaveResult.colors result)
     /\ WaveResult.harmony result = calculateHarmony (WaveResult.rgb result)
     /\ (WaveResult.isFlowing result = false ->
         Forall numeric (WaveResult.rgb result))
     /\ WaveResult.css result
        = WaveGenerator.generateCSS (generator st) (WaveResult.colors result))
  \/ (createWaves env imageSource element st
      = (Diverges,
         with_world (DOM.recordExtraction imageSource (world st)) st)
      /\ assocGet (cacheKeyOf imageSource) (cache st) = None
      /\ Env.isBrowser env = true
      /\ ColorExtractor.canvas (extractor st) = true
      /\ ExtractorOptions.sampleRate (ColorExtractor.options (extractor st))
         <= 0).
Proof.
  destruct (assocGet (cacheKeyOf imageSource) (cache st)) as [cached |] eqn:Hc.
  - left. eexists. exists (world st), cached, (cache st).
    split.
    { rewrite (createWaves_hit env st _ element cached Hc).
      destruct st; reflexivity. }
    cbn [buildWaveResult WaveResult.isFlowing WaveResult.error WaveResult.rgb
         WaveResult.colors WaveResult.harmony WaveResult.css].
    split; [reflexivity |]. split; [now left |]. split; [reflexivity |].
    split; [tauto |]. split; [apply length_map |]. split; [reflexivity |].
    split; [intros H; discriminate H | reflexivity].
  - destruct (extractColors_cases (extractor st) imageSource 2 (world st))
      as (Hw & Hok & Hdiv).
    destruct (ColorExtractor.extractColors env (extractor st) imageSource 2
                (world st)) as [[rgbColors | error |] w] eqn:Hex;
      cbn [fst snd] in *; subst w.
    + left. eexists. eexists. eexists. eexists.
      split; [apply (createWaves_extracted env st _ element rgbColors _ Hc Hex) |].
      cbn [buildWaveResult WaveResult.isFlowing WaveResult.error WaveResult.rgb
           WaveResult.colors WaveResult.harmony WaveResult.css].
      rewrite styled_generator'.
      split; [reflexivity |]. split; [now right |].
      split.
      { intros Hcanvas. destruct (Hok rgbColors eq_refl) as (_ & Hcv & _).
        congruence. }
      split; [tauto |]. split; [symmetry; apply length_map |].
      split; [reflexivity |].
      split; [intros H; discriminate H | reflexivity].
    + left. eexists. exists (DOM.recordExtraction imageSource (world st)).
      eexists. exists (cache st).
      split.
      { rewrite (createWaves_failed env st _ element error _ Hc Hex).
        destruct st; reflexivity. }
      cbn [buildWaveResult WaveResult.isFlowing WaveResult.error WaveResult.rgb
           WaveResult.colors WaveResult.harmony WaveResult.css].
      rewrite styled_generator'.
      split; [reflexivity |]. split; [now right |]. split; [reflexivity |].
      split; [split; intros H; discriminate H |].
      split; [apply length_map |]. split; [reflexivity |].
      split; [intros _; apply parseHex_all_numeric | reflexivity].
    + right. destruct (Hdiv eq_refl) as (Hb & Hcanvas & Hrate).
      split; [apply (createWaves_diverged env st _ element _ Hc Hex) |].
      auto.
Qed.


(** X20.  When the identifier is not cached and the extraction succeeds,
    [createWaves] returns the two extracted colours as hex strings, marks
    the result as flowing, and adds exactly one entry to the cache, at the
    end: the identifier with those hex strings. *)
Theorem createWaves_caches (st : State) (imageSource : ImageSource)
        (element : option DOM.Element) (rgbColors : list ColorRGB)
        (w : DOM.World) :
  assocGet (cacheKeyOf imageSource) (cache st) = None ->
  ColorExtractor.extractColors env (extractor st) imageSource 2 (world st)
  = (Ok rgbColors, w) ->
  exists (result : WaveResult.t) (st' : State),
    createWaves env imageSource element st = (Ok result, st')
    /\ WaveResult.isFlowing result = true
    /\ WaveResult.rgb result = rgbColors
    /\ WaveResult.colors result = map rgbToHex rgbColors
    /\ List.length (WaveResult.colors result) = 2%nat
    /\ cache st'
       = cache st ++ [(cacheKeyOf imageSource, WaveResult.colors result)].
Proof.
  intros Hmiss Hex. eexists. eexists.
  split; [apply (createWaves_extracted env st _ element rgbColors w Hmiss Hex) |].
  cbn [buildWaveResult WaveResult.isFlowing WaveResult.rgb WaveResult.colors].
  repeat split.
  - rewrite length_map.
    destruct (extractColors_cases (extractor st) imageSource 2 (world st))
      as (_ & Hok & _).
    rewrite Hex in Hok.
    destruct (Hok rgbColors eq_refl)
      as (_ & _ & _ & _ & pixels & colorMap & _ & _ & ->).
    pose proof (filterColors_len
                  (ColorExtractor.getDominantColors (extractor st) colorMap)
                  2 ltac:(lia)) as Hlen.
    unfold len in Hlen. lia.
  - rewrite styled_cache. cbn [with_cache with_world cache].
    now apply assocSet_fresh.
Qed.

(** X21.  Every call of [createWaves] for an identifier that is not cached
    records exactly one extraction; when that extraction throws, the cache
    stays as it was, so the fallback colours are never cached. *)
Theorem createWaves_miss (st : State) (imageSource : ImageSource)
        (element : option DOM.Element) :
  assocGet (cacheKeyOf imageSource) (cache st) = None ->
  DOM.extractions (world (snd (createWaves env imageSource element st)))
  = DOM.extractions (world st) ++ [imageSource]
  /\ (forall error,
        fst (ColorExtractor.extractColors env (extractor st) imageSource 2
               (world st)) = Throw error ->
        cache (snd (createWaves env imageSource element st)) = cache st).
Proof.
  intros Hmiss.
  destruct (extractColors_cases (extractor st) imageSource 2 (world st))
    as (Hw & _ & _).
  destruct (ColorExtractor.extractColors env (extractor st) imageSource 2
              (world st)) as [[rgbColors | error |] w] eqn:Hex;
    cbn [fst snd] in *; subst w.
  - rewrite (createWaves_extracted env st _ element rgbColors _ Hmiss Hex).
    cbn [snd]. rewrite styled_extractions. split; [reflexivity |].
    intros e H. discriminate H.
  - rewrite (createWaves_failed env st _ element error _ Hmiss Hex).
    cbn [snd]. rewrite styled_extractions, styled_cache.
    split; reflexivity.
  - rewrite (createWaves_diverged env st _ element _ Hmiss Hex).
    cbn [snd]. split; [reflexivity |]. intros e H. discriminate H.
Qed.


End MoreSong.

Section MoreSongDOM.
Import JS Utils Spec More MoreWorld Song.
Variable env : Env.t.

Lemma sameDOM_refl (w : DOM.World) : sameDOM w w.
Proof. repeat split. Qed.

(** Without a canvas, and so outside a browser, [createWaves] always
    resolves. *)
Lemma createWaves_ok (st : State) (imageSource : ImageSource)
      (element : option DOM.Element) :
  Env.isBrowser env = false \/ ColorExtractor.canvas (extractor st) = false
  \/ assocGet (cacheKeyOf imageSource) (cache st) <> None
  \/ 0 < ExtractorOptions.sampleRate (ColorExtractor.options (extractor st)) ->
  exists (result : WaveResult.t) (w : DOM.World) (colors : list string)
         (c : list (string * list string)),
    createWaves env imageSource element st
    = (Ok result, styled env element colors (with_cache c (with_world w st)))
    /\ colors = WaveResult.colors result
    /\ (w = world st \/ w = DOM.recordExtraction imageSource (world st))
    /\ (ColorExtractor.canvas (extractor st) = false -> c = cache st).
Proof.
  intros Hends.
  destruct (createWaves_cases env st imageSource element)
    as [(result & w & colors & c & Hcall & Hcolors & Hw & Hc & _)
       | (_ & Hmiss & Hb & Hcanvas & Hrate)].
  - now exists result, w, colors, c.
  - exfalso. destruct Hends as [H | [H | [H | H]]];
      [congruence | congruence | congruence | lia].
Qed.

Lemma styled_sameDOM element colors st :
  Env.isBrowser env = false ->
  sameDOM (world st) (world (styled env element colors st)).
Proof.
  intros Hb. destruct element as [e |]; [| apply sameDOM_refl].
  cbn [styled with_world world]. split.
  - now apply applyToElement_headless.
  - apply applyToElement_rest.
Qed.

Lemma createWaves_headless (st : State) (imageSource : ImageSource)
      (element : option DOM.Element) :
  Env.isBrowser env = false ->
  sameDOM (world st) (world (snd (createWaves env imageSource element st))).
Proof.
  intros Hb.
  destruct (createWaves_ok st imageSource element (or_introl Hb))
    as (result & w & colors & c & -> & _ & Hw & _).
  cbn [snd].
  destruct (styled_sameDOM element colors (with_cache c (with_world w st)) Hb)
    as (H1 & H2 & H3).
  cbn [with_cache with_world world] in H1, H2, H3.
  unfold sameDOM. rewrite H1, H2, H3.
  destruct Hw as [-> | ->]; repeat split.
Qed.

Lemma step_extractor_canvas (call : Call) (st : State) :
  ColorExtractor.canvas (extractor st) = false ->
  ColorExtractor.canvas (extractor (step env call st)) = false.
Proof.
  intros Hc.
  destruct call; cbn [step];
    unfold flowToElements, generateWaveCSS, applyGlobalWaves, preloadColors,
      enableFlowAnimation, disableFlowAnimation, updateExtractorOptions,
      updateWaveConfig, getExtractorOptions, getWaveConfig, getCacheStats,
      destroy, clearCache, bind, when, modify, get, ret;
    try match goal with
        | |- context [createWaves env ?src ?el st] =>
            destruct (createWaves_ok st src el (or_intror (or_introl Hc)))
              as (result & w & colors & c & -> & _ & _ & _)
        end;
    try destruct (Env.isBrowser env);
    cbn [snd fst with_world with_cache with_extractor with_generator
         extractor]; rewrite ?styled_extractor; cbn [extractor];
    try exact Hc.
  all: unfold ColorExtractor.destroy; rewrite Hc; exact Hc.
Qed.

Lemma step_cache_canvas (call : Call) (st : State) :
  ColorExtractor.canvas (extractor st) = false ->
  cache st = [] ->
  cache (step env call st) = [].
Proof.
  intros Hc Hempty.
  pose proof (step_via_createWaves env call st) as H.
  destruct call; rewrite H; try exact Hempty; try reflexivity;
    match goal with
    | |- context [createWaves env ?src ?el st] =>
        destruct (createWaves_ok st src el (or_intror (or_introl Hc)))
          as (result & w & colors & c & -> & _ & _ & Hcache)
    end;
    cbn [snd]; rewrite styled_cache; cbn [with_cache cache];
    rewrite (Hcache Hc); exact Hempty.
Qed.

Lemma step_headless (call : Call) (st : State) :
  Env.isBrowser env = false ->
  sameDOM (world st) (world (step env call st)).
Proof.
  intros Hb.
  destruct call; cbn [step];
    unfold flowToElements, generateWaveCSS, applyGlobalWaves, preloadColors,
      enableFlowAnimation, disableFlowAnimation, updateExtractorOptions,
      updateWaveConfig, getExtractorOptions, getWaveConfig, getCacheStats,
      destroy, clearCache, bind, when, modify, get, ret;
    rewrite ?Hb;
    try match goal with
        | |- context [createWaves env ?src ?el st] =>
            pose proof (createWaves_headless st src el Hb) as Hdom;
            destruct (createWaves env src el st) as [[result | e |] st']
        end;
    cbn [snd fst world with_world with_cache with_extractor with_generator] in *;
    try exact Hdom; apply sameDOM_refl.
Qed.

(** X23.  Outside a browser a [Song] is inert: no call of any of its
    methods changes the style of an element, a custom property of the
    document root or the keyframes sheet, and in every state it can reach
    its cache is empty. *)
Theorem headless_inert :
  Env.isBrowser env = false ->
  (forall (call : Call) (st : State),
      sameDOM (world st) (world (step env call st)))
  /\ (forall st : State, reachable env st -> cache st = []).
Proof.
  intros Hb. split; [intros call st; now apply step_headless |].
  intros st Hreach.
  assert (H : ColorExtractor.canvas (extractor st) = false /\ cache st = []).
  { induction Hreach as [extractorOptions waveConfig w | call st _ [IHc IHe]].
    - unfold new, ColorExtractor.new. rewrite Hb. split; reflexivity.
    - split; [now apply step_extractor_canvas | now apply step_cache_canvas]. }
  apply H.
Qed.


End MoreSongDOM.

(** ** Custom properties on the document root *)

Section MoreRoot.
Import JS Utils Spec More MoreVariables.
Variable env : Env.t.

Lemma assocGet_assocSet_other {V} (k k' : string) (v : V)
      (m : list (string * V)) :
  k <> k' -> assocGet k (assocSet k' v m) = assocGet k m.
Proof.
  intros Hne. induction m as [| [k0 v0] rest IH]; cbn [assocSet assocGet].
  - now rewrite (proj2 (String.eqb_neq k k') Hne).
  - destruct (String.eqb k' k0) eqn:Hk'; cbn [assocGet].
    + apply String.eqb_eq in Hk'. subst k0.
      now rewrite (proj2 (String.eqb_neq k k') Hne).
    + destruct (String.eqb k k0); [reflexivity | exact IH].
Qed.

Lemma assocGet_notin {V} (k : string) (m : list (string * V)) :
  ~ In k (assocKeys m) -> assocGet k m = None.
Proof.
  unfold assocKeys. induction m as [| [k0 v0] rest IH]; cbn [assocGet map In];
    [reflexivity |].
  intros Hnot. destruct (String.eqb_spec k k0) as [-> | Hne].
  - exfalso. apply Hnot. now left.
  - apply IH. intros Hin. apply Hnot. now right.
Qed.

(** Assigning a list of entries with distinct keys, one after the other. *)
Lemma assign_lookup {V} (entries : list (string * V)) :
  forall (m : list (string * V)) (k : string),
    NoDup (assocKeys entries) ->
    assocGet k
      (fold_left (fun m entry => assocSet (fst entry) (snd entry) m) entries m)
    = match assocGet k entries with
      | Some v => Some v
      | None => assocGet k m
      end.
Proof.
  induction entries as [| [k1 v1] rest IH]; intros m k Hnd;
    cbn [fold_left assocGet fst snd]; [reflexivity |].
  unfold assocKeys in Hnd. cbn [map fst] in Hnd.
  inversion Hnd as [| ? ? Hnotin Hrest]; subst.
  rewrite (IH _ _ Hrest).
  destruct (String.eqb_spec k k1) as [-> | Hne].
  - rewrite (assocGet_notin k1 rest Hnotin).
    apply assocGet_assocSet_same.
  - destruct (assocGet k rest); [reflexivity |].
    now apply assocGet_assocSet_other.
Qed.

Lemma colorVariables_NoDup (prefix : string) (waveColors : list string) :
  forall (index : nat) (variables : list (string * string)),
    NoDup (assocKeys variables) ->
    NoDup (assocKeys
             (WaveGenerator.colorVariables prefix waveColors index variables)).
Proof.
  induction waveColors as [| color rest IH]; intros index variables Hnd;
    cbn [WaveGenerator.colorVariables]; [exact Hnd |].
  apply IH. now apply assocKeys_assocSet_NoDup.
Qed.

Lemma generateCSSVariables_NoDup (this : WaveGenerator.t)
      (colors : list string) (prefix : string) :
  NoDup (assocKeys (WaveGenerator.generateCSSVariables this colors prefix)).
Proof.
  unfold WaveGenerator.generateCSSVariables.
  apply colorVariables_NoDup.
  repeat apply assocKeys_assocSet_NoDup. constructor.
Qed.

Lemma setRootProperty_fold (entries : list (string * string)) :
  forall w : DOM.World,
    let w' := fold_left
                (fun w entry => DOM.setRootProperty (fst entry) (snd entry) w)
                entries w in
    DOM.rootProperties w'
    = fold_left (fun m entry => assocSet (fst entry) (snd entry) m) entries
                (DOM.rootProperties w)
    /\ DOM.styles w' = DOM.styles w
    /\ DOM.waveAnimationSheet w' = DOM.waveAnimationSheet w.
Proof.
  induction entries as [| entry rest IH]; intros w; cbn [fold_left].
  - repeat split.
  - destruct (IH (DOM.setRootProperty (fst entry) (snd entry) w))
      as (H1 & H2 & H3).
    cbv zeta in *. rewrite H1, H2, H3. repeat split.
Qed.

(** X25.  In a browser [applyCSSVariables] writes the generated custom
    properties to the document root and nothing else: afterwards a
    property holds the generated value if [generateCSSVariables] names it
    and its old value otherwise, and no element style has changed.
    Outside a browser nothing changes at all. *)
Theorem applyCSSVariables_effect (this : WaveGenerator.t)
        (colors : list string) (prefix : string) (w : DOM.World) :
  if Env.isBrowser env then
    (forall property : string,
        assocGet property
          (DOM.rootProperties
             (WaveGenerator.applyCSSVariables env this colors prefix w))
        = match assocGet property
                  (WaveGenerator.generateCSSVariables this colors prefix) with
          | Some value => Some value
          | None => assocGet property (DOM.rootProperties w)
          end)
    /\ DOM.styles (WaveGenerator.applyCSSVariables env this colors prefix w)
       = DOM.styles w
  else
    WaveGenerator.applyCSSVariables env this colors prefix w = w.
Proof.
  unfold WaveGenerator.applyCSSVariables.
  destruct (Env.isBrowser env); cbn [negb]; [| reflexivity].
  destruct (setRootProperty_fold
              (WaveGenerator.generateCSSVariables this colors prefix) w)
    as (Hroot & Hstyles & _).
  cbv zeta in Hroot, Hstyles. split; [| exact Hstyles].
  intros property. rewrite Hroot.
  apply assign_lookup, generateCSSVariables_NoDup.
Qed.

End MoreRoot.

(** ** The library entry point *)

Section MoreIndex.
Import JS Utils Spec More Song Index.
Variable env : Env.t.
Variable querySelector : string -> Outcome (option DOM.Element).





End MoreIndex.

(** ** Instances on the sample environments *)

Lemma applyToElement_effect_witness :
  DOM.styles
    (WaveGenerator.applyToElement Sample.online
       (WaveGenerator.new WaveConfig.empty) 1%nat ["#111111"; "#222222"]
       DOM.initial) 2%nat
  = DOM.Style.initial.
Proof.
  apply (applyToElement_effect Sample.online
           (WaveGenerator.new WaveConfig.empty) 1%nat ["#111111"; "#222222"]
           DOM.initial).
  discriminate.
Defined.

Lemma extractColors_outcome_witness :
  JS.len [mkRGB 100 100 100; mkRGB 200 50 50] = 2.
Proof.
  apply (extractColors_outcome Sample.online
           (Song.extractor (Sample.fresh Sample.online))
           (ImageUrl "cover.png") 2 DOM.initial
           [mkRGB 100 100 100; mkRGB 200 50 50]).
  - vm_compute. reflexivity.
  - lia.
Defined.


(** A white image sampled at every index gives a result that is flowing,
    with colours that are no hex colours and a harmony that is [NaN]. *)
Example createWaves_white :
  exists (result : WaveResult.t) (st' : Song.State),
    Song.createWaves Sample.white (ImageUrl "white.png") None
      (Song.new Sample.white
         (ExtractorOptions.mk (F := Partial) (Some 1) (Some 1) None None)
         WaveConfig.empty DOM.initial)
    = (Ok result, st')
    /\ WaveResult.isFlowing result = true
    /\ WaveResult.colors result = ["#fafaNaN"; "#faNaNNaN"]
    /\ WaveResult.harmony result = F64.NaN
    /\ WaveResult.mood result = "balanced"
    /\ WaveResult.intensity result = "medium".
Proof.
  eexists. eexists. split; [vm_compute; reflexivity |]. repeat split.
Qed.

(** With a sample rate of zero the extraction never ends, and neither
    does [createWaves]. *)
Example createWaves_diverges :
  fst (Song.createWaves Sample.online (ImageUrl "cover.png") None
         (Song.new Sample.online
            (ExtractorOptions.mk (F := Partial) None (Some 0) None None)
            WaveConfig.empty DOM.initial))
  = Diverges.
Proof. vm_compute. reflexivity. Qed.

Lemma createWaves_caches_witness :
  exists (result : WaveResult.t) (st' : Song.State),
    Song.createWaves Sample.online (ImageUrl "cover.png") None
      (Sample.fresh Sample.online)
    = (Ok result, st')
    /\ WaveResult.colors result = ["#646464"; "#c83232"]
    /\ Song.cache st' = [("cover.png", ["#646464"; "#c83232"])].
Proof.
  assert (Hex : ColorExtractor.extractColors Sample.online
                  (Song.extractor (Sample.fresh Sample.online))
                  (ImageUrl "cover.png") 2
                  (Song.world (Sample.fresh Sample.online))
                = (Ok [mkRGB 100 100 100; mkRGB 200 50 50],
                   DOM.recordExtraction (ImageUrl "cover.png") DOM.initial))
    by (vm_compute; reflexivity).
  destruct (createWaves_caches Sample.online (Sample.fresh Sample.online)
              (ImageUrl "cover.png") None
              [mkRGB 100 100 100; mkRGB 200 50 50]
              (DOM.recordExtraction (ImageUrl "cover.png") DOM.initial)
              eq_refl Hex)
    as (result & st' & Hcall & _ & _ & Hcolors & _ & Hcache).
  exists result, st'. split; [exact Hcall |]. split; [exact Hcolors |].
  rewrite Hcache, Hcolors. vm_compute. reflexivity.
Defined.

Lemma createWaves_miss_witness :
  DOM.extractions
    (Song.world
       (snd (Song.createWaves Sample.offline (ImageUrl "cover.png") None
               (Sample.fresh Sample.offline))))
  = [ImageUrl "cover.png"]
  /\ Song.cache
       (snd (Song.createWaves Sample.offline (ImageUrl "cover.png") None
               (Sample.fresh Sample.offline)))
     = [].
Proof.
  destruct (createWaves_miss Sample.offline (Sample.fresh Sample.offline)
              (ImageUrl "cover.png") None eq_refl) as [Hlog Hcache].
  split; [exact Hlog |].
  exact (Hcache (ErrorObj "Failed to load image: cover.png") eq_refl).
Defined.

Lemma headless_inert_witness :
  Song.cache
    (Song.step Sample.headless
       (Song.CreateWaves (ImageUrl "cover.png") (Some 1%nat))
       (Sample.fresh Sample.headless))
  = []
  /\ DOM.styles
       (Song.world
          (Song.step Sample.headless
             (Song.CreateWaves (ImageUrl "cover.png") (Some 1%nat))
             (Sample.fresh Sample.headless)))
     = DOM.styles (Song.world (Sample.fresh Sample.headless)).
Proof.
  destruct (headless_inert Sample.headless eq_refl) as [Hdom Hcache].
  split.
  - apply Hcache. apply Song.reachable_step. apply Song.reachable_new.
  - apply (Hdom (Song.CreateWaves (ImageUrl "cover.png") (Some 1%nat))
             (Sample.fresh Sample.headless)).
Defined.



(** ** The doubles of the model and the doubles of the kernel *)

(** The library's arithmetic done once in the model and once with the
    binary64 operations of the kernel, on the inputs at which the two
    would part if the model rounded otherwise. *)
Section KernelDoubles.
Import Utils.
Import Floats.
#[local] Set Warnings "-inexact-float".

Example brightness_grey_175 :
  F64.toPrim (calculateBrightness (mkRGB 175 175 175))
  = (0.299 * 175 + 0.587 * 175 + 0.114 * 175)%float
  /\ (0.299 * 175 + 0.587 * 175 + 0.114 * 175 <? 175)%float = true.
Proof. split; vm_compute; reflexivity. Qed.

Example brightness_above_180 :
  F64.toPrim (calculateBrightness (mkRGB 220 194 3))
  = (0.299 * 220 + 0.587 * 194 + 0.114 * 3)%float
  /\ (180 <? 0.299 * 220 + 0.587 * 194 + 0.114 * 3)%float = true.
Proof. split; vm_compute; reflexivity. Qed.

Example brightness_below_100 :
  F64.toPrim (calculateBrightness (mkRGB 74 108 127))
  = (0.299 * 74 + 0.587 * 108 + 0.114 * 127)%float
  /\ (0.299 * 74 + 0.587 * 108 + 0.114 * 127 <? 100)%float = true.
Proof. split; vm_compute; reflexivity. Qed.

Example brightness_below_40 :
  F64.toPrim (calculateBrightness (mkRGB 14 48 67))
  = (0.299 * 14 + 0.587 * 48 + 0.114 * 67)%float
  /\ (0.299 * 14 + 0.587 * 48 + 0.114 * 67 <? 40)%float = true.
Proof. split; vm_compute; reflexivity. Qed.

Example brightness_above_200 :
  F64.toPrim (calculateBrightness (mkRGB 144 226 213))
  = (0.299 * 144 + 0.587 * 226 + 0.114 * 213)%float
  /\ (200 <? 0.299 * 144 + 0.587 * 226 + 0.114 * 213)%float = true.
Proof. split; vm_compute; reflexivity. Qed.

(** The three pairs of [(0, 64, 128)], [(128, 0, 64)] and [(0, 0, 0)]
    are at distances 256, 192 and 192. *)
Example harmony_three :
  F64.toPrim
    (calculateHarmony [mkRGB 0 64 128; mkRGB 128 0 64; mkRGB 0 0 0])
  = ((0 + (1 - 106 / 150) + (1 - 42 / 150) + (1 - 42 / 150)) / 3)%float
  /\ F64.toPrim
       (calculateHarmony [mkRGB 0 0 0; mkRGB 0 64 128; mkRGB 128 0 64])
     = ((0 + (1 - 42 / 150) + (1 - 42 / 150) + (1 - 106 / 150)) / 3)%float.
Proof. split; vm_compute; reflexivity. Qed.

Example saturation_of_orange :
  F64.toPrim (saturationOf (mkRGB 220 194 3)) = ((220 - 3) / 220)%float.
Proof. vm_compute. reflexivity. Qed.

End KernelDoubles.

